(** * Mazo-Parser: contact, skill and experience extraction, skill matching

    A shallow embedding of the extraction heuristics and of the skill
    matcher of the Mazo-Parser front end (TypeScript), with the properties
    of its natural-language specification stated over the embedding.

    Conventions.  A JavaScript string is the list of its UTF-16 code units
    ([jsstring]); [js] embeds a literal of the source.  Regular expressions
    are values of [RegExp.regex], a transliteration of the source's regex
    literals, run by a backtracking matcher that follows the ECMAScript
    matching rules (leftmost match, ordered alternatives, greedy and lazy
    quantifiers, capture groups).  Host facilities whose result is fixed by
    the engine and not by the program are parameters: Unicode lower-casing
    and the parsing of free-form date strings ([Host]), and the clock
    (an explicit argument [now]).  *)

From Stdlib Require Import List String Ascii Bool Arith PeanoNat NArith ZArith Lia.
From Stdlib Require Import Permutation Sorted.
Import ListNotations.

(* ================================================================== *)
(** ** JavaScript strings *)
(* ================================================================== *)

Module JSString.

Definition jsstring := list N.

(** A literal of the source (code units below 256). *)
Definition js (s : string) : jsstring :=
  map N_of_ascii (list_ascii_of_string s).

Definition ch (s : string) : N :=
  match s with
  | String a _ => N_of_ascii a
  | EmptyString => 0%N
  end.

Fixpoint str_eqb (a b : jsstring) : bool :=
  match a, b with
  | [], [] => true
  | x :: a', y :: b' => N.eqb x y && str_eqb a' b'
  | _, _ => false
  end.

(** [s.startsWith(p)] *)
Fixpoint startsWith (s p : jsstring) {struct p} : bool :=
  match p, s with
  | [], _ => true
  | y :: p', x :: s' => N.eqb x y && startsWith s' p'
  | _ :: _, [] => false
  end.

(** [s.endsWith(p)] *)
Definition endsWith (s p : jsstring) : bool :=
  startsWith (rev s) (rev p).

(** [s.includes(p)] *)
Fixpoint includes (s p : jsstring) : bool :=
  startsWith s p ||
  match s with
  | [] => false
  | _ :: s' => includes s' p
  end.

(** [l.includes(s)] on an array of strings *)
Definition arr_includes (l : list jsstring) (s : jsstring) : bool :=
  existsb (str_eqb s) l.

(** [s.split(c)] for a one-character separator: the pieces between the
    occurrences of [c], empty pieces kept. *)
Fixpoint split_char (c : N) (s : jsstring) : list jsstring :=
  match s with
  | [] => [[]]
  | x :: s' =>
      if N.eqb x c then [] :: split_char c s'
      else match split_char c s' with
           | p :: ps => (x :: p) :: ps
           | [] => [[x]]
           end
  end.

(** [l.join(c)] *)
Fixpoint join (c : jsstring) (l : list jsstring) : jsstring :=
  match l with
  | [] => []
  | [s] => s
  | s :: l' => s ++ c ++ join c l'
  end.

(** [s.substring(a, b)] for [a <= b] *)
Definition substring (a b : nat) (s : jsstring) : jsstring :=
  firstn (b - a) (skipn a s).

Definition in_range (lo hi : N) (c : N) : bool :=
  (N.leb lo c && N.leb c hi)%N.

Definition isDigit (c : N) : bool := in_range 48 57 c.
Definition isUpper (c : N) : bool := in_range 65 90 c.
Definition isLower (c : N) : bool := in_range 97 122 c.
Definition isAlpha (c : N) : bool := isUpper c || isLower c.
(** [\w] *)
Definition isWordChar (c : N) : bool := isAlpha c || isDigit c || N.eqb c 95.

(** [\s]: the WhiteSpace and LineTerminator code points of ECMAScript;
    [trim] strips the same set. *)
Definition isSpace (c : N) : bool :=
  in_range 9 13 c || N.eqb c 32 || N.eqb c 160 || N.eqb c 5760 ||
  in_range 8192 8202 c || N.eqb c 8232 || N.eqb c 8233 || N.eqb c 8239 ||
  N.eqb c 8287 || N.eqb c 12288 || N.eqb c 65279.

Definition isLineTerminator (c : N) : bool :=
  N.eqb c 10 || N.eqb c 13 || N.eqb c 8232 || N.eqb c 8233.

Fixpoint trimStart (s : jsstring) : jsstring :=
  match s with
  | c :: s' => if isSpace c then trimStart s' else s
  | [] => []
  end.

Definition trimEnd (s : jsstring) : jsstring := rev (trimStart (rev s)).

(** [s.trim()] *)
Definition trim (s : jsstring) : jsstring := trimEnd (trimStart s).

(** Lower-casing of the Basic Latin letters: what [toLowerCase] does on a
    string of code units below 128. *)
Definition lower_ascii (c : N) : N := if isUpper c then (c + 32)%N else c.
Definition upper_ascii (c : N) : N := if isLower c then (c - 32)%N else c.

(** [Set.add]: a JavaScript [Set] keeps insertion order and ignores an
    element that is already present. *)
Definition set_add (s : jsstring) (l : list jsstring) : list jsstring :=
  if arr_includes l s then l else l ++ [s].

(** Decimal rendering of an integer, [String(n)] / [n.toString()]. *)
Fixpoint digits_of_pos (fuel : nat) (n : N) (acc : jsstring) : jsstring :=
  match fuel with
  | O => acc
  | S f =>
      let acc' := (48 + N.modulo n 10)%N :: acc in
      if N.ltb n 10 then acc' else digits_of_pos f (N.div n 10) acc'
  end.

Definition toString (z : Z) : jsstring :=
  let n := Z.abs_N z in
  let d := digits_of_pos (S (N.to_nat (N.log2 n))) n [] in
  if Z.ltb z 0 then 45%N :: d else d.

End JSString.

Import JSString.

(** The host environment: the parts of the JavaScript engine whose results
    the program consumes and whose definition lies outside the program. *)
Class Host : Type := {
  (** [String.prototype.toLowerCase] (full Unicode case mapping) *)
  toLowerCase : jsstring -> jsstring;
  (** [new Date(string)] on a string that is not a date-time in the
      standard format: the time value the engine chooses, or [None] for an
      invalid date. *)
  Date_parse : jsstring -> option Z;
  (** On Basic Latin text the case mapping is the ASCII one. *)
  toLowerCase_ascii :
    forall s, forallb (fun c => N.ltb c 128) s = true ->
              toLowerCase s = map lower_ascii s
}.

(** The host restricted to Basic Latin text, for running examples: ASCII
    lower-casing, and no engine-specific date formats. *)
#[export] Instance ascii_host : Host := {
  toLowerCase := map lower_ascii;
  Date_parse := fun _ => None;
  toLowerCase_ascii := fun s _ => eq_refl
}.

(* ================================================================== *)
(** ** Regular expressions *)
(* ================================================================== *)

Module RegExp.

(** Abstract syntax of the regex literals the program uses. *)
Inductive regex : Type :=
| REmpty                                   (* the empty pattern *)
| RChar (c : N)                            (* a literal character *)
| RClass (p : N -> bool)                   (* [...], \d, \s, \w *)
| RNotClass (p : N -> bool)                (* [^...], \D, \S *)
| RSeq (a b : regex)
| RAlt (a b : regex)                       (* a|b, left alternative first *)
| RGroup (i : nat) (a : regex)             (* i-th capturing group *)
| RRepeat (min : nat) (max : option nat) (greedy : bool) (a : regex)
| RStart                                   (* ^ *)
| REnd                                     (* $ *)
| RWordB                                   (* \b *)
| RBackref (i : nat).                      (* \i *)

Record flags := Flags { ignoreCase : bool; multiline : bool }.

Definition no_flags := Flags false false.
Definition flag_i := Flags true false.

(** State of a match attempt: the end index, the code unit before it, the
    rest of the input, and the captures (newest first). *)
Record mstate := MState {
  st_pos : nat;
  st_prev : option N;
  st_rest : list N;
  st_caps : list (nat * (nat * nat))
}.

Definition cont := mstate -> option mstate.

(** Canonicalize of a non-Unicode regex: a code unit below 128 is compared
    by its upper-case form; the patterns of the program have no cased
    character outside Basic Latin. *)
Definition canon (fl : flags) (c : N) : N :=
  if ignoreCase fl then upper_ascii c else c.

Definition char_matches (fl : flags) (c x : N) : bool :=
  N.eqb (canon fl c) (canon fl x).

Definition class_matches (fl : flags) (p : N -> bool) (x : N) : bool :=
  if ignoreCase fl then p x || p (upper_ascii x) || p (lower_ascii x)
  else p x.

Definition is_word (o : option N) : bool :=
  match o with Some c => isWordChar c | None => false end.

Definition is_lt (o : option N) : bool :=
  match o with Some c => isLineTerminator c | None => false end.

Definition consume (test : N -> bool) (st : mstate) (k : cont) : option mstate :=
  match st_rest st with
  | x :: tl =>
      if test x
      then k (MState (S (st_pos st)) (Some x) tl (st_caps st))
      else None
  | [] => None
  end.

Fixpoint lookup_cap (i : nat) (caps : list (nat * (nat * nat))) : option (nat * nat) :=
  match caps with
  | [] => None
  | (j, se) :: caps' => if Nat.eqb i j then Some se else lookup_cap i caps'
  end.

Fixpoint groups_of (r : regex) : list nat :=
  match r with
  | RSeq a b | RAlt a b => groups_of a ++ groups_of b
  | RGroup i a => i :: groups_of a
  | RRepeat _ _ _ a => groups_of a
  | _ => []
  end.

Definition clear_caps (gs : list nat) (st : mstate) : mstate :=
  MState (st_pos st) (st_prev st) (st_rest st)
    (filter (fun e => negb (existsb (Nat.eqb (fst e)) gs)) (st_caps st)).

(** Consume the string [w] (a back-reference). *)
Fixpoint consume_str (fl : flags) (w : jsstring) (st : mstate) (k : cont) : option mstate :=
  match w with
  | [] => k st
  | c :: w' => consume (char_matches fl c) st (fun st' => consume_str fl w' st' k)
  end.

Definition orelse (a b : option mstate) : option mstate :=
  match a with Some _ => a | None => b end.

Definition dec_max (mx : option nat) : option nat :=
  match mx with Some n => Some (pred n) | None => None end.

Section Matcher.
Variable fl : flags.
Variable input : jsstring.

(** The matcher of a pattern, in continuation-passing style: [rmatch r st k]
    tries to match [r] at [st] and then to complete the match with [k]; a
    failure of [k] makes [r] backtrack.  The repetition follows
    RepeatMatcher: captures inside the repeated atom are cleared at each
    iteration, and once the minimum is reached an iteration that consumes
    nothing is refused. *)
Fixpoint rmatch (r : regex) (st : mstate) (k : cont) {struct r} : option mstate :=
  match r with
  | REmpty => k st
  | RChar c => consume (char_matches fl c) st k
  | RClass p => consume (class_matches fl p) st k
  | RNotClass p => consume (fun x => negb (class_matches fl p x)) st k
  | RSeq a b => rmatch a st (fun st' => rmatch b st' k)
  | RAlt a b => orelse (rmatch a st k) (rmatch b st k)
  | RGroup i a =>
      rmatch a st
        (fun st' => k (MState (st_pos st') (st_prev st') (st_rest st')
                         ((i, (st_pos st, st_pos st')) :: st_caps st')))
  | RRepeat mn mx greedy a =>
      (fix rep (fuel : nat) (mn : nat) (mx : option nat) (x : mstate) {struct fuel}
         : option mstate :=
         match fuel with
         | O => None
         | S fuel' =>
             match mx with
             | Some O => k x
             | _ =>
                 let d := fun y : mstate =>
                   if Nat.eqb mn 0 && Nat.eqb (st_pos y) (st_pos x) then None
                   else rep fuel' (pred mn) (dec_max mx) y in
                 let iter := rmatch a (clear_caps (groups_of a) x) d in
                 if negb (Nat.eqb mn 0) then iter
                 else if greedy then orelse iter (k x)
                 else orelse (k x) iter
             end
         end) (mn + List.length (st_rest st) + 1) mn mx st
  | RStart =>
      if Nat.eqb (st_pos st) 0 || (multiline fl && is_lt (st_prev st))
      then k st else None
  | REnd =>
      match st_rest st with
      | [] => k st
      | x :: _ => if multiline fl && isLineTerminator x then k st else None
      end
  | RWordB =>
      if xorb (is_word (st_prev st)) (is_word (hd_error (st_rest st)))
      then k st else None
  | RBackref i =>
      match lookup_cap i (st_caps st) with
      | None => k st
      | Some (s, e) => consume_str fl (substring s e input) st k
      end
  end.

(** One match attempt at a fixed start. *)
Definition match_here (r : regex) (pos : nat) (prev : option N) (rest : list N)
  : option mstate :=
  rmatch r (MState pos prev rest []) (fun st => Some st).

(** The first match at or after a position (RegExpBuiltinExec without the
    sticky flag). *)
Fixpoint exec_from (r : regex) (pos : nat) (prev : option N) (rest : list N)
  : option (nat * mstate) :=
  match match_here r pos prev rest with
  | Some st => Some (pos, st)
  | None =>
      match rest with
      | [] => None
      | c :: tl => exec_from r (S pos) (Some c) tl
      end
  end.

End Matcher.

(** A match: start index, end index and captures. *)
Record rmatch_result := RMatch {
  m_input : jsstring;
  m_index : nat;
  m_end : nat;
  m_caps : list (nat * (nat * nat))
}.

(** [match[i]]: [None] is [undefined]. *)
Definition group (m : rmatch_result) (i : nat) : option jsstring :=
  match i with
  | O => Some (substring (m_index m) (m_end m) (m_input m))
  | _ =>
      match lookup_cap i (m_caps m) with
      | Some (s, e) => Some (substring s e (m_input m))
      | None => None
      end
  end.

Definition matched (m : rmatch_result) : jsstring :=
  substring (m_index m) (m_end m) (m_input m).

Definition mk_result (input : jsstring) (s : nat) (st : mstate) : rmatch_result :=
  RMatch input s (st_pos st) (st_caps st).

(** [r.exec(s)] / [s.match(r)] for a regex without the [g] flag. *)
Definition exec (fl : flags) (r : regex) (s : jsstring) : option rmatch_result :=
  match exec_from fl s r 0 None s with
  | Some (i, st) => Some (mk_result s i st)
  | None => None
  end.

(** [r.test(s)] for a regex without the [g] flag. *)
Definition test (fl : flags) (r : regex) (s : jsstring) : bool :=
  match exec fl r s with Some _ => true | None => false end.

(** [s.matchAll(r)] for a regex with the [g] flag: successive matches, each
    search starting where the previous match ended, one code unit further
    after an empty match. *)
Fixpoint matchAll_from (fl : flags) (input : jsstring) (r : regex) (fuel : nat)
    (pos : nat) (prev : option N) (rest : list N) : list rmatch_result :=
  match fuel with
  | O => []
  | S fuel' =>
      match exec_from fl input r pos prev rest with
      | None => []
      | Some (i, st) =>
          mk_result input i st ::
          (if Nat.eqb (st_pos st) i
           then match st_rest st with
                | [] => []
                | c :: tl => matchAll_from fl input r fuel' (S (st_pos st)) (Some c) tl
                end
           else matchAll_from fl input r fuel' (st_pos st) (st_prev st) (st_rest st))
      end
  end.

Definition matchAll (fl : flags) (r : regex) (s : jsstring) : list rmatch_result :=
  matchAll_from fl s r (S (List.length s)) 0 None s.

(** [s.match(r)] for a regex with the [g] flag: the matched strings, [None]
    ([null]) when there is none. *)
Definition match_g (fl : flags) (r : regex) (s : jsstring) : option (list jsstring) :=
  match matchAll fl r s with
  | [] => None
  | ms => Some (map matched ms)
  end.

(** Rebuild [s] with every match of [ms] replaced by [rep]; [at] is the
    index of the first code unit of [s] in the input. *)
Fixpoint splice (rep : jsstring) (ms : list rmatch_result) (at_ : nat) (s : jsstring)
  : jsstring :=
  match ms with
  | [] => s
  | m :: ms' =>
      firstn (m_index m - at_) s ++ rep ++
      splice rep ms' (m_end m) (skipn (m_end m - at_) s)
  end.

(** [s.replace(r, rep)] for a regex with the [g] flag and a replacement
    without [$] patterns. *)
Definition replace_g (fl : flags) (r : regex) (rep : jsstring) (s : jsstring) : jsstring :=
  splice rep (matchAll fl r s) 0 s.

(** [s.split(r)] for a regex that never matches the empty string: the
    pieces between successive matches (captures are not spliced in: the
    separators of the program have no capturing group). *)
Fixpoint pieces (ms : list rmatch_result) (at_ : nat) (s : jsstring) : list jsstring :=
  match ms with
  | [] => [s]
  | m :: ms' =>
      firstn (m_index m - at_) s :: pieces ms' (m_end m) (skipn (m_end m - at_) s)
  end.

Definition split_re (fl : flags) (r : regex) (s : jsstring) : list jsstring :=
  pieces (matchAll fl r s) 0 s.

(** *** Pattern combinators *)

Fixpoint rseq (l : list regex) : regex :=
  match l with
  | [] => REmpty
  | [r] => r
  | r :: l' => RSeq r (rseq l')
  end.

Fixpoint ralt (l : list regex) : regex :=
  match l with
  | [] => REmpty
  | [r] => r
  | r :: l' => RAlt r (ralt l')
  end.

(** A literal word. *)
Definition lit (s : string) : regex := rseq (map RChar (js s)).
Definition lit_js (s : jsstring) : regex := rseq (map RChar s).

Definition star (r : regex) : regex := RRepeat 0 None true r.
Definition plus (r : regex) : regex := RRepeat 1 None true r.
Definition plus_lazy (r : regex) : regex := RRepeat 1 None false r.
Definition opt (r : regex) : regex := RRepeat 0 (Some 1) true r.
Definition times (n m : nat) (r : regex) : regex := RRepeat n (Some m) true r.
Definition at_least (n : nat) (r : regex) : regex := RRepeat n None true r.

Definition one_of (s : string) (c : N) : bool := existsb (N.eqb c) (js s).

Definition d : regex := RClass isDigit.          (* \d *)
Definition s : regex := RClass isSpace.          (* \s *)

End RegExp.

Import RegExp.

(** [x || y] on strings: the empty string and [undefined] are falsy. *)
Definition or_else (x : option jsstring) (y : jsstring) : jsstring :=
  match x with
  | Some ((_ :: _) as v) => v
  | _ => y
  end.

(** [match[1] || match[0]] *)
Definition group1_or_0 (m : rmatch_result) : jsstring :=
  or_else (group m 1) (matched m).

(** Collapse every maximal run of code units satisfying [p] into one space:
    [s.replace(/P+/g, ' ')] for a character class [P]. *)
Fixpoint collapse (p : N -> bool) (s : jsstring) : jsstring :=
  match s with
  | [] => []
  | c :: s' =>
      if p c then
        match s' with
        | c' :: _ => if p c' then collapse p s' else 32%N :: collapse p s'
        | [] => [32%N]
        end
      else c :: collapse p s'
  end.

(** [s.replace(/^00/, '+')] *)
Definition replace_leading_00 (s : jsstring) : jsstring :=
  match s with
  | 48%N :: 48%N :: tl => 43%N :: tl
  | _ => s
  end.

(** Number of occurrences of a code unit: [(s.match(/c/g) || []).length]. *)
Definition count_char (c : N) (s : jsstring) : nat :=
  List.length (filter (N.eqb c) s).

(* ================================================================== *)
(** ** utils/parser/contactExtractor.ts *)
(* ================================================================== *)

Module ContactExtractor.

(** *** Emails *)

Definition invalidDomains : list jsstring :=
  map js ["example.com"; "test.com"; "email.com"; "domain.com"; "company.com";
          "yourcompany.com"; "youremail.com"; "sample.com"]%string.

(** [[A-Za-z0-9._%-]] *)
Definition local_char (c : N) : bool :=
  isAlpha c || isDigit c || one_of "._%-" c.

Definition dot : N := 46%N.
Definition at_sign : N := 64%N.

Definition isValidEmail (email : jsstring) : bool :=
  if (List.length email <? 5) || (100 <? List.length email) then false else
  (* Must have exactly one @ *)
  if negb (count_char at_sign email =? 1) then false else
  match split_char at_sign email with
  | [localPart; domain] =>
      (* Local part validation *)
      if (List.length localPart =? 0) || (64 <? List.length localPart) then false else
      if startsWith localPart [dot] || endsWith localPart [dot] then false else
      if includes localPart [dot; dot] then false else
      (* /^[A-Za-z0-9._%-]+$/ *)
      if negb (forallb local_char localPart) then false else
      (* Domain validation *)
      if (List.length domain =? 0) || (255 <? List.length domain) then false else
      if startsWith domain [dot] || endsWith domain [dot] ||
         startsWith domain (js "-") || endsWith domain (js "-") then false else
      if includes domain [dot; dot] then false else
      if negb (includes domain [dot]) then false else
      let domainParts := split_char dot domain in
      if List.length domainParts <? 2 then false else
      if List.length (last domainParts []) <? 2 then false else
      (* Check for spaces *)
      if existsb isSpace email then false else
      if includes email (js "@.") || includes email (js ".@") then false else
      (* Filter out placeholder emails *)
      if existsb (fun invalidDomain =>
                    endsWith email invalidDomain && (List.length localPart <? 3))
                 invalidDomains
      then false else true
  | _ => false
  end.

(** [[A-Za-z0-9]] *)
Definition alnum (c : N) : bool := isAlpha c || isDigit c.
(** [[A-Za-z0-9.-]] *)
Definition domain_char (c : N) : bool := isAlpha c || isDigit c || one_of ".-" c.

(** /\b[A-Za-z0-9][A-Za-z0-9._%-]*@[A-Za-z0-9][A-Za-z0-9.-]*\.[A-Z|a-z]{2,}\b/g *)
Definition emailRegex1 : regex :=
  rseq [RWordB; RClass alnum; star (RClass local_char); RChar at_sign;
       RClass alnum; star (RClass domain_char); RChar dot;
       at_least 2 (RClass (fun c => isAlpha c || one_of "|" c)); RWordB].

(** [[A-Za-z0-9][A-Za-z0-9._%-]+@[A-Za-z0-9][A-Za-z0-9.-]+\.[A-Za-z]{2,}] *)
Definition email_body : regex :=
  rseq [RClass alnum; plus (RClass local_char); RChar at_sign;
       RClass alnum; plus (RClass domain_char); RChar dot;
       at_least 2 (RClass isAlpha)].

(** /(?:email|e-mail|mail|contact|id|e\.?mail)[\s:]*(...)/gi *)
Definition emailRegex2 : regex :=
  rseq [ralt [lit "email"; lit "e-mail"; lit "mail"; lit "contact"; lit "id";
            rseq [lit "e"; opt (RChar dot); lit "mail"]];
       star (RClass (fun c => isSpace c || one_of ":" c));
       RGroup 1 email_body].

(** /[\[\(](...)[\]\)]/g *)
Definition emailRegex3 : regex :=
  rseq [RClass (one_of "[("); RGroup 1 email_body; RClass (one_of "])")].

(** /([A-Za-z0-9._%-]+)\s*@\s*([A-Za-z0-9.-]+)\s*\.\s*([A-Za-z]{2,})/g *)
Definition emailRegex4 : regex :=
  rseq [RGroup 1 (plus (RClass local_char)); star s; RChar at_sign; star s;
       RGroup 2 (plus (RClass domain_char)); star s; RChar dot; star s;
       RGroup 3 (at_least 2 (RClass isAlpha))].

(** /\b(?:email|e-mail|mail|contact|reach|write)/i *)
Definition emailKeyword : regex :=
  rseq [RWordB; ralt [lit "email"; lit "e-mail"; lit "mail"; lit "contact";
                    lit "reach"; lit "write"]].

Section WithHost.
Context {H : Host}.

(** [emails.add(email)] guarded by [isValidEmail]. *)
Definition add_email (emails : list jsstring) (candidate : jsstring) : list jsstring :=
  let email := trim (toLowerCase candidate) in
  if isValidEmail email then set_add email emails else emails.

(** Strategy 5: a line with an email keyword triggers a scan of that line
    and of the next two. *)
Definition emailKeywordScan (lines : list jsstring) (emails : list jsstring)
  : list jsstring :=
  fold_left
    (fun emails i =>
       let line := toLowerCase (nth i lines []) in
       if test flag_i emailKeyword line then
         fold_left
           (fun emails j =>
              fold_left (fun emails m => add_email emails (matched m))
                (matchAll no_flags emailRegex1 (nth j lines [])) emails)
           (List.seq i (Nat.min (i + 3) (List.length lines) - i)) emails
       else emails)
    (List.seq 0 (List.length lines)) emails.


(** Strategy 6: the first 30 lines, joined again. *)
Definition emailHeaderScan (lines : list jsstring) (emails : list jsstring)
  : list jsstring :=
  let headerLines := join [10%N] (firstn 30 lines) in
  fold_left (fun emails m => add_email emails (matched m))
    (matchAll no_flags emailRegex1 headerLines) emails.

Definition extractEmailsFromText (text : jsstring) : list jsstring :=
  let emails : list jsstring := [] in
  let cleanedText := collapse isSpace text in
  (* Apply regex patterns *)
  let emails :=
    fold_left
      (fun emails pattern =>
         fold_left (fun emails m => add_email emails (group1_or_0 m))
           (matchAll (fst pattern) (snd pattern) cleanedText) emails)
      [(no_flags, emailRegex1); (flag_i, emailRegex2); (no_flags, emailRegex3)]
      emails in
  (* Handle spaced emails *)
  let emails :=
    fold_left
      (fun emails m =>
         match group m 1, group m 2, group m 3 with
         | Some g1, Some g2, Some g3 =>
             add_email emails (g1 ++ [at_sign] ++ g2 ++ [dot] ++ g3)
         | _, _, _ => emails
         end)
      (matchAll no_flags emailRegex4 cleanedText) emails in
  let lines := split_char 10 text in
  let emails := emailKeywordScan lines emails in
  emailHeaderScan lines emails.

(** *** Phones *)

Definition plus_sign : N := 43%N.

Definition fakeSequences : list jsstring :=
  map js ["1234567890"; "0123456789"; "9876543210"; "1111111111"; "0000000000"]%string.

(** /^[6-9]/ *)
Definition starts6to9 (s : jsstring) : bool :=
  match s with c :: _ => in_range 54 57 c | [] => false end.

(** /^(\d)\1+$/: a digit repeated at least twice. *)
Definition all_same_digit (s : jsstring) : bool :=
  match s with
  | c :: ((_ :: _) as tl) => isDigit c && forallb (N.eqb c) tl
  | _ => false
  end.

Definition isValidPhone (phone digits : jsstring) : bool :=
  (* Must start with + or digit: /^[+\d]/ *)
  if negb (match phone with c :: _ => N.eqb c plus_sign || isDigit c | [] => false end)
  then false else
  (* Can't have multiple + signs *)
  if 1 <? count_char plus_sign phone then false else
  (* Can't be all same digit *)
  if all_same_digit digits then false else
  (* Can't be obviously fake sequences *)
  if arr_includes fakeSequences digits then false else
  (* For 12-digit numbers starting with 91 (Indian with country code) *)
  if startsWith digits (js "91") && (List.length digits =? 12) &&
     negb (starts6to9 (skipn 2 digits)) then false else
  (* For 10-digit numbers (Indian mobile) *)
  if (List.length digits =? 10) && negb (starts6to9 digits) then false else
  (* For 11-digit numbers starting with 1 (US/Canada) *)
  if (List.length digits =? 11) && negb (startsWith digits (js "1")) then false else
  true.

Definition formatPhone (phone digits : jsstring) : jsstring :=
  if startsWith phone [plus_sign] then phone else
  if (List.length digits =? 10) && starts6to9 digits then js "+91" ++ digits else
  if (List.length digits =? 12) && startsWith digits (js "91") then plus_sign :: digits else
  if (List.length digits =? 11) && startsWith digits (js "1") then plus_sign :: digits else
  if (10 <? List.length digits) && (List.length digits <=? 15) then plus_sign :: digits else
  [].

Definition labels : list string :=
  ["phone"; "mobile"; "cell"; "tel"; "telephone"; "contact";
   "ph"; "mob"; "number"; "call"; "reach"]%string.

(** [new RegExp(`\\b${label}\\b`, 'gi')] *)
Definition label_regex (label : string) : regex :=
  rseq [RWordB; lit label; RWordB].

(** The steps of [cleanPhone] after the labels are removed. *)
Definition cleanDigits (cleaned : jsstring) : jsstring :=
  (* Remove all non-digit characters except +: /[^\d+]/g *)
  let cleaned := filter (fun c => isDigit c || N.eqb c plus_sign) cleaned in
  (* Replace leading 00 with + *)
  let cleaned := replace_leading_00 cleaned in
  (* Count digits: /\D/g *)
  let digits := filter isDigit cleaned in
  let digitCount := List.length digits in
  if (digitCount <? 10) || (15 <? digitCount) then [] else
  if negb (isValidPhone cleaned digits) then [] else
  formatPhone cleaned digits.

Definition cleanPhone (phone : jsstring) : jsstring :=
  let cleaned := toLowerCase phone in
  let cleaned :=
    fold_left (fun cleaned label => replace_g flag_i (label_regex label) [] cleaned)
      labels cleaned in
  cleanDigits cleaned.

(** [[\s.-]] *)
Definition sep (c : N) : bool := isSpace c || one_of ".-" c.
Definition d6to9 : regex := RClass (in_range 54 57).
Definition lpar : N := 40%N.
Definition rpar : N := 41%N.
(** [[+\d\s().-]] *)
Definition phone_char (c : N) : bool :=
  N.eqb c plus_sign || isDigit c || isSpace c || one_of "().-" c.

Definition phonePatterns : list (flags * regex) :=
  [ (* International with country code:
       /\+?\d{1,3}[\s.-]?\(?\d{2,4}\)?[\s.-]?\d{3,4}[\s.-]?\d{3,4}/g *)
    (no_flags,
     rseq [opt (RChar plus_sign); times 1 3 d; opt (RClass sep); opt (RChar lpar);
           times 2 4 d; opt (RChar rpar); opt (RClass sep); times 3 4 d;
           opt (RClass sep); times 3 4 d]);
    (* Indian format: /\+91[\s.-]?[6-9]\d{9}/g *)
    (no_flags,
     rseq [RChar plus_sign; lit "91"; opt (RClass sep); d6to9; times 9 9 d]);
    (* Indian format: /(?:^|[\s,;(])[6-9]\d{9}(?:[\s,;)]|$)/g *)
    (no_flags,
     rseq [RAlt RStart (RClass (fun c => isSpace c || one_of ",;(" c));
           d6to9; times 9 9 d;
           RAlt (RClass (fun c => isSpace c || one_of ",;)" c)) REnd]);
    (* US format: /\(\d{3}\)[\s.-]?\d{3}[\s.-]?\d{4}/g *)
    (no_flags,
     rseq [RChar lpar; times 3 3 d; RChar rpar; opt (RClass sep); times 3 3 d;
           opt (RClass sep); times 4 4 d]);
    (* Standard: /\d{3}[\s.-]\d{3}[\s.-]\d{4}/g *)
    (no_flags,
     rseq [times 3 3 d; RClass sep; times 3 3 d; RClass sep; times 4 4 d]);
    (* With label:
       /(?:phone|mobile|cell|tel|telephone|contact|ph|mob)[\s:]*([+\d\s().-]{10,20})/gi *)
    (flag_i,
     rseq [ralt [lit "phone"; lit "mobile"; lit "cell"; lit "tel"; lit "telephone";
                 lit "contact"; lit "ph"; lit "mob"];
           star (RClass (fun c => isSpace c || one_of ":" c));
           RGroup 1 (times 10 20 (RClass phone_char))]);
    (* With spaces: /\+\d{1,3}[\s]?\d{5}[\s]?\d{5}/g *)
    (no_flags,
     rseq [RChar plus_sign; times 1 3 d; opt s; times 5 5 d; opt s; times 5 5 d]);
    (* Full format: /\+\d{1,3}[\s]?\(\d{3}\)[\s]?\d{3}[\s.-]?\d{4}/g *)
    (no_flags,
     rseq [RChar plus_sign; times 1 3 d; opt s; RChar lpar; times 3 3 d; RChar rpar;
           opt s; times 3 3 d; opt (RClass sep); times 4 4 d]);
    (* Compact 10-digit: /\b\d{10}\b/g *)
    (no_flags, rseq [RWordB; times 10 10 d; RWordB]) ].

(** /\b(?:phone|mobile|cell|tel|contact|number|call|reach)\b/i *)
Definition phoneKeyword : regex :=
  rseq [RWordB;
        ralt [lit "phone"; lit "mobile"; lit "cell"; lit "tel"; lit "contact";
              lit "number"; lit "call"; lit "reach"];
        RWordB].

(** [const cleaned = cleanPhone(c); if (cleaned) phones.add(cleaned)] *)
Definition add_phone (phones : list jsstring) (candidate : jsstring) : list jsstring :=
  match cleanPhone candidate with
  | [] => phones
  | cleaned => set_add cleaned phones
  end.

(** The candidates of the pattern scan, in the order the loops visit them. *)
Definition patternCandidates (text : jsstring) : list jsstring :=
  let cleanedText := collapse isSpace text in
  flat_map
    (fun pattern =>
       map (fun m => trim (group1_or_0 m))
         (matchAll (fst pattern) (snd pattern) cleanedText))
    phonePatterns.

(** Look for phones near keywords: the digit sequences
    ([/[+\d\s().-]{10,20}/g]) of a keyword line and of the next two. *)
Definition keywordCandidates (lines : list jsstring) : list jsstring :=
  flat_map
    (fun i =>
       let line := toLowerCase (nth i lines []) in
       if test flag_i phoneKeyword line then
         flat_map
           (fun j =>
              match match_g no_flags (times 10 20 (RClass phone_char)) (nth j lines []) with
              | Some digitMatches => digitMatches
              | None => []
              end)
           (List.seq i (Nat.min (i + 3) (List.length lines) - i))
       else [])
    (List.seq 0 (List.length lines)).

(** Look in header (first 30 lines): [/\b\d{10}\b/g] on each line. *)
Definition headerCandidates (lines : list jsstring) : list jsstring :=
  flat_map
    (fun line =>
       match match_g no_flags (rseq [RWordB; times 10 10 d; RWordB]) line with
       | Some potentialPhones => potentialPhones
       | None => []
       end)
    (firstn 30 lines).

Definition extractPhonesFromText (text : jsstring) : list jsstring :=
  let lines := split_char 10 text in
  fold_left add_phone
    (patternCandidates text ++ keywordCandidates lines ++ headerCandidates lines)
    [].

(** *** Main export function *)

Record ContactInfo := { email : jsstring; phone : jsstring }.

(** [text.replace(/\s+/g, ' ').replace(/[^\S\r\n]+/g, ' ').trim()] *)
Definition cleanText (text : jsstring) : jsstring :=
  trim
    (collapse (fun c => isSpace c && negb (N.eqb c 13 || N.eqb c 10))
       (collapse isSpace text)).

Definition extractContactInfo (text : jsstring) : ContactInfo :=
  let cleanText := cleanText text in
  let emails := extractEmailsFromText cleanText in
  let phones := extractPhonesFromText cleanText in
  {| email := hd [] emails; phone := hd [] phones |}.

End WithHost.
End ContactExtractor.

(* ================================================================== *)
(** ** The document parser (parseDocument and its local extractors) *)
(* ================================================================== *)

Module DocumentParser.

(** *** Phones *)

Definition plus_sign : N := 43%N.

Definition starts6to9 (s : jsstring) : bool :=
  match s with c :: _ => in_range 54 57 c | [] => false end.

Definition all_same_digit (s : jsstring) : bool :=
  match s with
  | c :: ((_ :: _) as tl) => isDigit c && forallb (N.eqb c) tl
  | _ => false
  end.

(** /^(?:0123456789|1234567890|9876543210)$/ *)
Definition sequential : list jsstring :=
  map js ["0123456789"; "1234567890"; "9876543210"]%string.

Definition isValidPhone (phone digits : jsstring) : bool :=
  (* Must start with + or digit *)
  if negb (match phone with c :: _ => N.eqb c plus_sign || isDigit c | [] => false end)
  then false else
  (* Can't have multiple + signs *)
  if 1 <? count_char plus_sign phone then false else
  (* Can't be all same digit (e.g., 1111111111) *)
  if all_same_digit digits then false else
  (* Can't be sequential (e.g., 1234567890) *)
  if arr_includes sequential digits then false else
  (* For Indian numbers starting with 91 *)
  if startsWith digits (js "91") && (List.length digits =? 12) &&
     negb (starts6to9 (skipn 2 digits)) then false else
  (* For 10-digit numbers (Indian mobile) *)
  if (List.length digits =? 10) && negb (starts6to9 digits) then false else
  true.

Definition formatPhone (phone digits : jsstring) : jsstring :=
  if startsWith phone [plus_sign] then phone else
  if (List.length digits =? 10) && starts6to9 digits then js "+91" ++ digits else
  if (List.length digits =? 12) && startsWith digits (js "91") then plus_sign :: digits else
  if (List.length digits =? 11) && startsWith digits (js "1") then plus_sign :: digits else
  if (10 <? List.length digits) && (List.length digits <=? 15) then plus_sign :: digits else
  [].

Definition labels : list string :=
  ["phone"; "mobile"; "cell"; "tel"; "telephone"; "contact"; "ph"; "mob"; "number"]%string.

(** The steps of [cleanPhone] after the labels are removed. *)
Definition cleanDigits (cleaned : jsstring) : jsstring :=
  (* Remove all non-digit characters except + and (): /[^\d+()]/g *)
  let cleaned :=
    filter (fun c => isDigit c || N.eqb c plus_sign || one_of "()" c) cleaned in
  (* Remove parentheses but keep their content: /[()]/g *)
  let cleaned := filter (fun c => negb (one_of "()" c)) cleaned in
  (* Replace leading 00 with + *)
  let cleaned := replace_leading_00 cleaned in
  (* Count digits only *)
  let digits := filter isDigit cleaned in
  let digitCount := List.length digits in
  if (digitCount <? 10) || (15 <? digitCount) then [] else
  if negb (isValidPhone cleaned digits) then [] else
  formatPhone cleaned digits.

(** [[\s.-]] *)
Definition sep (c : N) : bool := isSpace c || one_of ".-" c.
Definition d6to9 : regex := RClass (in_range 54 57).
Definition lpar : N := 40%N.
Definition rpar : N := 41%N.
(** [[+\d\s().-]] *)
Definition phone_char (c : N) : bool :=
  N.eqb c plus_sign || isDigit c || isSpace c || one_of "().-" c.

Definition phonePatterns : list (flags * regex) :=
  [ (* /\+?\d{1,3}[\s.-]?\(?\d{2,4}\)?[\s.-]?\d{3,4}[\s.-]?\d{3,4}/g *)
    (no_flags,
     rseq [opt (RChar plus_sign); times 1 3 d; opt (RClass sep); opt (RChar lpar);
           times 2 4 d; opt (RChar rpar); opt (RClass sep); times 3 4 d;
           opt (RClass sep); times 3 4 d]);
    (* /\+91[\s.-]?[6-9]\d{9}/g *)
    (no_flags,
     rseq [RChar plus_sign; lit "91"; opt (RClass sep); d6to9; times 9 9 d]);
    (* /(?:^|[\s,;(])[6-9]\d{9}(?:[\s,;)]|$)/g *)
    (no_flags,
     rseq [RAlt RStart (RClass (fun c => isSpace c || one_of ",;(" c));
           d6to9; times 9 9 d;
           RAlt (RClass (fun c => isSpace c || one_of ",;)" c)) REnd]);
    (* /\(\d{3}\)[\s.-]?\d{3}[\s.-]?\d{4}/g *)
    (no_flags,
     rseq [RChar lpar; times 3 3 d; RChar rpar; opt (RClass sep); times 3 3 d;
           opt (RClass sep); times 4 4 d]);
    (* /\d{3}[\s.-]\d{3}[\s.-]\d{4}/g *)
    (no_flags,
     rseq [times 3 3 d; RClass sep; times 3 3 d; RClass sep; times 4 4 d]);
    (* /(?:phone|mobile|cell|tel|telephone|contact|ph|mob)[\s:]*([+\d\s().-]{10,20})/gi *)
    (flag_i,
     rseq [ralt [lit "phone"; lit "mobile"; lit "cell"; lit "tel"; lit "telephone";
                 lit "contact"; lit "ph"; lit "mob"];
           star (RClass (fun c => isSpace c || one_of ":" c));
           RGroup 1 (times 10 20 (RClass phone_char))]);
    (* /\+\d{1,3}[\s]?\d{5}[\s]?\d{5}/g *)
    (no_flags,
     rseq [RChar plus_sign; times 1 3 d; opt s; times 5 5 d; opt s; times 5 5 d]);
    (* /\+\d{1,3}[\s]?\(\d{3}\)[\s]?\d{3}[\s.-]?\d{4}/g *)
    (no_flags,
     rseq [RChar plus_sign; times 1 3 d; opt s; RChar lpar; times 3 3 d; RChar rpar;
           opt s; times 3 3 d; opt (RClass sep); times 4 4 d]) ].

(** /phone|mobile|cell|tel|contact|number/i *)
Definition phoneKeyword : regex :=
  ralt [lit "phone"; lit "mobile"; lit "cell"; lit "tel"; lit "contact"; lit "number"].

Section WithHost.
Context {H : Host}.

Definition cleanPhone (phone : jsstring) : jsstring :=
  let cleaned := toLowerCase phone in
  let cleaned :=
    (* new RegExp(label, 'gi') *)
    fold_left (fun cleaned label => replace_g flag_i (lit label) [] cleaned)
      labels cleaned in
  cleanDigits cleaned.

Definition add_phone (phones : list jsstring) (candidate : jsstring) : list jsstring :=
  match cleanPhone candidate with
  | [] => phones
  | cleaned => set_add cleaned phones
  end.

Definition patternCandidates (text : jsstring) : list jsstring :=
  let cleanedText := collapse isSpace text in
  flat_map
    (fun pattern =>
       map (fun m => trim (group1_or_0 m))
         (matchAll (fst pattern) (snd pattern) cleanedText))
    phonePatterns.

(** Any digit sequence ([/[+\d\s().-]+/g]) of a keyword line and of the
    next two. *)
Definition keywordCandidates (lines : list jsstring) : list jsstring :=
  flat_map
    (fun i =>
       let line := toLowerCase (nth i lines []) in
       if test flag_i phoneKeyword line then
         flat_map
           (fun j =>
              match match_g no_flags (plus (RClass phone_char)) (nth j lines []) with
              | Some digitSequence => digitSequence
              | None => []
              end)
           (List.seq i (Nat.min (i + 3) (List.length lines) - i))
       else [])
    (List.seq 0 (List.length lines)).

Definition extractPhones (text : jsstring) : list jsstring :=
  let lines := split_char 10 text in
  fold_left add_phone (patternCandidates text ++ keywordCandidates lines) [].


(** *** Skills *)

(** Extended comprehensive skills list *)
Definition skillKeywords : list jsstring :=
  map js
  [ (* Programming Languages *)
    "Python"; "Java"; "JavaScript"; "TypeScript"; "C++"; "C#"; "PHP"; "Ruby"; "Go"; "Rust";
    "Swift"; "Kotlin"; "Scala"; "R"; "MATLAB"; "Perl"; "Objective-C"; "Dart"; "Elixir";
    (* Frontend *)
    "React"; "Angular"; "Vue"; "Vue.js"; "Svelte"; "Next.js"; "Nuxt.js"; "Gatsby";
    "HTML"; "HTML5"; "CSS"; "CSS3"; "SASS"; "SCSS"; "LESS"; "Tailwind CSS"; "Bootstrap";
    "Material UI"; "Chakra UI"; "Ant Design"; "jQuery"; "Webpack"; "Vite"; "Babel";
    "Redux"; "MobX"; "Zustand"; "Recoil"; "Context API";
    (* Backend *)
    "Node.js"; "Express"; "Express.js"; "Django"; "Flask"; "FastAPI"; "Spring"; "Spring Boot";
    ".NET"; ".NET Core"; "ASP.NET"; "Laravel"; "Symfony"; "Ruby on Rails"; "Sinatra";
    "NestJS"; "Koa"; "Hapi"; "Fastify";
    (* Databases *)
    "SQL"; "MySQL"; "PostgreSQL"; "MongoDB"; "Redis"; "Cassandra"; "Oracle"; "SQL Server";
    "MariaDB"; "SQLite"; "DynamoDB"; "Elasticsearch"; "Neo4j"; "CouchDB"; "Firebase";
    "Supabase"; "PlanetScale"; "Fauna"; "NoSQL";
    (* Cloud & DevOps *)
    "AWS"; "Azure"; "GCP"; "Google Cloud"; "Docker"; "Kubernetes"; "Jenkins"; "GitLab CI";
    "GitHub Actions"; "CircleCI"; "Travis CI"; "Terraform"; "Ansible"; "Chef"; "Puppet";
    "CloudFormation"; "CI/CD"; "DevOps"; "Linux"; "Unix"; "Bash";
    (* AWS Services *)
    "Lambda"; "S3"; "EC2"; "ECS"; "EKS"; "RDS"; "DynamoDB"; "CloudFront"; "Route 53";
    "API Gateway"; "SQS"; "SNS"; "CloudWatch"; "IAM"; "VPC"; "Elastic Beanstalk";
    (* Data Science & ML *)
    "Machine Learning"; "Deep Learning"; "AI"; "Artificial Intelligence"; "Data Science";
    "TensorFlow"; "PyTorch"; "Keras"; "Scikit-learn"; "Pandas"; "NumPy"; "SciPy";
    "Matplotlib"; "Seaborn"; "NLP"; "Computer Vision"; "OpenCV"; "NLTK"; "spaCy";
    (* Testing *)
    "Jest"; "Mocha"; "Chai"; "Jasmine"; "Cypress"; "Selenium"; "Playwright"; "Puppeteer";
    "JUnit"; "pytest"; "unittest"; "TestNG"; "Karma"; "Enzyme";
    (* Mobile *)
    "React Native"; "Flutter"; "iOS"; "Android"; "Swift"; "Kotlin"; "Xamarin"; "Ionic";
    (* Version Control & Collaboration *)
    "Git"; "GitHub"; "GitLab"; "Bitbucket"; "SVN"; "Mercurial"; "Jira"; "Confluence";
    "Trello"; "Asana"; "Slack";
    (* APIs & Protocols *)
    "REST"; "REST API"; "RESTful"; "GraphQL"; "gRPC"; "SOAP"; "WebSocket"; "Socket.io";
    "JSON"; "XML"; "Microservices"; "API Design";
    (* Design & UI/UX *)
    "UI/UX"; "Figma"; "Sketch"; "Adobe XD"; "Photoshop"; "Illustrator"; "InVision";
    "Zeplin"; "Responsive Design"; "Web Design";
    (* Methodologies *)
    "Agile"; "Scrum"; "Kanban"; "Waterfall"; "TDD"; "BDD"; "DDD"; "SOLID";
    (* Other *)
    "Blockchain"; "Web3"; "Solidity"; "Smart Contracts"; "Ethereum"; "Big Data";
    "Hadoop"; "Spark"; "Kafka"; "RabbitMQ"; "Nginx"; "Apache"; "OAuth"; "JWT";
    "GDPR"; "Security"; "Penetration Testing"; "Cryptography" ]%string.

(** [new RegExp(`\\b${escaped}\\b`, 'i')], where [escaped] is the skill with
    every regex metacharacter escaped: the skill as a literal word. *)
Definition skill_regex (skill : jsstring) : regex :=
  rseq [RWordB; lit_js skill; RWordB].

(** [[A-Za-z0-9\.\+\/#\s-]] *)
Definition phrase_char (c : N) : bool :=
  isAlpha c || isDigit c || one_of ".+/#-" c || isSpace c.

(** [lead\s+([A-Za-z0-9\.\+\/#\s-]+?)(?:\s+(?:and|,|\.|;|for|to|...))] *)
Definition statement (lead : list regex) (stops : list regex) : regex :=
  rseq (lead ++ [plus s; RGroup 1 (plus_lazy (RClass phrase_char));
                 rseq [plus s; ralt stops]]).

Definition stops : list regex :=
  [lit "and"; lit ","; lit "."; lit ";"; lit "for"; lit "to"].

Definition in_or_with : regex := RAlt (lit "in") (lit "with").

(** All of them carry the flags [gi]. *)
Definition experiencePatterns : list regex :=
  [ statement [lit "experience"; plus s; in_or_with]
      (stops ++ [rseq [lit "in"; plus s; lit "order"]]);
    statement [lit "knowledge"; plus s; lit "of"] stops;
    statement [lit "proficient"; plus s; in_or_with] stops;
    statement [lit "skilled"; plus s; in_or_with] stops;
    statement [lit "expertise"; plus s; in_or_with] stops;
    statement [lit "familiar"; plus s; RAlt (lit "with") (lit "in")] stops;
    statement [lit "understanding"; plus s; lit "of"] stops;
    statement [lit "using"] (stops ++ [lit "in"]);
    statement [lit "worked"; plus s; lit "with"] stops ].

(** /\s+(?:and|or)\s+|,\s*/ *)
Definition skill_separator : regex :=
  RAlt (rseq [plus s; RAlt (lit "and") (lit "or"); plus s])
       (rseq [RChar (ch ","); star s]).

Definition bullet_char (c : N) : bool := N.eqb c 8226 || one_of "-*" c.

(** /[•\-\*]\s*([^\n•\-\*]+)/g *)
Definition bulletRegex : regex :=
  rseq [RClass bullet_char; star s;
        RGroup 1 (plus (RNotClass (fun c => N.eqb c 10 || bullet_char c)))].

(** Method 1: direct keyword matching. *)
Definition directSkills (text : jsstring) (foundSkills : list jsstring)
  : list jsstring :=
  fold_left
    (fun foundSkills skill =>
       if test flag_i (skill_regex skill) text
       then set_add skill foundSkills else foundSkills)
    skillKeywords foundSkills.

(** The known skills a phrase matches: containment in either direction. *)
Definition addKnown (skill : jsstring) (foundSkills : list jsstring) : list jsstring :=
  fold_left
    (fun foundSkills knownSkill =>
       if includes (toLowerCase skill) (toLowerCase knownSkill) ||
          includes (toLowerCase knownSkill) (toLowerCase skill)
       then set_add knownSkill foundSkills else foundSkills)
    skillKeywords foundSkills.

(** Method 2: pattern-based extraction for experience/knowledge statements. *)
Definition statementSkills (text : jsstring) (foundSkills : list jsstring)
  : list jsstring :=
  fold_left
    (fun foundSkills pattern =>
       fold_left
         (fun foundSkills m =>
            match group m 1 with
            | Some ((_ :: _) as g1) =>
                let potentialSkills :=
                  filter (fun s => (2 <? List.length s) && (List.length s <? 30))
                    (map trim (split_re no_flags skill_separator g1)) in
                fold_left (fun foundSkills skill => addKnown skill foundSkills)
                  potentialSkills foundSkills
            | _ => foundSkills
            end)
         (matchAll flag_i pattern text) foundSkills)
    experiencePatterns foundSkills.

(** Method 3: extract from bullet points. *)
Definition bulletSkills (text : jsstring) (foundSkills : list jsstring)
  : list jsstring :=
  fold_left
    (fun foundSkills bullet =>
       let bulletText := toLowerCase (or_else (group bullet 1) []) in
       fold_left
         (fun foundSkills skill =>
            if includes bulletText (toLowerCase skill)
            then set_add skill foundSkills else foundSkills)
         skillKeywords foundSkills)
    (matchAll no_flags bulletRegex text) foundSkills.

Definition extractSkillsFromText (text : jsstring) (isJobDescription aggressive : bool)
  : list jsstring :=
  let foundSkills := directSkills text [] in
  if aggressive
  then bulletSkills text (statementSkills text foundSkills)
  else foundSkills.

End WithHost.
End DocumentParser.

(* ================================================================== *)
(** ** JavaScript numbers *)
(* ================================================================== *)

(** Integers in the program (counts, years, months) stay far below [2^53]
    and are exact; they are modelled in [Z].  A quotient is not exact: it is
    the IEEE-754 binary64 number nearest to the rational quotient (ties to
    even), modelled as a dyadic rational with a 53-bit significand. *)
Module JSNumber.

Local Open Scope Z_scope.

(** The number [mant * 2^expo]. *)
Record dyadic := Dyadic { mant : Z; expo : Z }.

(** Nearest integer to [a / b], ties to even ([0 < b]). *)
Definition rne (a b : Z) : Z :=
  let q := a / b in
  let r := a mod b in
  if 2 * r <? b then q
  else if b <? 2 * r then q + 1
  else if Z.even q then q else q + 1.

(** The rational [a / b] scaled by [2^(-e)], as a fraction. *)
Definition scaled (a b e : Z) : Z * Z :=
  if 0 <=? e then (a, b * 2 ^ e) else (a * 2 ^ (- e), b).

(** The binary64 number nearest to [a / b], for [0 <= a], [0 < b] and a
    quotient in the range of the normal numbers: the exponent [e] is the
    one that brings the quotient into [2^52, 2^53). *)
Definition round53 (a b : Z) : dyadic :=
  if a <=? 0 then Dyadic 0 0 else
  let e0 := Z.log2 a - Z.log2 b - 52 in
  let '(n0, d0) := scaled a b e0 in
  let e := if n0 <? 2 ^ 52 * d0 then e0 - 1 else e0 in
  let '(n, d) := scaled a b e in
  Dyadic (rne n d) e.

(** [m / n] on two non-negative integers *)
Definition div (m n : Z) : dyadic := round53 m n.

(** [x * k] for a non-negative integer [k] *)
Definition mul (x : dyadic) (k : Z) : dyadic :=
  if 0 <=? expo x then round53 (mant x * k * 2 ^ expo x) 1
  else round53 (mant x * k) (2 ^ (- expo x)).

(** [Math.round(x)]: the integer nearest to [x], ties towards [+∞]. *)
Definition Math_round (x : dyadic) : Z :=
  if 0 <=? expo x then mant x * 2 ^ expo x
  else (2 * mant x + 2 ^ (- expo x)) / 2 ^ (- expo x + 1).

End JSNumber.

(* ================================================================== *)
(** ** Dates *)
(* ================================================================== *)

(** A [Date] is its time value, in milliseconds; local time is taken at a
    fixed offset from UTC (no daylight-saving transitions), so that the
    local calendar fields of a time value are those of the proleptic
    Gregorian calendar. *)
Module JSDate.

Local Open Scope Z_scope.

Definition msPerDay : Z := 86400000.

(** Day number of a civil date ([1 <= m <= 12]), day 0 being 1970-01-01. *)
Definition days_from_civil (y m d : Z) : Z :=
  let y' := if m <=? 2 then y - 1 else y in
  let era := y' / 400 in
  let yoe := y' - era * 400 in
  let mp := (m + 9) mod 12 in
  let doy := (153 * mp + 2) / 5 + d - 1 in
  let doe := yoe * 365 + yoe / 4 - yoe / 100 + doy in
  era * 146097 + doe - 719468.

(** Civil date (year, month 1..12, day) of a day number. *)
Definition civil_from_days (z : Z) : Z * Z * Z :=
  let z := z + 719468 in
  let era := z / 146097 in
  let doe := z - era * 146097 in
  let yoe := (doe - doe / 1460 + doe / 36524 - doe / 146096) / 365 in
  let y := yoe + era * 400 in
  let doy := doe - (365 * yoe + yoe / 4 - yoe / 100) in
  let mp := (5 * doy + 2) / 153 in
  let d := doy - (153 * mp + 2) / 5 + 1 in
  let m := if mp <? 10 then mp + 3 else mp - 9 in
  (if m <=? 2 then y + 1 else y, m, d).

(** [new Date(year, monthIndex, day)]: a year from 0 to 99 means 1900 + year,
    a month index outside 0..11 carries into the year, and a time value
    beyond 8.64e15 ms is an invalid date.  [None] is NaN / Invalid Date. *)
Definition Date_ymd (year monthIndex : option Z) (day : Z) : option Z :=
  match year, monthIndex with
  | Some y, Some m =>
      let yr := if (0 <=? y) && (y <=? 99) then 1900 + y else y in
      let ym := yr + m / 12 in
      let mn := m mod 12 in
      let t := (days_from_civil ym (mn + 1) 1 + day - 1) * msPerDay in
      if Z.abs t <=? 8640000000000000 then Some t else None
  | _, _ => None
  end.

Definition getFullYear (t : Z) : Z :=
  let '(y, _, _) := civil_from_days (t / msPerDay) in y.

(** The month index, 0..11. *)
Definition getMonth (t : Z) : Z :=
  let '(_, m, _) := civil_from_days (t / msPerDay) in m - 1.

End JSDate.

(** [parseInt(s)]: leading white space, a sign, an optional [0x] prefix,
    then the longest run of digits; the integer they denote, converted to a
    Number. *)
Module ParseInt.

Local Open Scope Z_scope.

Definition digit_val (radix : Z) (c : N) : option Z :=
  let v :=
    if isDigit c then Some (Z.of_N c - 48)
    else if isLower c then Some (Z.of_N c - 87)
    else if isUpper c then Some (Z.of_N c - 55)
    else None in
  match v with
  | Some d => if d <? radix then Some d else None
  | None => None
  end.

Fixpoint parse_digits (radix : Z) (s : jsstring) (acc : option Z) : option Z :=
  match s with
  | [] => acc
  | c :: s' =>
      match digit_val radix c with
      | Some d =>
          parse_digits radix s'
            (Some (radix * match acc with Some a => a | None => 0 end + d))
      | None => acc
      end
  end.

(** The mathematical integer that the string denotes, before it is
    converted to a Number; [None] when there is no digit. *)
Definition parse_integer (s : jsstring) : option Z :=
  let s := trimStart s in
  let '(sign, s) :=
    match s with
    | 45%N :: r => (-1, r)
    | 43%N :: r => (1, r)
    | _ => (1, s)
    end in
  let '(radix, s) :=
    match s with
    | 48%N :: 120%N :: r => (16, r)
    | 48%N :: 88%N :: r => (16, r)
    | _ => (10, s)
    end in
  option_map (Z.mul sign) (parse_digits radix s None).

(** The Numbers that [parseInt] returns: NaN, an integer that is a binary64
    number, or an infinity.  (The zero of [Finite 0] stands for both zeros:
    the program only tests them for truth and compares them.) *)
Inductive number :=
| NaN
| Finite (z : Z)
| Infinity (negative : bool).

(** The Number value of an integer: the integer itself below [2^53], else
    the nearest binary64 number (53-bit significand, ties to even), and an
    infinity when that reaches [2^1024]. *)
Definition Number_of_Z (z : Z) : number :=
  let a := Z.abs z in
  if a <? 2 ^ 53 then Finite z else
  let e := Z.log2 a - 52 in
  let m := JSNumber.rne a (2 ^ e) in
  if 2 ^ 1024 <=? m * 2 ^ e then Infinity (z <? 0)
  else Finite (Z.sgn z * (m * 2 ^ e)).

(** [parseInt(s)], every digit taken into account. *)
Definition parseInt (s : jsstring) : number :=
  match parse_integer s with
  | Some z => Number_of_Z z
  | None => NaN
  end.

(** A Number as a field of [new Date(year, monthIndex, day)]: NaN or an
    infinity makes the date invalid, which [None] stands for. *)
Definition finite (x : number) : option Z :=
  match x with
  | Finite z => Some z
  | NaN | Infinity _ => None
  end.

End ParseInt.

Import ParseInt.

(* ================================================================== *)
(** ** utils/geminiParser.ts: the experience estimator *)
(* ================================================================== *)

Module GeminiParser.

Import JSDate.
Local Open Scope Z_scope.

(** [[-–—]] *)
Definition dash (c : N) : bool := N.eqb c 45 || N.eqb c 8211 || N.eqb c 8212.

Definition open_ended : list regex := [lit "present"; lit "current"; lit "now"].

(** /\b(20\d{2})\s*[-–—]\s*(20\d{2}|present|current|now)\b/i *)
Definition yearRange : regex :=
  rseq [RWordB; RGroup 1 (rseq [lit "20"; times 2 2 d]);
        star s; RClass dash; star s;
        RGroup 2 (ralt (rseq [lit "20"; times 2 2 d] :: open_ended)); RWordB].

Definition month_names : list regex :=
  map lit ["january"; "february"; "march"; "april"; "may"; "june"; "july";
           "august"; "september"; "october"; "november"; "december"]%string.

Definition month_abbrevs : list regex :=
  map lit ["jan"; "feb"; "mar"; "apr"; "may"; "jun"; "jul"; "aug"; "sep";
           "oct"; "nov"; "dec"]%string.

(** [(\d{1,2}\/\d{4})] as group [i] *)
Definition month_year (i : nat) : regex :=
  RGroup i (rseq [times 1 2 d; RChar (ch "/"); times 4 4 d]).

(** [(names)\s+\d{4}\s*[-–—]\s*(names)\s+\d{4}|present|current|now]: the
    alternation is at the top level of the pattern, and the groups hold
    the month names only. *)
Definition named_range (names : list regex) : regex :=
  ralt (rseq [RGroup 1 (ralt names); plus s; times 4 4 d;
              star s; RClass dash; star s;
              RGroup 2 (ralt names); plus s; times 4 4 d]
        :: open_ended).

(** All of them carry the flags [gi]. *)
Definition datePatterns : list regex :=
  [ (* /(\d{1,2}\/\d{4})\s*[-–—]\s*(\d{1,2}\/\d{4}|present|current|now)/gi *)
    rseq [month_year 1; star s; RClass dash; star s;
          RGroup 2 (ralt (rseq [times 1 2 d; RChar (ch "/"); times 4 4 d]
                          :: open_ended))];
    (* /(\d{4})\s*[-–—]\s*(\d{4}|present|current|now)/gi *)
    rseq [RGroup 1 (times 4 4 d); star s; RClass dash; star s;
          RGroup 2 (ralt (times 4 4 d :: open_ended))];
    named_range month_names;
    named_range month_abbrevs ].

Record WorkPeriod := { start : Z; end_ : Z }.

(** /^\d{4}$/ *)
Definition four_digits (s : jsstring) : bool :=
  (List.length s =? 4)%nat && forallb isDigit s.

Definition is_open_ended (s : jsstring) : bool :=
  str_eqb s (js "present") || str_eqb s (js "current") || str_eqb s (js "now").

Definition slash : N := 47%N.

(** [const [month, year] = str.split('/')] *)
Definition month_and_year (str : jsstring) : option Z * option Z :=
  let parts := split_char slash str in
  (finite (parseInt (nth 0 parts [])), finite (parseInt (nth 1 parts []))).

(** Total years of a month count: [Math.round(totalMonths / 12)]. *)
Definition yearsOfMonths (totalMonths : Z) : Z :=
  JSNumber.Math_round (JSNumber.div totalMonths 12).

Definition monthsOf (period : WorkPeriod) : Z :=
  (getFullYear (end_ period) - getFullYear (start period)) * 12 +
  (getMonth (end_ period) - getMonth (start period)) + 1.

(** [30 * 24 * 60 * 60 * 1000]: approximate month in milliseconds *)
Definition oneMonth : Z := 30 * 24 * 60 * 60 * 1000.

(** [workPeriods.sort((a, b) => a.start.getTime() - b.start.getTime())]:
    the sort is stable. *)
Fixpoint insert_period (p : WorkPeriod) (l : list WorkPeriod) : list WorkPeriod :=
  match l with
  | [] => [p]
  | q :: l' => if start p <=? start q then p :: l else q :: insert_period p l'
  end.

Definition sort_periods (l : list WorkPeriod) : list WorkPeriod :=
  fold_right insert_period [] l.

(** The merge loop: [currentPeriod] absorbs the next period when it starts
    at most [oneMonth] after the end of [currentPeriod]. *)
Fixpoint merge_periods (currentPeriod : WorkPeriod) (rest : list WorkPeriod)
  : list WorkPeriod :=
  match rest with
  | [] => [currentPeriod]
  | nextPeriod :: rest' =>
      let timeDiff := start nextPeriod - end_ currentPeriod in
      if timeDiff <=? oneMonth
      then merge_periods
             {| start := start currentPeriod;
                end_ := Z.max (end_ currentPeriod) (end_ nextPeriod) |} rest'
      else currentPeriod :: merge_periods nextPeriod rest'
  end.

(** The part of [calculateExperienceFromWorkHistory] after the scan. *)
Definition totalExperience (workPeriods : list WorkPeriod) : jsstring :=
  match sort_periods workPeriods with
  | [] => []
  | first :: rest =>
      let mergedPeriods := merge_periods first rest in
      let totalMonths := fold_left (fun total p => total + monthsOf p) mergedPeriods 0 in
      let totalYears := yearsOfMonths totalMonths in
      if 0 <? totalYears then toString totalYears else []
  end.

Section WithHost.
Context {H : Host}.

(** Parse start date *)
Definition startDateOf (startStr : jsstring) : option Z :=
  if includes startStr [slash] then
    let '(month, year) := month_and_year startStr in
    Date_ymd year (option_map (fun m => m - 1) month) 1
  else if four_digits startStr then Date_ymd (finite (parseInt startStr)) (Some 0) 1
  else Date_parse startStr.

(** Parse end date; [now] is [new Date()]. *)
Definition endDateOf (now : Z) (endStr : jsstring) : option Z :=
  if is_open_ended endStr then Some now
  else if includes endStr [slash] then
    let '(month, year) := month_and_year endStr in
    Date_ymd year (option_map (fun m => m - 1) month) 1
  else if four_digits endStr then Date_ymd (finite (parseInt endStr)) (Some 11) 31
  else Date_parse endStr.

(** Validate dates: both valid ([None] is an invalid date) and in order. *)
Definition validPeriod (startDate endDate : option Z) : option WorkPeriod :=
  match startDate, endDate with
  | Some s, Some e => if s <=? e then Some {| start := s; end_ := e |} else None
  | _, _ => None
  end.

(** The body of the [try] block for one match: the period to push, or
    [None] when nothing is pushed (an exception was thrown on an undefined
    group, or the dates are not valid). *)
Definition parsePeriod (now : Z) (m : rmatch_result) : option WorkPeriod :=
  match group m 1, group m 2 with
  | Some g1, Some g2 =>
      let startStr := trim g1 in
      let endStr := toLowerCase (trim g2) in
      validPeriod (startDateOf startStr) (endDateOf now endStr)
  | _, _ => None
  end.

(** The work periods pushed by the scan, in the order of the loops. *)
Definition workPeriodsOf (now : Z) (text : jsstring) : list WorkPeriod :=
  flat_map
    (fun pattern =>
       flat_map
         (fun m => match parsePeriod now m with Some p => [p] | None => [] end)
         (matchAll flag_i pattern text))
    datePatterns.

Definition calculateExperienceFromWorkHistory (now : Z) (text : jsstring) : jsstring :=
  totalExperience (workPeriodsOf now text).

(** [s.match(/present|current|now/)] *)
Definition mentions_open_ended (s : jsstring) : bool :=
  test no_flags (ralt open_ended) s.

(** [String(endYear - startYear)]; the difference of two finite years is
    exact. *)
Definition string_of_diff (endYear startYear : number) : jsstring :=
  match endYear, startYear with
  | Finite e, Finite s => toString (e - s)
  | NaN, _ | _, NaN => js "NaN"
  | Infinity n, Finite _ => if n then js "-Infinity" else js "Infinity"
  | Finite _, Infinity n => if n then js "Infinity" else js "-Infinity"
  | Infinity n, Infinity m =>
      if Bool.eqb n m then js "NaN"
      else if n then js "-Infinity" else js "Infinity"
  end.

Definition extractExperienceYears (now : Z) (text : jsstring) : jsstring :=
  match exec flag_i yearRange text with
  | Some yearRangeMatch =>
      let g1 := or_else (group yearRangeMatch 1) [] in
      let g2 := or_else (group yearRangeMatch 2) [] in
      let startYear := parseInt g1 in
      let endYear :=
        if mentions_open_ended (toLowerCase g2)
        then Finite (getFullYear now) else parseInt g2 in
      string_of_diff endYear startYear
  | None =>
      (* If no single range found, try to calculate from multiple work periods *)
      calculateExperienceFromWorkHistory now text
  end.

End WithHost.
End GeminiParser.

(* ================================================================== *)
(** ** calculateMatchPercentage (CandidateTable.tsx and the Index page) *)
(* ================================================================== *)

(** The two copies of the matcher have the same statements; the copy of the
    Index page also writes one console line per match, modelled by [log]. *)
Module SkillMatch.

(** An element of a skills array: the arrays come from decoded JSON, so an
    element need not be a string. *)
Inductive jsval :=
| JString (s : jsstring)
| JOther.                      (* a number, null, an object, ... *)

Definition is_string (v : jsval) : bool :=
  match v with JString _ => true | JOther => false end.

Inductive tier := Exact | Partial | Substantial | Equivalent.

Definition tier_rank (t : tier) : nat :=
  match t with Exact => 0 | Partial => 1 | Substantial => 2 | Equivalent => 3 end.

(** One match: the index of the required skill in the normalized list and
    the tier that matched it (the console line "<tier> match found"). *)
Definition event := (nat * tier)%type.

Record state := State {
  matchCount : nat;
  matchedSkills : list jsstring;        (* the keys of the Map *)
  log : list event
}.

Definition technologyEquivalents : list (list jsstring) :=
  map (map js)
  [ ["sql"; "mysql"; "postgresql"; "ms sql"; "sql server"];
    ["aws"; "amazon web services"];
    ["gcp"; "google cloud platform"; "google cloud"];
    ["azure"; "microsoft azure"];
    ["react"; "react.js"];
    ["vue"; "vue.js"];
    ["angular"; "angular.js"];
    ["node"; "node.js"];
    ["ml"; "machine learning"];
    ["ai"; "artificial intelligence"];
    ["ci/cd"; "continuous integration"; "continuous deployment"];
    ["k8s"; "kubernetes"] ]%string.

Definition space : N := 32%N.

(** [matchCount++; matchedSkills.set(requiredSkill, true)] and the console
    line. *)
Definition record_match (i : nat) (t : tier) (requiredSkill : jsstring) (st : state)
  : state :=
  State (S (matchCount st)) (set_add requiredSkill (matchedSkills st))
        (log st ++ [(i, t)]).

Definition has (st : state) (requiredSkill : jsstring) : bool :=
  arr_includes (matchedSkills st) requiredSkill.

Section Tiers.
Variable normalizedCandidateSkills : list jsstring.

(** [normalizedCandidateSkills.includes(requiredSkill)] *)
Definition exact_match (requiredSkill : jsstring) : bool :=
  arr_includes normalizedCandidateSkills requiredSkill.

(** Composite skills: all parts of the required skill occur in one
    candidate skill. *)
Definition partial_match (requiredSkill : jsstring) : bool :=
  includes requiredSkill [space] &&
  let parts := split_char space requiredSkill in
  existsb (fun candidateSkill =>
             forallb (fun part => includes candidateSkill part) parts)
          normalizedCandidateSkills.

(** [a] contains [b] as a distinct word, or equals it. *)
Definition contains_word (a b : jsstring) : bool :=
  includes a ([space] ++ b ++ [space]) ||
  startsWith a (b ++ [space]) ||
  endsWith a ([space] ++ b) ||
  str_eqb a b.

Definition isSubstantialMatch (candidateSkill requiredSkill : jsstring) : bool :=
  contains_word candidateSkill requiredSkill ||
  contains_word requiredSkill candidateSkill.

Definition substantial_match (requiredSkill : jsstring) : bool :=
  existsb (fun candidateSkill => isSubstantialMatch candidateSkill requiredSkill)
          normalizedCandidateSkills.

Definition hasEquivalent (equivalentGroup : list jsstring) : bool :=
  existsb (fun candidateSkill =>
             existsb (fun equivalent =>
                        str_eqb candidateSkill equivalent ||
                        startsWith candidateSkill (equivalent ++ [space]) ||
                        endsWith candidateSkill ([space] ++ equivalent) ||
                        includes candidateSkill ([space] ++ equivalent ++ [space]))
                     equivalentGroup)
          normalizedCandidateSkills.

(** The loop over the groups stops at the first group that contains the
    required skill and has an equivalent among the candidate skills. *)
Definition equivalent_match (requiredSkill : jsstring) : bool :=
  existsb (fun equivalentGroup =>
             arr_includes equivalentGroup requiredSkill &&
             hasEquivalent equivalentGroup)
          technologyEquivalents.

(** First loop: exact matches. *)
Definition exact_step (st : state) (ir : nat * jsstring) : state :=
  let '(i, requiredSkill) := ir in
  if exact_match requiredSkill then record_match i Exact requiredSkill st else st.

(** Second loop: a skill not matched yet is tried as a composite skill,
    then against each candidate skill as a substantial match. *)
Definition composite_step (st : state) (ir : nat * jsstring) : state :=
  let '(i, requiredSkill) := ir in
  if has st requiredSkill then st else
  if partial_match requiredSkill then record_match i Partial requiredSkill st else
  if substantial_match requiredSkill then record_match i Substantial requiredSkill st
  else st.

(** Third loop: technology equivalents. *)
Definition equivalent_step (st : state) (ir : nat * jsstring) : state :=
  let '(i, requiredSkill) := ir in
  if has st requiredSkill then st else
  if equivalent_match requiredSkill then record_match i Equivalent requiredSkill st
  else st.

Definition indexed (l : list jsstring) : list (nat * jsstring) :=
  combine (List.seq 0 (List.length l)) l.

(** The three loops over the normalized required skills. *)
Definition run (normalizedRequiredSkills : list jsstring) : state :=
  let rs := indexed normalizedRequiredSkills in
  let st := fold_left exact_step rs (State 0 [] []) in
  let st := fold_left composite_step rs st in
  fold_left equivalent_step rs st.

End Tiers.

(** [Math.round((matchCount / total) * 100)] *)
Definition percentage (matchCount total : nat) : Z :=
  JSNumber.Math_round
    (JSNumber.mul (JSNumber.div (Z.of_nat matchCount) (Z.of_nat total)) 100).

Section WithHost.
Context {H : Host}.

(** [skill.toLowerCase().trim()]; calling the method on a value that is not
    a string throws a TypeError ([None]). *)
Definition lower_trim (skill : jsval) : option jsstring :=
  match skill with
  | JString s => Some (trim (toLowerCase s))
  | JOther => None
  end.

Fixpoint map_throwing (f : jsval -> option jsstring) (l : list jsval)
  : option (list jsstring) :=
  match l with
  | [] => Some []
  | v :: l' =>
      match f v with
      | None => None
      | Some s =>
          match map_throwing f l' with
          | None => None
          | Some r => Some (s :: r)
          end
      end
  end.

(** [skills.filter(skill => typeof skill === 'string')
          .map(skill => skill.toLowerCase().trim())] *)
Definition normalize (skills : list jsval) : option (list jsstring) :=
  map_throwing lower_trim (filter is_string skills).

(** The matcher with its trace: the percentage and the final state, or
    [None] when an exception escapes. *)
Definition calculateMatch (candidateSkills requiredSkills : list jsval)
  : option (Z * state) :=
  match requiredSkills with
  | [] => Some (0%Z, State 0 [] [])
  | _ :: _ =>
      match candidateSkills with
      | [] => Some (0%Z, State 0 [] [])
      | _ :: _ =>
          match normalize requiredSkills, normalize candidateSkills with
          | Some normalizedRequiredSkills, Some normalizedCandidateSkills =>
              match normalizedRequiredSkills with
              | [] => Some (0%Z, State 0 [] [])
              | _ :: _ =>
                  let st := run normalizedCandidateSkills normalizedRequiredSkills in
                  Some (percentage (matchCount st)
                          (List.length normalizedRequiredSkills), st)
              end
          | _, _ => None
          end
      end
  end.

Definition calculateMatchPercentage (candidateSkills requiredSkills : list jsval)
  : option Z :=
  option_map fst (calculateMatch candidateSkills requiredSkills).

End WithHost.

(** *** The matcher as the specification words it: four passes *)

(** "Tiers run in this fixed order over the full required list before
    moving to the next tier": one pass per tier, a pass skipping the skills
    an earlier pass (or an earlier entry of the same pass) has matched. *)
Section FourPasses.
Variable normalizedCandidateSkills : list jsstring.

Definition tier_matches (t : tier) (requiredSkill : jsstring) : bool :=
  match t with
  | Exact => exact_match normalizedCandidateSkills requiredSkill
  | Partial => partial_match normalizedCandidateSkills requiredSkill
  | Substantial => substantial_match normalizedCandidateSkills requiredSkill
  | Equivalent => equivalent_match normalizedCandidateSkills requiredSkill
  end.



End FourPasses.

End SkillMatch.

(* ================================================================== *)
(** ** Experience qualification at the three call sites *)
(* ================================================================== *)

Module Qualification.

Local Open Scope Z_scope.

Definition Qualified : jsstring := js "Qualified".
Definition NotQualified : jsstring := js "Not Qualified".

(** [x || '0'] on a field that may be missing ([None]) or empty *)
Definition or_zero (x : option jsstring) : jsstring := or_else x (js "0").

(** [parseInt(s) || 0]: NaN and 0 are falsy. *)
Definition parse_or_0 (s : jsstring) : number :=
  match parseInt s with
  | NaN => Finite 0
  | n => n
  end.

(** [a >= b] on numbers: false as soon as an operand is NaN. *)
Definition ge_num (a b : number) : bool :=
  match a, b with
  | NaN, _ | _, NaN => false
  | Finite x, Finite y => y <=? x
  | Infinity n, Finite _ => negb n
  | Finite _, Infinity n => n
  | Infinity n, Infinity m => negb n || m
  end.

(** [a <= b] on numbers *)
Definition le_num (a b : number) : bool := ge_num b a.

(** [a - b]: the exact difference of two finite numbers, rounded; an
    infinity minus itself is NaN. *)
Definition sub_num (a b : number) : number :=
  match a, b with
  | NaN, _ | _, NaN => NaN
  | Finite x, Finite y => Number_of_Z (x - y)
  | Infinity n, Finite _ => Infinity n
  | Finite _, Infinity n => Infinity (negb n)
  | Infinity n, Infinity m => if Bool.eqb n m then NaN else Infinity n
  end.

(** [Math.abs(a)] *)
Definition abs_num (a : number) : number :=
  match a with
  | NaN => NaN
  | Finite x => Finite (Z.abs x)
  | Infinity _ => Infinity false
  end.

Module CandidateTable.
(** Qualified if candidate experience is same or higher than JD experience *)
Definition getExperienceResult (candidateExp jdExp : jsstring) : jsstring :=
  let candidateYears := parse_or_0 candidateExp in
  let jdYears := parse_or_0 jdExp in
  if ge_num candidateYears jdYears then Qualified else NotQualified.

(** The call sites: [getExperienceResult(candidate.experience || '0',
    jd.experience || '0')]. *)
Definition experienceCell (candidateExperience jdExperience : option jsstring)
  : jsstring :=
  getExperienceResult (or_zero candidateExperience) (or_zero jdExperience).
End CandidateTable.

Module ParsingHistory.
Definition getExperienceResult (candidateExp jdExp : jsstring) : jsstring :=
  let candidateYears := parse_or_0 candidateExp in
  let jdYears := parse_or_0 jdExp in
  if le_num (abs_num (sub_num candidateYears jdYears)) (Finite 1)
  then Qualified else NotQualified.

(** The call site: [getExperienceResult(candidate.experience,
    jd.experience || '0')]; [parseInt(undefined)] is NaN. *)
Definition experienceCell (candidateExperience jdExperience : option jsstring)
  : jsstring :=
  getExperienceResult
    (match candidateExperience with Some s => s | None => js "undefined" end)
    (or_zero jdExperience).
End ParsingHistory.

Module Index.
(** The report of the Index page:
    [parseInt(candidate.experience || '0') >= parseInt(jd.experience || '0')]. *)
Definition experienceResult (candidateExperience jdExperience : option jsstring)
  : jsstring :=
  let candidateExp := parseInt (or_zero candidateExperience) in
  let jdExp := parseInt (or_zero jdExperience) in
  if ge_num candidateExp jdExp then Qualified else NotQualified.
End Index.

End Qualification.

(* ================================================================== *)
(** ** The document parser: e-mail addresses *)
(* ================================================================== *)

(** The e-mail functions local to the document parser; the character
    classes are those of the contact extractor. *)
Module DocumentEmails.
Import ContactExtractor.

Definition invalidPatterns : list jsstring :=
  map js ["example.com"; "test.com"; "email.com"; "domain.com"; "company.com";
          "yourcompany.com"; "youremail.com"]%string.

Definition isValidEmail (email : jsstring) : bool :=
  if (List.length email <? 5) || (100 <? List.length email) then false else
  (* Must have exactly one @ *)
  if negb (count_char at_sign email =? 1) then false else
  match split_char at_sign email with
  | [localPart; domain] =>
      (* Local part validation *)
      if (List.length localPart =? 0) || (64 <? List.length localPart) then false else
      if startsWith localPart [dot] || endsWith localPart [dot] then false else
      if includes localPart [dot; dot] then false else
      if negb (forallb local_char localPart) then false else
      (* Domain validation *)
      if (List.length domain =? 0) || (255 <? List.length domain) then false else
      if startsWith domain [dot] || endsWith domain [dot] ||
         startsWith domain (js "-") || endsWith domain (js "-") then false else
      if includes domain [dot; dot] then false else
      (* Must have at least one dot in domain *)
      if negb (includes domain [dot]) then false else
      let domainParts := split_char dot domain in
      if List.length domainParts <? 2 then false else
      (* TLD must be at least 2 chars *)
      if List.length (last domainParts []) <? 2 then false else
      (* Check for common invalid patterns *)
      if existsb isSpace email then false else
      if includes email (js "@.") || includes email (js ".@") then false else
      (* Ensure it's not a common false positive *)
      if existsb (fun pattern =>
                    endsWith email pattern && (List.length localPart <? 3))
                 invalidPatterns
      then false else true
  | _ => false
  end.

(** /\b[A-Za-z0-9][A-Za-z0-9._%-]*@[A-Za-z0-9][A-Za-z0-9.-]*\.[A-Z|a-z]{2,}\b/g *)
Definition emailPattern1 : regex :=
  rseq [RWordB; RClass alnum; star (RClass local_char); RChar at_sign;
       RClass alnum; star (RClass domain_char); RChar dot;
       at_least 2 (RClass (fun c => isAlpha c || one_of "|" c)); RWordB].

(** /(?:email|e-mail|mail|contact|id)[\s:]*(...)/gi *)
Definition emailPattern2 : regex :=
  rseq [ralt [lit "email"; lit "e-mail"; lit "mail"; lit "contact"; lit "id"];
       star (RClass (fun c => isSpace c || one_of ":" c));
       RGroup 1 email_body].

(** /[\[\(](...)[\]\)]/g *)
Definition emailPattern3 : regex :=
  rseq [RClass (one_of "[("); RGroup 1 email_body; RClass (one_of "])")].

(** /([A-Za-z0-9._%-]+)\s*@\s*([A-Za-z0-9.-]+)\s*\.\s*([A-Za-z]{2,})/g *)
Definition emailPattern4 : regex :=
  rseq [RGroup 1 (plus (RClass local_char)); star s; RChar at_sign; star s;
       RGroup 2 (plus (RClass domain_char)); star s; RChar dot; star s;
       RGroup 3 (at_least 2 (RClass isAlpha))].

(** /email|e-mail|mail|contact|reach/i *)
Definition emailKeyword : regex :=
  ralt [lit "email"; lit "e-mail"; lit "mail"; lit "contact"; lit "reach"].

Section WithHost.
Context {H : Host}.

(** [emails.add(email)] guarded by [isValidEmail]. *)
Definition add_email (emails : list jsstring) (candidate : jsstring) : list jsstring :=
  let email := trim (toLowerCase candidate) in
  if isValidEmail email then set_add email emails else emails.

(** Try to find email near common keywords: a keyword line triggers a scan
    of that line and of the next two. *)
Definition emailKeywordScan (lines : list jsstring) (emails : list jsstring)
  : list jsstring :=
  fold_left
    (fun emails i =>
       let line := toLowerCase (nth i lines []) in
       if test flag_i emailKeyword line then
         fold_left
           (fun emails j =>
              fold_left (fun emails m => add_email emails (matched m))
                (matchAll no_flags emailPattern1 (nth j lines [])) emails)
           (List.seq i (Nat.min (i + 3) (List.length lines) - i)) emails
       else emails)
    (List.seq 0 (List.length lines)) emails.

Definition extractEmails (text : jsstring) : list jsstring :=
  let emails : list jsstring := [] in
  let emails :=
    fold_left
      (fun emails pattern =>
         fold_left (fun emails m => add_email emails (group1_or_0 m))
           (matchAll (fst pattern) (snd pattern) text) emails)
      [(no_flags, emailPattern1); (flag_i, emailPattern2); (no_flags, emailPattern3)]
      emails in
  (* Handle spaced emails *)
  let emails :=
    fold_left
      (fun emails m =>
         match group m 1, group m 2, group m 3 with
         | Some g1, Some g2, Some g3 =>
             add_email emails (g1 ++ [at_sign] ++ g2 ++ [dot] ++ g3)
         | _, _, _ => emails
         end)
      (matchAll no_flags emailPattern4 text) emails in
  emailKeywordScan (split_char 10 text) emails.

End WithHost.
End DocumentEmails.

(* ================================================================== *)
(** ** utils/geminiParser.ts: fallbacks from the text and the file name *)
(* ================================================================== *)

Module GeminiHelpers.

Definition commonSkills : list jsstring :=
  map js
  [ "JavaScript"; "TypeScript"; "React"; "Angular"; "Vue"; "Node.js"; "Express";
    "Next.js"; "HTML"; "CSS";
    "Python"; "Django"; "Flask"; "Java"; "Spring"; "C#"; ".NET"; "PHP"; "Laravel";
    "Ruby"; "Rails";
    "SQL"; "MySQL"; "PostgreSQL"; "MongoDB"; "Oracle"; "NoSQL"; "Firebase"; "Supabase";
    "AWS"; "Azure"; "GCP"; "Docker"; "Kubernetes"; "CI/CD"; "Git"; "GitHub"; "GitLab";
    "REST"; "GraphQL"; "API"; "Microservices"; "Serverless"; "Redux"; "MobX"; "RxJS";
    "Machine Learning"; "AI"; "Data Science"; "TensorFlow"; "PyTorch"; "NLP";
    "Agile"; "Scrum"; "Kanban"; "Jira"; "Confluence"; "Project Management";
    "UI/UX"; "Figma"; "Sketch"; "Adobe XD"; "Photoshop"; "Illustrator";
    "Testing"; "Jest"; "Mocha"; "Cypress"; "Selenium"; "TDD"; "BDD";
    "DevOps"; "SRE"; "Linux"; "Unix"; "Bash"; "Shell"; "PowerShell";
    "Blockchain"; "Smart Contracts"; "Solidity"; "Web3";
    "Mobile"; "iOS"; "Android"; "React Native"; "Flutter"; "Swift"; "Kotlin";
    "Big Data"; "Hadoop"; "Spark"; "Kafka"; "Elasticsearch"; "Kibana";
    "Security"; "Authentication"; "Authorization"; "OAuth"; "JWT";
    "Performance"; "Optimization"; "Caching"; "CDN"; "SEO";
    "Sass"; "Less"; "Tailwind CSS"; "Bootstrap"; "Material UI"; "Chakra UI";
    "WebSockets"; "Socket.io"; "Real-time"; "Streaming";
    "Webpack"; "Babel"; "ESLint"; "Prettier"; "Rollup"; "Vite";
    "Analytics"; "Monitoring"; "Logging"; "Grafana"; "Prometheus" ]%string.

Section WithHost.
Context {H : Host}.

(** Helper function to extract common skills from text: the skills of the
    list whose lower-case form occurs in the lower-cased text. *)
Definition extractCommonSkills (text : jsstring) : list jsstring :=
  let lowerText := toLowerCase text in
  fold_left
    (fun foundSkills skill =>
       let lowerSkill := toLowerCase skill in
       if includes lowerText lowerSkill then foundSkills ++ [skill] else foundSkills)
    commonSkills [].

End WithHost.

(** [s.replace(r, rep)] for a regex without the [g] flag: the first match
    only. *)
Definition replace_first (fl : flags) (r : regex) (rep s : jsstring) : jsstring :=
  match exec fl r s with
  | Some m => firstn (m_index m) s ++ rep ++ skipn (m_end m) s
  | None => s
  end.

(** /\.[^/.]+$/ *)
Definition fileExtension : regex :=
  rseq [RChar (ch "."); plus (RNotClass (one_of "/.")); REnd].

(** [s.replace(/[_-]/g, ' ')] *)
Definition spaces_for_separators (s : jsstring) : jsstring :=
  map (fun c => if one_of "_-" c then 32%N else c) s.

(** [s.replace(/\b\w/g, c => c.toUpperCase())]: a word character that
    follows no word character is replaced by its upper-case form. *)
Fixpoint capitalize_from (prev : option N) (s : jsstring) : jsstring :=
  match s with
  | [] => []
  | c :: s' =>
      (if isWordChar c && negb (is_word prev) then upper_ascii c else c)
      :: capitalize_from (Some c) s'
  end.

Definition capitalize_words (s : jsstring) : jsstring := capitalize_from None s.

(** /^(?:cv|resume|cv_|resume_)\s*/i *)
Definition namePrefix : regex :=
  rseq [RStart; ralt [lit "cv"; lit "resume"; lit "cv_"; lit "resume_"]; star s].

(** /^(?:jd|job|job_description|jd_)\s*/i *)
Definition titlePrefix : regex :=
  rseq [RStart; ralt [lit "jd"; lit "job"; lit "job_description"; lit "jd_"]; star s].

(** Helper function to extract a name from filename *)
Definition extractNameFromFilename (fileName : jsstring) : jsstring :=
  (* Remove file extension *)
  let name := replace_first no_flags fileExtension [] fileName in
  (* Replace underscores, hyphens with spaces *)
  let name := spaces_for_separators name in
  (* Remove common prefixes like "CV_" or "Resume_" *)
  let name := replace_first flag_i namePrefix [] name in
  (* Capitalize words *)
  capitalize_words name.

(** Helper function to extract a title from filename *)
Definition extractTitleFromFilename (fileName : jsstring) : jsstring :=
  let title := replace_first no_flags fileExtension [] fileName in
  let title := spaces_for_separators title in
  let title := replace_first flag_i titlePrefix [] title in
  capitalize_words title.

End GeminiHelpers.

(* ================================================================== *)
(** ** The document parser: [parseDocument] and [processBatch] *)
(* ================================================================== *)

Module ParseDocument.

(** A value decoded from the model's JSON answer, as far as
    [normalizeSkills] looks at it: a string, an array, or something else
    (a number, a boolean, [null], [undefined], an object), of which only
    the truthiness is observed. *)
#[warnings="-register-all"]
Inductive value :=
| VString (s : jsstring)
| VArray (l : list value)
| VOther (truthy : bool).

(** [skills.flat(Infinity)], on the elements of the array. *)
Fixpoint flat (v : value) : list value :=
  match v with
  | VArray l =>
      (fix flat_all (l : list value) : list value :=
         match l with
         | [] => []
         | x :: l' => flat x ++ flat_all l'
         end) l
  | _ => [v]
  end.

Definition flat_all (l : list value) : list value := flat_map flat l.

(** [skill && typeof skill === 'string' && skill.trim()], then
    [skill.trim()]. *)
Definition cleanSkill (skill : value) : list jsstring :=
  match skill with
  | VString s =>
      match s, trim s with
      | _ :: _, _ :: _ => [trim s]
      | _, _ => []
      end
  | _ => []
  end.

(** [s.split(/P/)] for a character class [P]. *)
Fixpoint split_class (p : N -> bool) (s : jsstring) : list jsstring :=
  match s with
  | [] => [[]]
  | x :: s' =>
      if p x then [] :: split_class p s'
      else match split_class p s' with
           | q :: qs => (x :: q) :: qs
           | [] => [[x]]
           end
  end.

Definition nonEmpty (s : jsstring) : bool :=
  match s with [] => false | _ :: _ => true end.

Section Normalize.
(** [JSON.parse]; [None] when it throws. *)
Variable JSON_parse : jsstring -> option value.

Definition normalizeArray (skills : list value) : list jsstring :=
  flat_map cleanSkill (flat_all skills).

(** Normalize skills to always be a proper array *)
Definition normalizeSkills (skills : value) : list jsstring :=
  match skills with
  | VOther _ => []
  | VArray l => normalizeArray l
  | VString s =>
      match s, trim s with
      | _ :: _, _ :: _ =>
          (* Try to parse as JSON first *)
          match JSON_parse s with
          | Some (VArray parsed) => normalizeArray parsed
          | Some _ => []
          | None =>
              (* Not JSON, treat as comma or newline separated *)
              filter nonEmpty (map trim (split_class (one_of (String "010" ",;|")) s))
          end
      | _, _ => []
      end
  end.

(** [!!parsedData?.skills] *)
Definition truthy (v : option value) : bool :=
  match v with
  | Some (VString s) => nonEmpty s
  | Some (VArray _) => true
  | Some (VOther b) => b
  | None => false
  end.

(** [[...new Set(l)]] *)
Definition distinct (l : list jsstring) : list jsstring :=
  fold_left (fun acc x => set_add x acc) l [].

Section WithHost.
Context {H : Host}.

(** Determine the best skills to use: the local extraction, merged after
    the parsed skills when there are any, and the aggressive extraction
    when nothing was found. *)
Definition finalSkills (text : jsstring) (isJobDescription : bool)
    (parsedSkills : option value) : list jsstring :=
  let localSkills := DocumentParser.extractSkillsFromText text isJobDescription false in
  let finalSkills :=
    if truthy parsedSkills then
      let normalizedParsedSkills :=
        match parsedSkills with Some v => normalizeSkills v | None => [] end in
      match normalizedParsedSkills with
      | _ :: _ => distinct (normalizedParsedSkills ++ localSkills)
      | [] => localSkills
      end
    else localSkills in
  match finalSkills with
  | [] => DocumentParser.extractSkillsFromText text isJobDescription true
  | _ :: _ => finalSkills
  end.

End WithHost.
End Normalize.

(** *** [processBatch] *)

Section Batch.
Variables File Doc : Type.
(** [BATCH_SIZE], imported from the constants module. *)
Variable BATCH_SIZE : nat.
(** The outcome of [parseDocument(file, type)] once settled: the value it
    is fulfilled with, [None] when it is rejected or the value is falsy. *)
Variable parseDocument : File -> option Doc.

(** [files.slice(a, b)] *)
Definition slice {A : Type} (a b : nat) (l : list A) : list A :=
  firstn (b - a) (skipn a l).

(** The observable effects of a run: the results pushed, the progress
    values reported, and the one-second pauses taken between batches. *)
Record batchState := BatchState {
  results : list Doc;
  progress : list JSNumber.dyadic;
  pauses : nat
}.

(** [Math.min(x, 100)] *)
Definition min_100 (x : JSNumber.dyadic) : JSNumber.dyadic :=
  let hundred := JSNumber.round53 100 1 in
  let le_100 :=
    if (0 <=? JSNumber.expo x)%Z
    then (JSNumber.mant x * 2 ^ JSNumber.expo x <=? 100)%Z
    else (JSNumber.mant x <=? 100 * 2 ^ (- JSNumber.expo x))%Z in
  if le_100 then x else hundred.

(** The batch loop, [for (let i = 0; i < files.length; i += BATCH_SIZE)];
    [None] when the fuel does not suffice. *)
Fixpoint batchLoop (fuel : nat) (files : list File) (i : nat) (st : batchState)
  : option batchState :=
  if List.length files <=? i then Some st else
  match fuel with
  | O => None
  | S fuel' =>
      let batch := slice i (i + BATCH_SIZE) files in
      let batchResults := map parseDocument batch in
      let pushed :=
        flat_map (fun r => match r with Some v => [v] | None => [] end) batchResults in
      let value :=
        min_100
          (JSNumber.mul
             (JSNumber.div (Z.of_nat (i + List.length batch))
                (Z.of_nat (List.length files))) 100) in
      let paused := if i + BATCH_SIZE <? List.length files then 1 else 0 in
      batchLoop fuel' files (i + BATCH_SIZE)
        (BatchState (results st ++ pushed) (progress st ++ [value]) (pauses st + paused))
  end.

Definition processBatch (files : list File) : option batchState :=
  batchLoop (List.length files) files 0 (BatchState [] [] 0).

End Batch.

Arguments BatchState {Doc}.
Arguments results {Doc}.
Arguments progress {Doc}.
Arguments pauses {Doc}.
Arguments batchLoop {File Doc}.
Arguments processBatch {File Doc}.

End ParseDocument.

(* ================================================================== *)
(** ** The rows of the exported reports *)
(* ================================================================== *)

(** A report has one row for each pair of a job description and a
    candidate; a row is modelled by its serial number ("Sl No") and the
    pair it is about. *)
Module Reports.

Section Rows.
Variables JD Candidate : Type.

Definition row := (nat * JD * Candidate)%type.

(** [CandidateTable.downloadExcel] and [ParsingHistory.downloadReport]:
    two nested [forEach] loops and the counter [slNo++].  These are the
    data rows; the row of column titles that [downloadExcel] pushes before
    the loops is not one of them. *)
Definition counterRows (jobDescriptions : list JD) (candidates : list Candidate)
  : list row :=
  snd (fold_left
         (fun state jd =>
            fold_left
              (fun state candidate =>
                 let '(slNo, reportData) := state in
                 (S slNo, reportData ++ [(slNo, jd, candidate)]))
              candidates state)
         jobDescriptions (1, [])).

(** The report of the Index page: [flatMap] and [map] with the indices,
    ['Sl No': jdIndex * candidates.length + candidateIndex + 1]. *)
Definition indexRows (jobDescriptions : list JD) (candidates : list Candidate)
  : list row :=
  flat_map
    (fun '(jdIndex, jd) =>
       map (fun '(candidateIndex, candidate) =>
              (jdIndex * List.length candidates + candidateIndex + 1, jd, candidate))
         (combine (List.seq 0 (List.length candidates)) candidates))
    (combine (List.seq 0 (List.length jobDescriptions)) jobDescriptions).

End Rows.

Arguments counterRows {JD Candidate}.
Arguments indexRows {JD Candidate}.

End Reports.

(* ================================================================== *)
(** * Properties *)
(* ================================================================== *)

(** ** Strings and sets *)

Module StringFacts.

Lemma str_eqb_eq (a b : jsstring) : str_eqb a b = true <-> a = b.
Proof.
  revert b; induction a as [|x a IH]; intros [|y b]; simpl; split;
    try congruence; try reflexivity.
  - rewrite andb_true_iff, N.eqb_eq, IH. intros [-> ->]; reflexivity.
  - intros E; injection E as -> ->. now rewrite N.eqb_refl, (proj2 (IH b)).
Qed.

Lemma str_eqb_refl (a : jsstring) : str_eqb a a = true.
Proof. now apply str_eqb_eq. Qed.

Lemma str_eqb_neq (a b : jsstring) : str_eqb a b = false <-> a <> b.
Proof.
  rewrite <- str_eqb_eq. destruct (str_eqb a b); split; congruence.
Qed.

Lemma arr_includes_In (l : list jsstring) (s : jsstring) :
  arr_includes l s = true <-> In s l.
Proof.
  unfold arr_includes. rewrite existsb_exists. split.
  - intros (x & Hx & E). apply str_eqb_eq in E. now subst.
  - intros Hin. exists s. split; [assumption | apply str_eqb_refl].
Qed.

Lemma arr_includes_false (l : list jsstring) (s : jsstring) :
  arr_includes l s = false <-> ~ In s l.
Proof.
  rewrite <- arr_includes_In. destruct (arr_includes l s); split; congruence.
Qed.

Lemma set_add_In (x s : jsstring) (l : list jsstring) :
  In x (set_add s l) <-> In x l \/ x = s.
Proof.
  unfold set_add. destruct (arr_includes l s) eqn:E.
  - apply arr_includes_In in E. split; [now left | intros [Hx | ->]; assumption].
  - rewrite in_app_iff. simpl. intuition congruence.
Qed.

Lemma set_add_NoDup (s : jsstring) (l : list jsstring) :
  NoDup l -> NoDup (set_add s l).
Proof.
  intros Hl. unfold set_add. destruct (arr_includes l s) eqn:E; [assumption|].
  apply arr_includes_false in E.
  apply NoDup_rev in Hl. rewrite <- (rev_involutive (l ++ [s])).
  apply NoDup_rev. rewrite rev_app_distr. simpl. constructor; [|assumption].
  now rewrite <- in_rev.
Qed.

(** A fold whose steps only add elements satisfying [P] yields elements of
    the initial set or elements satisfying [P]. *)
Lemma fold_add_In {A : Type} (step : list jsstring -> A -> list jsstring)
    (P : jsstring -> Prop) (xs : list A) (acc : list jsstring) :
  (forall acc a x, In a xs -> In x (step acc a) -> In x acc \/ P x) ->
  forall x, In x (fold_left step xs acc) -> In x acc \/ P x.
Proof.
  revert acc. induction xs as [|a xs IH]; intros acc Hstep x; simpl.
  - now left.
  - intros Hx. apply IH in Hx.
    + destruct Hx as [Hx | Hx]; [|now right].
      apply Hstep in Hx; [assumption | now left].
    + intros acc' a' x' Ha'. apply Hstep. now right.
Qed.

Lemma split_char_absent (c : N) (s : jsstring) : ~ In c s -> split_char c s = [s].
Proof.
  induction s as [|x s IH]; cbn [split_char]; [reflexivity|].
  intros Hnot. destruct (N.eqb_spec x c) as [-> | Hne].
  - exfalso. apply Hnot. now left.
  - rewrite IH; [reflexivity|]. intros Hin. apply Hnot. now right.
Qed.

End StringFacts.

Import StringFacts.

(** ** Trimming *)

Module TrimFacts.

Lemma trimStart_head (s : jsstring) :
  match trimStart s with c :: _ => isSpace c = false | [] => True end.
Proof.
  induction s as [|c s IH]; cbn [trimStart]; [exact I|].
  destruct (isSpace c) eqn:E; [exact IH | exact E].
Qed.

Lemma trimStart_fixed (s : jsstring) :
  match s with c :: _ => isSpace c = false | [] => True end -> trimStart s = s.
Proof. destruct s as [|c s]; [reflexivity|]. cbn [trimStart]. now intros ->. Qed.

Lemma trimStart_idempotent (s : jsstring) : trimStart (trimStart s) = trimStart s.
Proof. apply trimStart_fixed, trimStart_head. Qed.

(** Stripping at the front stops at a code unit that is not white space. *)
Lemma trimStart_snoc (a : jsstring) (c : N) :
  isSpace c = false -> exists a', trimStart (a ++ [c]) = a' ++ [c].
Proof.
  intros Hc. induction a as [|x a IH]; cbn [app trimStart].
  - rewrite Hc. now exists [].
  - destruct (isSpace x); [exact IH | now exists (x :: a)].
Qed.

(** A trimmed string has no white space at either end. *)
Lemma trim_ends (s : jsstring) : trimStart (trim s) = trim s /\ trimEnd (trim s) = trim s.
Proof.
  unfold trim, trimEnd. split.
  - pose proof (trimStart_head s) as Hh.
    destruct (trimStart s) as [|c u]; [reflexivity|].
    cbn [rev]. destruct (trimStart_snoc (rev u) c Hh) as [a' ->].
    rewrite rev_app_distr. cbn [rev app]. apply trimStart_fixed. exact Hh.
  - rewrite rev_involutive, trimStart_idempotent. reflexivity.
Qed.

Lemma trim_idempotent (s : jsstring) : trim (trim s) = trim s.
Proof.
  destruct (trim_ends s) as [Hs He]. unfold trim at 1. now rewrite Hs.
Qed.

End TrimFacts.
Import TrimFacts.

(** ** Skill extraction *)

Module SkillProps.
Import DocumentParser.

Section WithHost.
Context {H : Host}.

Lemma directSkills_known (text : jsstring) (acc : list jsstring) (x : jsstring) :
  In x (directSkills text acc) -> In x acc \/ In x skillKeywords.
Proof.
  unfold directSkills. apply fold_add_In with (P := fun z => In z skillKeywords).
  intros acc' a y Ha. destruct (test _ _ _); [|now left].
  rewrite set_add_In. intros [Hy | ->]; [now left | now right].
Qed.

Lemma addKnown_known (phrase : jsstring) (acc : list jsstring) (x : jsstring) :
  In x (addKnown phrase acc) -> In x acc \/ In x skillKeywords.
Proof.
  unfold addKnown. apply fold_add_In with (P := fun z => In z skillKeywords).
  intros acc' a y Ha. destruct (_ || _); [|now left].
  rewrite set_add_In. intros [Hy | ->]; [now left | now right].
Qed.

Lemma statementSkills_known (text : jsstring) (acc : list jsstring) (x : jsstring) :
  In x (statementSkills text acc) -> In x acc \/ In x skillKeywords.
Proof.
  unfold statementSkills. apply fold_add_In with (P := fun z => In z skillKeywords). intros acc1 pattern y _.
  apply fold_add_In with (P := fun z => In z skillKeywords). intros acc2 m z _.
  destruct (group m 1) as [[|c g1]|]; try (now left).
  apply fold_add_In with (P := fun z => In z skillKeywords). intros acc3 phrase w _. apply addKnown_known.
Qed.

Lemma bulletSkills_known (text : jsstring) (acc : list jsstring) (x : jsstring) :
  In x (bulletSkills text acc) -> In x acc \/ In x skillKeywords.
Proof.
  unfold bulletSkills. apply fold_add_In with (P := fun z => In z skillKeywords). intros acc1 bullet y _.
  apply fold_add_In with (P := fun z => In z skillKeywords). intros acc2 a z Ha. destruct (includes _ _); [|now left].
  rewrite set_add_In. intros [Hz | ->]; [now left | now right].
Qed.

(** C9.  Every skill returned by [extractSkillsFromText], in base mode and
    in aggressive mode (contextual statements and bullet lines included),
    is an entry of the skill-keyword dictionary, in the casing of the
    dictionary: the phrase found in the text is never what is added. *)
Theorem extractSkills_in_dictionary (text : jsstring) (isJobDescription aggressive : bool)
    (skill : jsstring) :
  In skill (extractSkillsFromText text isJobDescription aggressive) ->
  In skill skillKeywords.
Proof.
  unfold extractSkillsFromText. destruct aggressive; intros Hin.
  - apply bulletSkills_known in Hin. destruct Hin as [Hin | Hin]; [|assumption].
    apply statementSkills_known in Hin. destruct Hin as [Hin | Hin]; [|assumption].
    apply directSkills_known in Hin. destruct Hin as [[] | Hin]. assumption.
  - apply directSkills_known in Hin. destruct Hin as [[] | Hin]. assumption.
Qed.

End WithHost.

(** The words of a statement and of a bullet line, all in lower case, come
    back as the dictionary entries they match, capitalised as in the
    dictionary ("Go" is added because the phrase "django" contains it). *)
Lemma extractSkills_in_dictionary_witness :
  let text := js "experience in django and flask for the web - uses kafka" in
  extractSkillsFromText text false true = map js ["Django"; "Flask"; "Kafka"; "Go"]%string /\
  In (js "Kafka") skillKeywords.
Proof.
  split.
  - vm_compute. reflexivity.
  - apply (extractSkills_in_dictionary
             (js "experience in django and flask for the web - uses kafka") false true).
    vm_compute. tauto.
Defined.

End SkillProps.

(** ** Phone extraction *)

Module PhoneProps.

Definition digits_of (p : jsstring) : jsstring := filter isDigit p.

Definition digit_or_plus (c : N) : bool := isDigit c || N.eqb c 43.

Lemma filter_idem {A : Type} (f : A -> bool) (l : list A) :
  filter f (filter f l) = filter f l.
Proof.
  induction l as [|x l IH]; simpl; [reflexivity|].
  destruct (f x) eqn:E; simpl; [rewrite E, IH|]; auto.
Qed.

Lemma forallb_filter {A : Type} (f : A -> bool) (l : list A) :
  forallb f (filter f l) = true.
Proof.
  induction l as [|x l IH]; simpl; [reflexivity|].
  destruct (f x) eqn:E; simpl; [rewrite E|]; auto.
Qed.

Lemma filter_all {A : Type} (f : A -> bool) (l : list A) :
  forallb f l = true -> filter f l = l.
Proof.
  induction l as [|x l IH]; simpl; [reflexivity|].
  rewrite andb_true_iff. intros [-> Hl]. now rewrite IH.
Qed.

(** A string of digits and [+] signs that starts with its only [+] is that
    sign followed by its digits. *)
Lemma plus_then_digits (r : jsstring) :
  forallb digit_or_plus r = true ->
  (1 <? count_char 43 (43%N :: r)) = false ->
  43%N :: r = 43%N :: digits_of (43%N :: r).
Proof.
  intros Hall Hcount. unfold digits_of.
  change (filter isDigit (43%N :: r)) with (filter isDigit r). f_equal.
  symmetry. apply filter_all.
  unfold count_char in Hcount.
  change (filter (N.eqb 43) (43%N :: r)) with (43%N :: filter (N.eqb 43) r) in Hcount.
  cbn [List.length] in Hcount.
  apply Nat.ltb_ge in Hcount.
  assert (Hnil : filter (N.eqb 43) r = []).
  { destruct (filter (N.eqb 43) r); [reflexivity | simpl in Hcount; lia]. }
  clear Hcount. induction r as [|c r IH]; cbn [filter forallb] in *; [reflexivity|].
  apply andb_true_iff in Hall. destruct Hall as [Hc Hr].
  destruct (N.eqb 43 c) eqn:E; [discriminate|].
  unfold digit_or_plus in Hc. rewrite N.eqb_sym, E, orb_false_r in Hc.
  rewrite Hc. cbn [andb]. now apply IH.
Qed.

Lemma replace_leading_00_cases (c : jsstring) :
  replace_leading_00 c = c \/
  exists tl, c = 48%N :: 48%N :: tl /\ replace_leading_00 c = 43%N :: tl.
Proof.
  destruct c as [|a c']; [left; reflexivity|].
  destruct a as [|p]; [left; reflexivity|].
  do 6 (destruct p as [p|p|]; try (left; reflexivity)).
  destruct c' as [|b tl]; [left; reflexivity|].
  destruct b as [|q]; [left; reflexivity|].
  do 6 (destruct q as [q|q|]; try (left; reflexivity)).
  right. exists tl. split; reflexivity.
Qed.

Lemma replace_leading_00_keeps (c : jsstring) :
  forallb digit_or_plus c = true ->
  forallb digit_or_plus (replace_leading_00 c) = true.
Proof.
  intros Hc. destruct (replace_leading_00_cases c) as [-> | (tl & -> & ->)];
    [assumption|].
  cbn [forallb] in Hc |- *.
  apply andb_true_iff in Hc. destruct Hc as [_ Hc].
  apply andb_true_iff in Hc. destruct Hc as [_ Hc].
  now rewrite Hc.
Qed.

(** What a phone that leaves the cleaning pipeline looks like: the digits
    that were validated, behind [+] or behind [+91]. *)
Inductive formatted (valid : jsstring -> Prop) (p : jsstring) : Prop :=
| Formatted (digits : jsstring)
    (all_digits : forallb isDigit digits = true)
    (count : 10 <= List.length digits <= 15)
    (validated : valid digits)
    (shape : p = 43%N :: digits \/
             (p = js "+91" ++ digits /\ List.length digits = 10)).



Module Contact.
Import ContactExtractor.

Definition valid_digits (digits : jsstring) : Prop :=
  all_same_digit digits = false /\ arr_includes fakeSequences digits = false.

Lemma isValidPhone_true (phone digits : jsstring) :
  isValidPhone phone digits = true ->
  (1 <? count_char plus_sign phone) = false /\ valid_digits digits.
Proof.
  unfold isValidPhone, valid_digits.
  destruct (negb _); [discriminate|].
  destruct (1 <? count_char plus_sign phone); [discriminate|].
  destruct (all_same_digit digits); [discriminate|].
  destruct (arr_includes fakeSequences digits); [discriminate|].
  auto.
Qed.

Lemma formatPhone_shape (cleaned : jsstring) :
  forallb digit_or_plus cleaned = true ->
  10 <= List.length (digits_of cleaned) <= 15 ->
  isValidPhone cleaned (digits_of cleaned) = true ->
  formatPhone cleaned (digits_of cleaned) = [] \/
  formatted valid_digits (formatPhone cleaned (digits_of cleaned)).
Proof.
  intros Hall Hcount Hvalid.
  apply isValidPhone_true in Hvalid. destruct Hvalid as [Hplus Hvalid].
  assert (Hds : forallb isDigit (digits_of cleaned) = true)
    by apply forallb_filter.
  unfold formatPhone.
  destruct (startsWith cleaned [plus_sign]) eqn:Hstart.
  { right. destruct cleaned as [|c r]; [discriminate|].
    simpl in Hstart. rewrite andb_true_r in Hstart. apply N.eqb_eq in Hstart. subst c.
    simpl in Hall.
    exists (digits_of (43%N :: r)); auto.
    left. apply plus_then_digits; assumption. }
  destruct ((List.length (digits_of cleaned) =? 10)%nat && starts6to9 _) eqn:E1.
  { right. apply andb_true_iff in E1. destruct E1 as [E1 _]. apply Nat.eqb_eq in E1.
    exists (digits_of cleaned); auto. }
  destruct ((List.length (digits_of cleaned) =? 12)%nat && _);
    [right; exists (digits_of cleaned); auto|].
  destruct ((List.length (digits_of cleaned) =? 11)%nat && _);
    [right; exists (digits_of cleaned); auto|].
  destruct ((10 <? List.length (digits_of cleaned))%nat && _);
    [right; exists (digits_of cleaned); auto | now left].
Qed.

Lemma cleanDigits_shape (cleaned : jsstring) :
  cleanDigits cleaned = [] \/ formatted valid_digits (cleanDigits cleaned).
Proof.
  unfold cleanDigits.
  set (c1 := filter _ cleaned).
  assert (H1 : forallb digit_or_plus c1 = true) by apply forallb_filter.
  apply replace_leading_00_keeps in H1.
  set (c2 := replace_leading_00 c1) in *. clearbody c2. clear c1.
  fold (digits_of c2).
  destruct (_ || _) eqn:Hcount; [now left|].
  apply orb_false_iff in Hcount. destruct Hcount as [Hlo Hhi].
  apply Nat.ltb_ge in Hlo, Hhi.
  destruct (isValidPhone c2 (digits_of c2)) eqn:Hvalid; simpl; [|now left].
  apply formatPhone_shape; auto.
Qed.

Section WithHost.
Context {H : Host}.

Lemma cleanPhone_shape (candidate : jsstring) :
  cleanPhone candidate = [] \/ formatted valid_digits (cleanPhone candidate).
Proof. unfold cleanPhone. apply cleanDigits_shape. Qed.

(** Every extracted phone is a non-empty result of [cleanPhone]. *)
Lemma extractPhones_from_cleanPhone (text p : jsstring) :
  In p (extractPhonesFromText text) ->
  exists candidate, p = cleanPhone candidate /\ p <> [].
Proof.
  unfold extractPhonesFromText. intros Hin.
  apply fold_add_In
    with (P := fun x => exists candidate, x = cleanPhone candidate /\ x <> [])
    in Hin.
  - destruct Hin as [[] | Hin]. assumption.
  - intros acc a x _. unfold add_phone.
    destruct (cleanPhone a) as [|c r] eqn:E; [now left|].
    rewrite set_add_In. intros [Hx | ->]; [now left|].
    right. exists a. rewrite E. split; [reflexivity | discriminate].
Qed.

Lemma extractPhones_formatted (text p : jsstring) :
  In p (extractPhonesFromText text) -> formatted valid_digits p.
Proof.
  intros Hin. apply extractPhones_from_cleanPhone in Hin.
  destruct Hin as (candidate & -> & Hne).
  destruct (cleanPhone_shape candidate) as [E | Hf]; [contradiction | assumption].
Qed.

End WithHost.
End Contact.


Module Document.
Import DocumentParser.

Definition valid_digits (digits : jsstring) : Prop :=
  all_same_digit digits = false /\ arr_includes sequential digits = false.

Lemma doc_isValidPhone_true (phone digits : jsstring) :
  isValidPhone phone digits = true ->
  (1 <? count_char plus_sign phone) = false /\ valid_digits digits.
Proof.
  unfold isValidPhone, valid_digits.
  destruct (negb _); [discriminate|].
  destruct (1 <? count_char plus_sign phone); [discriminate|].
  destruct (all_same_digit digits); [discriminate|].
  destruct (arr_includes sequential digits); [discriminate|].
  auto.
Qed.

Lemma doc_formatPhone_shape (cleaned : jsstring) :
  forallb digit_or_plus cleaned = true ->
  10 <= List.length (digits_of cleaned) <= 15 ->
  isValidPhone cleaned (digits_of cleaned) = true ->
  formatPhone cleaned (digits_of cleaned) = [] \/
  formatted valid_digits (formatPhone cleaned (digits_of cleaned)).
Proof.
  intros Hall Hcount Hvalid.
  apply doc_isValidPhone_true in Hvalid. destruct Hvalid as [Hplus Hvalid].
  assert (Hds : forallb isDigit (digits_of cleaned) = true)
    by apply forallb_filter.
  unfold formatPhone.
  destruct (startsWith cleaned [plus_sign]) eqn:Hstart.
  { right. destruct cleaned as [|c r]; [discriminate|].
    simpl in Hstart. rewrite andb_true_r in Hstart. apply N.eqb_eq in Hstart. subst c.
    simpl in Hall.
    exists (digits_of (43%N :: r)); auto.
    left. apply plus_then_digits; assumption. }
  destruct ((List.length (digits_of cleaned) =? 10)%nat && starts6to9 _) eqn:E1.
  { right. apply andb_true_iff in E1. destruct E1 as [E1 _]. apply Nat.eqb_eq in E1.
    exists (digits_of cleaned); auto. }
  destruct ((List.length (digits_of cleaned) =? 12)%nat && _);
    [right; exists (digits_of cleaned); auto|].
  destruct ((List.length (digits_of cleaned) =? 11)%nat && _);
    [right; exists (digits_of cleaned); auto|].
  destruct ((10 <? List.length (digits_of cleaned))%nat && _);
    [right; exists (digits_of cleaned); auto | now left].
Qed.

Lemma doc_cleanDigits_shape (cleaned : jsstring) :
  cleanDigits cleaned = [] \/ formatted valid_digits (cleanDigits cleaned).
Proof.
  unfold cleanDigits.
  set (c1 := filter _ (filter _ cleaned)).
  assert (H1 : forallb digit_or_plus c1 = true).
  { apply forallb_forall. intros x Hx. subst c1.
    apply filter_In in Hx. destruct Hx as [Hx Hnp].
    apply filter_In in Hx. destruct Hx as [_ Hx].
    apply negb_true_iff in Hnp. rewrite Hnp, orb_false_r in Hx. exact Hx. }
  apply replace_leading_00_keeps in H1.
  set (c2 := replace_leading_00 c1) in *. clearbody c2. clear c1.
  fold (digits_of c2).
  destruct (_ || _) eqn:Hcount; [now left|].
  apply orb_false_iff in Hcount. destruct Hcount as [Hlo Hhi].
  apply Nat.ltb_ge in Hlo, Hhi.
  destruct (isValidPhone c2 (digits_of c2)) eqn:Hvalid; simpl; [|now left].
  apply doc_formatPhone_shape; auto.
Qed.

Section WithHost.
Context {H : Host}.

Lemma doc_cleanPhone_shape (candidate : jsstring) :
  cleanPhone candidate = [] \/ formatted valid_digits (cleanPhone candidate).
Proof. unfold cleanPhone. apply doc_cleanDigits_shape. Qed.

Lemma doc_extractPhones_formatted (text p : jsstring) :
  In p (extractPhones text) -> formatted valid_digits p.
Proof.
  unfold extractPhones. intros Hin.
  apply fold_add_In with (P := formatted valid_digits) in Hin.
  - destruct Hin as [[] | Hin]. assumption.
  - intros acc a x _. unfold add_phone.
    destruct (doc_cleanPhone_shape a) as [E | Hf].
    + rewrite E. now left.
    + destruct (cleanPhone a) as [|c r]; [now left|].
      rewrite set_add_In. intros [Hx | ->]; [now left | now right].
Qed.

End WithHost.
End Document.

(** The digit sequences that are never accepted: the five listed ones and
    any digit repeated. *)
Definition fake (digits : jsstring) : Prop :=
  In digits ContactExtractor.fakeSequences \/
  ContactExtractor.all_same_digit digits = true.

Lemma fake_after_91 (digits : jsstring) : ~ fake (js "91" ++ digits).
Proof.
  intros [Hin | Hsame].
  - unfold ContactExtractor.fakeSequences in Hin. cbn in Hin.
    repeat (destruct Hin as [Hin | Hin]; [discriminate Hin|]). exact Hin.
  - cbn in Hsame. discriminate Hsame.
Qed.

Lemma formatted_not_fake (valid : jsstring -> Prop) (p : jsstring) :
  (forall ds, valid ds -> ~ fake ds) ->
  formatted valid p -> ~ fake (digits_of p).
Proof.
  intros Hvalid [ds Hall Hcount Hv [-> | [-> Hlen]]]; unfold digits_of.
  - change (filter isDigit (43%N :: ds)) with (filter isDigit ds).
    rewrite (filter_all _ _ Hall). now apply Hvalid.
  - change (filter isDigit (js "+91" ++ ds)) with (js "91" ++ filter isDigit ds).
    apply fake_after_91.
Qed.

Lemma contact_valid_not_fake (ds : jsstring) : Contact.valid_digits ds -> ~ fake ds.
Proof.
  intros [Hsame Hseq] [Hin | Hsame']; [|congruence].
  apply arr_includes_In in Hin. congruence.
Qed.

Lemma document_valid_not_fake (ds : jsstring) : Document.valid_digits ds -> ~ fake ds.
Proof.
  intros [Hsame Hseq] [Hin | Hsame'].
  - unfold ContactExtractor.fakeSequences in Hin. cbn [map In] in Hin.
    destruct Hin as [<- | [<- | [<- | [<- | [<- | []]]]]];
      vm_compute in Hsame, Hseq; discriminate.
  - change DocumentParser.all_same_digit with ContactExtractor.all_same_digit in Hsame.
    congruence.
Qed.

Section WithHost.
Context {H : Host}.

(** C6.  No phone returned by [extractPhones] (the export of the contact
    extractor and the local function of the document parser) has as its
    digit sequence 1111111111, 1234567890, 0123456789, 9876543210,
    0000000000 or a single digit repeated; and [isValidPhone] rejects a
    candidate whose digits are such a sequence, whatever the candidate
    looks like. *)
Theorem extractPhones_never_fake :
  (forall phone digits, fake digits ->
     ContactExtractor.isValidPhone phone digits = false /\
     DocumentParser.isValidPhone phone digits = false) /\
  (forall text p,
     In p (ContactExtractor.extractPhonesFromText text) \/
     In p (DocumentParser.extractPhones text) ->
     ~ fake (digits_of p)).
Proof.
  split.
  - intros phone digits Hfake. split.
    + destruct (ContactExtractor.isValidPhone phone digits) eqn:E; [|reflexivity].
      apply Contact.isValidPhone_true in E. destruct E as [_ E].
      now apply contact_valid_not_fake in E.
    + destruct (DocumentParser.isValidPhone phone digits) eqn:E; [|reflexivity].
      apply Document.doc_isValidPhone_true in E. destruct E as [_ E].
      now apply document_valid_not_fake in E.
  - intros text p [Hin | Hin].
    + apply Contact.extractPhones_formatted in Hin.
      revert Hin. apply formatted_not_fake. exact contact_valid_not_fake.
    + apply Document.doc_extractPhones_formatted in Hin.
      revert Hin. apply formatted_not_fake. exact document_valid_not_fake.
Qed.


End WithHost.

Definition sample_text : jsstring :=
  js "Call 1234567890 or 1111111111, mobile: +91 98765 43210, tel 9898989898".

(** On a text with two fake numbers and two Indian numbers, the fakes are
    dropped. *)
Lemma extractPhones_never_fake_witness :
  ContactExtractor.extractPhonesFromText sample_text =
    map js ["+919898989898"; "+919876543210"]%string /\
  ~ fake (digits_of (js "+919876543210")) /\
  ContactExtractor.isValidPhone (js "1234567890") (js "1234567890") = false.
Proof.
  split; [vm_compute; reflexivity|]. split.
  - apply (proj2 extractPhones_never_fake sample_text). left. vm_compute. tauto.
  - apply (proj1 extractPhones_never_fake). left. vm_compute. tauto.
Defined.


End PhoneProps.

(** ** The text handed to the contact extractors *)

Module ContactProps.
Import ContactExtractor.

Lemma collapse_elements (p : N -> bool) (s : jsstring) (c : N) :
  In c (collapse p s) -> (In c s /\ p c = false) \/ c = 32%N.
Proof.
  induction s as [|x s IH]; cbn [collapse]; [intros []|].
  destruct (p x) eqn:Hx.
  - destruct s as [|y s'].
    + intros [<- | []]. now right.
    + destruct (p y) eqn:Hy.
      * intros Hc. apply IH in Hc. destruct Hc as [[Hc Hp] | ->]; [left | now right].
        split; [now right | assumption].
      * intros [<- | Hc]; [now right|].
        apply IH in Hc. destruct Hc as [[Hc Hp] | ->]; [left | now right].
        split; [now right | assumption].
  - intros [<- | Hc]; [left; split; [now left | assumption]|].
    apply IH in Hc. destruct Hc as [[Hc Hp] | ->]; [left | now right].
    split; [now right | assumption].
Qed.

Lemma trimStart_elements (s : jsstring) (c : N) : In c (trimStart s) -> In c s.
Proof.
  induction s as [|x s IH]; cbn [trimStart]; [intros []|].
  destruct (isSpace x); [intros Hc; right; now apply IH | trivial].
Qed.

Lemma trim_elements (s : jsstring) (c : N) : In c (trim s) -> In c s.
Proof.
  unfold trim, trimEnd. intros Hc. apply in_rev in Hc.
  apply trimStart_elements in Hc. apply in_rev in Hc.
  now apply trimStart_elements in Hc.
Qed.

(** The only white space left in the cleaned text is the space character. *)
Lemma cleanText_spaces (text : jsstring) (c : N) :
  In c (cleanText text) -> isSpace c = true -> c = 32%N.
Proof.
  unfold cleanText. intros Hc Hsp. apply trim_elements in Hc.
  apply collapse_elements in Hc. destruct Hc as [[Hc _] | ->]; [|reflexivity].
  apply collapse_elements in Hc. destruct Hc as [[_ Hp] | ->]; [congruence | reflexivity].
Qed.

(** The words of a text: its maximal runs of code units that are not white
    space, in the order of the text. *)
Fixpoint words (s : jsstring) : list jsstring :=
  match s with
  | [] => []
  | c :: s' =>
      if isSpace c then words s'
      else match s' with
           | [] => [[c]]
           | c' :: _ =>
               if isSpace c' then [c] :: words s'
               else match words s' with
                    | w :: ws => (c :: w) :: ws
                    | [] => [[c]]
                    end
           end
  end.

(** The words joined by single spaces. *)
Fixpoint unwords (ws : list jsstring) : jsstring :=
  match ws with
  | [] => []
  | w :: ws' =>
      match ws' with
      | [] => w
      | _ :: _ => w ++ 32%N :: unwords ws'
      end
  end.

Lemma words_space (c : N) (s : jsstring) :
  isSpace c = true -> words (c :: s) = words s.
Proof. intros Hc. cbn [words]. now rewrite Hc. Qed.

Lemma words_last (c : N) : isSpace c = false -> words [c] = [[c]].
Proof. intros Hc. cbn [words]. now rewrite Hc. Qed.

Lemma words_before_space (c c' : N) (s : jsstring) :
  isSpace c = false -> isSpace c' = true ->
  words (c :: c' :: s) = [c] :: words (c' :: s).
Proof. intros Hc Hc'. cbn [words]. now rewrite Hc, Hc'. Qed.

Lemma words_started (c : N) (s : jsstring) :
  isSpace c = false -> exists w ws, words (c :: s) = (c :: w) :: ws.
Proof.
  intros Hc. cbn [words]. rewrite Hc. destruct s as [|c' s']; [now exists [], []|].
  destruct (isSpace c'); [now exists [], (words (c' :: s'))|].
  destruct (words (c' :: s')) as [|w ws]; [now exists [], [] | now exists w, ws].
Qed.

Lemma words_inside (c c' : N) (s : jsstring) (w : jsstring) (ws : list jsstring) :
  isSpace c = false -> isSpace c' = false -> words (c' :: s) = w :: ws ->
  words (c :: c' :: s) = (c :: w) :: ws.
Proof.
  intros Hc Hc' Hw. change (words (c :: c' :: s))
    with (if isSpace c then words (c' :: s)
          else if isSpace c' then [c] :: words (c' :: s)
               else match words (c' :: s) with
                    | w :: ws => (c :: w) :: ws
                    | [] => [[c]]
                    end).
  now rewrite Hc, Hc', Hw.
Qed.

(** A word is not empty and holds no white space. *)
Definition word (w : jsstring) : Prop :=
  w <> [] /\ forall c, In c w -> isSpace c = false.

Lemma words_word (s : jsstring) : Forall word (words s).
Proof.
  induction s as [|c s IH]; [constructor|].
  destruct (isSpace c) eqn:Hc; [now rewrite words_space|].
  destruct s as [|c' s'].
  - rewrite words_last by exact Hc. constructor; [|constructor].
    split; [discriminate|]. now intros x [<- | []].
  - destruct (isSpace c') eqn:Hc'.
    + rewrite words_before_space by assumption. constructor; [|exact IH].
      split; [discriminate|]. now intros x [<- | []].
    + destruct (words_started c' s' Hc') as (w & ws & Hw).
      rewrite (words_inside c c' s' _ _ Hc Hc' Hw). rewrite Hw in IH.
      inversion IH as [|? ? [_ Hw'] Hws]; subst. constructor; [|exact Hws].
      split; [discriminate|]. intros x [<- | Hx]; [exact Hc | now apply Hw'].
Qed.

(** The words, one after the other, are the text without its white space. *)
Lemma words_concat (s : jsstring) :
  List.concat (words s) = filter (fun c => negb (isSpace c)) s.
Proof.
  induction s as [|c s IH]; [reflexivity|]. cbn [filter].
  destruct (isSpace c) eqn:Hc; cbn [negb]; [now rewrite words_space|].
  destruct s as [|c' s'].
  - now rewrite words_last.
  - destruct (isSpace c') eqn:Hc'.
    + rewrite words_before_space by assumption. cbn [List.concat app]. now rewrite IH.
    + destruct (words_started c' s' Hc') as (w & ws & Hw).
      rewrite (words_inside c c' s' _ _ Hc Hc' Hw). rewrite Hw in IH.
      cbn [List.concat app] in *. now rewrite IH.
Qed.

(** The second replacement of [cleanText] finds nothing to replace: after
    the first, every white space is a single space between two words. *)
Lemma collapse_again (s : jsstring) :
  collapse (fun c => isSpace c && negb (N.eqb c 13 || N.eqb c 10)) (collapse isSpace s) =
  collapse isSpace s.
Proof.
  set (p := fun c => isSpace c && negb (N.eqb c 13 || N.eqb c 10)).
  assert (Hp : forall c, isSpace c = false -> p c = false)
    by (intros c Hc; unfold p; now rewrite Hc).
  induction s as [|c s IH]; [reflexivity|].
  cbn [collapse]. destruct (isSpace c) eqn:Hc.
  - destruct s as [|c' s']; [reflexivity|].
    destruct (isSpace c') eqn:Hc'; [exact IH|].
    change (collapse isSpace (c' :: s')) with
      (if isSpace c' then
         match s' with
         | c'' :: _ => if isSpace c'' then collapse isSpace s' else 32%N :: collapse isSpace s'
         | [] => [32%N]
         end
       else c' :: collapse isSpace s') in *.
    rewrite Hc' in *.
    change (collapse p (32%N :: c' :: collapse isSpace s'))
      with (if p c' then collapse p (c' :: collapse isSpace s')
            else 32%N :: collapse p (c' :: collapse isSpace s')).
    rewrite (Hp c' Hc'). now rewrite IH.
  - cbn [collapse]. rewrite (Hp c Hc). now rewrite IH.
Qed.

(** The space in front of the first word, when the text starts with white
    space. *)
Definition lead (s : jsstring) : jsstring :=
  match s, words s with
  | c :: _, _ :: _ => if isSpace c then [32%N] else []
  | _, _ => []
  end.

Lemma collapse_space_space (c c' : N) (s : jsstring) :
  isSpace c = true -> isSpace c' = true ->
  collapse isSpace (c :: c' :: s) = collapse isSpace (c' :: s).
Proof.
  intros Hc Hc'.
  change (collapse isSpace (c :: c' :: s))
    with (if isSpace c then if isSpace c' then collapse isSpace (c' :: s)
                            else 32%N :: collapse isSpace (c' :: s)
          else c :: collapse isSpace (c' :: s)).
  now rewrite Hc, Hc'.
Qed.

Lemma collapse_space_word (c c' : N) (s : jsstring) :
  isSpace c = true -> isSpace c' = false ->
  collapse isSpace (c :: c' :: s) = 32%N :: collapse isSpace (c' :: s).
Proof.
  intros Hc Hc'.
  change (collapse isSpace (c :: c' :: s))
    with (if isSpace c then if isSpace c' then collapse isSpace (c' :: s)
                            else 32%N :: collapse isSpace (c' :: s)
          else c :: collapse isSpace (c' :: s)).
  now rewrite Hc, Hc'.
Qed.

Lemma collapse_word (c : N) (s : jsstring) :
  isSpace c = false -> collapse isSpace (c :: s) = c :: collapse isSpace s.
Proof. intros Hc. cbn [collapse]. now rewrite Hc. Qed.

Lemma unwords_cons (c : N) (w : jsstring) (ws : list jsstring) :
  unwords ((c :: w) :: ws) = c :: unwords (w :: ws).
Proof. destruct ws; reflexivity. Qed.

(** The first replacement: the words, one space between two of them, at
    most one space in front and white space only behind. *)
Lemma collapse_words (s : jsstring) :
  exists b, collapse isSpace s = lead s ++ unwords (words s) ++ b /\
            forallb isSpace b = true.
Proof.
  induction s as [|c s IH]; [now exists []|].
  destruct IH as (b & IH & Hb). destruct (isSpace c) eqn:Hc.
  - destruct s as [|c' s'].
    + exists [32%N]. split; [|reflexivity]. cbn. now rewrite Hc.
    + destruct (isSpace c') eqn:Hc'.
      * exists b. split; [|exact Hb].
        rewrite collapse_space_space, IH by assumption.
        unfold lead. rewrite (words_space c) by exact Hc. now rewrite Hc, Hc'.
      * exists b. split; [|exact Hb].
        rewrite collapse_space_word, IH by assumption.
        destruct (words_started c' s' Hc') as (w & ws & Hw).
        unfold lead. rewrite (words_space c) by exact Hc. rewrite Hw, Hc, Hc'.
        reflexivity.
  - rewrite collapse_word by exact Hc.
    assert (Hl : lead (c :: s) = []).
    { unfold lead. rewrite Hc. now destruct (words (c :: s)). }
    rewrite Hl. cbn [app]. destruct s as [|c' s'].
    + exists []. rewrite words_last by exact Hc. split; reflexivity.
    + rewrite IH. destruct (isSpace c') eqn:Hc'.
      * exists b. split; [|exact Hb].
        rewrite words_before_space by assumption. unfold lead. rewrite Hc'.
        destruct (words (c' :: s')) as [|w ws]; [reflexivity|].
        cbn [unwords app]. reflexivity.
      * exists b. split; [|exact Hb].
        destruct (words_started c' s' Hc') as (w & ws & Hw).
        rewrite (words_inside c c' s' _ _ Hc Hc' Hw).
        unfold lead. rewrite Hw, Hc'. cbn [app]. rewrite !unwords_cons. reflexivity.
Qed.

Lemma trimStart_spaces (a m : jsstring) :
  forallb isSpace a = true -> trimStart (a ++ m) = trimStart m.
Proof.
  induction a as [|x a IH]; [reflexivity|]. cbn [forallb app trimStart].
  rewrite andb_true_iff. intros [-> Ha]. now apply IH.
Qed.

Lemma forallb_rev (p : N -> bool) (l : jsstring) :
  forallb p l = true -> forallb p (rev l) = true.
Proof.
  rewrite !forallb_forall. intros Hl x Hx. apply Hl. now apply in_rev.
Qed.

(** Trimming a text framed by white space: what is in the frame, when it
    has no white space at either end. *)
Lemma trim_framed (a m b : jsstring) :
  forallb isSpace a = true -> forallb isSpace b = true ->
  match m with c :: _ => isSpace c = false | [] => True end ->
  match rev m with c :: _ => isSpace c = false | [] => True end ->
  trim (a ++ m ++ b) = m.
Proof.
  intros Ha Hb Hm Hr. unfold trim, trimEnd. rewrite trimStart_spaces by exact Ha.
  destruct m as [|x m'].
  - cbn [app]. rewrite <- (app_nil_r b), trimStart_spaces by exact Hb. reflexivity.
  - rewrite (trimStart_fixed ((x :: m') ++ b)) by exact Hm.
    rewrite rev_app_distr, trimStart_spaces by now apply forallb_rev.
    rewrite trimStart_fixed by exact Hr. apply rev_involutive.
Qed.

Lemma unwords_ends (ws : list jsstring) :
  Forall word ws ->
  match unwords ws with c :: _ => isSpace c = false | [] => True end /\
  match rev (unwords ws) with c :: _ => isSpace c = false | [] => True end.
Proof.
  induction 1 as [|w ws [Hne Hw] Hws [IH1 IH2]]; [now split|].
  destruct w as [|x w']; [congruence|].
  assert (Hlast : match rev (x :: w') with c :: _ => isSpace c = false | [] => True end).
  { pose proof (fun c (Hc : In c (rev (x :: w'))) => Hw c (proj2 (in_rev _ _) Hc)) as Hall.
    destruct (rev (x :: w')) as [|y r]; [exact I | apply Hall; now left]. }
  destruct ws as [|w2 r].
  - cbn [unwords]. split; [apply Hw; now left | exact Hlast].
  - change (unwords ((x :: w') :: w2 :: r))
      with ((x :: w') ++ 32%N :: unwords (w2 :: r)).
    split; [apply Hw; now left|].
    rewrite rev_app_distr. cbn [rev]. rewrite <- !app_assoc.
    assert (Hu : unwords (w2 :: r) <> []).
    { inversion Hws as [|? ? [Hne2 _] _]; subst.
      destruct w2; [congruence|]. rewrite unwords_cons. discriminate. }
    destruct (rev (unwords (w2 :: r))) as [|y t] eqn:Er.
    + exfalso. apply Hu. apply (f_equal (@rev N)) in Er.
      now rewrite rev_involutive in Er.
    + exact IH2.
Qed.

(** The cleaned text is the words of the text with one space between two
    of them. *)
Lemma cleanText_words (text : jsstring) :
  cleanText text = unwords (words text).
Proof.
  unfold cleanText. rewrite collapse_again.
  destruct (collapse_words text) as (b & -> & Hb).
  destruct (unwords_ends (words text) (words_word text)) as [H1 H2].
  apply trim_framed; try assumption.
  unfold lead. destruct text as [|c t]; [reflexivity|].
  destruct (words (c :: t)); [reflexivity|]. now destruct (isSpace c).
Qed.

Section WithHost.
Context {H : Host}.

(** C10.  [extractContactInfo] hands the extractors a text in which every
    run of white space, newlines included, has become one space: the
    cleaned text is the words of the input (its maximal runs without white
    space, which together are the input without its white space) with one
    space between two of them.  The text has no newline, its split into
    lines is the text itself as one line, and so the keyword-proximity
    scans (a keyword line and the next two) and the header scans (the
    first 30 lines) of both extractors work on the whole document as a
    single line. *)
Theorem extractContactInfo_single_line (text : jsstring) :
  let ct := cleanText text in
  extractContactInfo text =
    {| email := hd [] (extractEmailsFromText ct);
       phone := hd [] (extractPhonesFromText ct) |} /\
  ct = unwords (words text) /\
  Forall word (words text) /\
  List.concat (words text) = filter (fun c => negb (isSpace c)) text /\
  (forall c, In c ct -> isSpace c = true -> c = 32%N) /\
  ~ In 10%N ct /\
  split_char 10 ct = [ct] /\
  (forall emails,
     emailKeywordScan (split_char 10 ct) emails =
       if test flag_i emailKeyword (toLowerCase ct)
       then fold_left (fun emails m => add_email emails (matched m))
              (matchAll no_flags emailRegex1 ct) emails
       else emails) /\
  (forall emails,
     emailHeaderScan (split_char 10 ct) emails =
       fold_left (fun emails m => add_email emails (matched m))
         (matchAll no_flags emailRegex1 ct) emails) /\
  keywordCandidates (split_char 10 ct) =
    (if test flag_i phoneKeyword (toLowerCase ct)
     then match match_g no_flags (times 10 20 (RClass phone_char)) ct with
          | Some digitMatches => digitMatches
          | None => []
          end
     else []) /\
  headerCandidates (split_char 10 ct) =
    match match_g no_flags (rseq [RWordB; times 10 10 d; RWordB]) ct with
    | Some potentialPhones => potentialPhones
    | None => []
    end.
Proof.
  intros ct.
  assert (Hsp : forall c, In c ct -> isSpace c = true -> c = 32%N)
    by apply cleanText_spaces.
  assert (Hnl : ~ In 10%N ct).
  { intros Hin. apply Hsp in Hin; [discriminate | reflexivity]. }
  assert (Hlines : split_char 10 ct = [ct]) by now apply split_char_absent.
  split; [reflexivity|]. split; [apply cleanText_words|].
  split; [apply words_word|]. split; [apply words_concat|].
  split; [exact Hsp|]. split; [exact Hnl|].
  split; [exact Hlines|]. rewrite Hlines.
  split; [|split; [|split]].
  - intros emails. unfold emailKeywordScan.
    cbn [List.length List.seq fold_left nth Nat.add Nat.min Nat.sub].
    destruct (test flag_i emailKeyword (toLowerCase ct)); reflexivity.
  - intros emails. reflexivity.
  - unfold keywordCandidates.
    cbn [List.length List.seq flat_map nth Nat.add Nat.min Nat.sub].
    destruct (test flag_i phoneKeyword (toLowerCase ct)); [|reflexivity].
    cbn [List.length List.seq flat_map nth Nat.add Nat.min Nat.sub app].
    now rewrite !app_nil_r.
  - unfold headerCandidates. cbn [firstn flat_map]. now rewrite app_nil_r.
Qed.

End WithHost.

(** A header of four lines, with blank lines and a tab in it. *)
Definition contact_sample : jsstring :=
  js "Jane Roe" ++ [10%N] ++ js "E-mail:" ++ [13%N; 10%N; 10%N; 9%N] ++
  js " jane.roe@acme.org  " ++ [10%N] ++ js "Tel 98450 12345" ++ [10%N].

(** The six lines of the sample reach the extractors as one line. *)
Lemma extractContactInfo_single_line_witness :
  List.length (split_char 10 contact_sample) = 6%nat /\
  cleanText contact_sample =
    js "Jane Roe E-mail: jane.roe@acme.org Tel 98450 12345" /\
  split_char 10 (cleanText contact_sample) = [cleanText contact_sample] /\
  extractContactInfo (H := ascii_host) contact_sample =
    {| email := js "jane.roe@acme.org"; phone := js "+919845012345" |}.
Proof.
  pose proof (extractContactInfo_single_line (H := ascii_host) contact_sample) as Hc.
  cbv zeta in Hc.
  destruct Hc as (Hinfo & Hwords & _ & _ & _ & _ & Hlines & _).
  split; [vm_compute; reflexivity|].
  split; [rewrite Hwords; vm_compute; reflexivity|].
  split; [exact Hlines|].
  rewrite Hinfo. vm_compute. reflexivity.
Defined.

End ContactProps.

(** ** Email validation *)

Module EmailProps.
Import ContactExtractor.

Lemma count_char_nil_iff (c : N) (s : jsstring) :
  count_char c s = O <-> ~ In c s.
Proof.
  unfold count_char. induction s as [|x s IH]; cbn [filter List.length In].
  - tauto.
  - destruct (N.eqb_spec c x) as [-> | Hne]; cbn [List.length].
    + split; [discriminate | intros Hn; exfalso; apply Hn; now left].
    + rewrite IH. intuition congruence.
Qed.

Lemma count_char_app (c : N) (a b : jsstring) :
  count_char c (a ++ b) = count_char c a + count_char c b.
Proof. unfold count_char. now rewrite filter_app, length_app. Qed.

Lemma count_char_here (c : N) (s : jsstring) :
  count_char c (c :: s) = S (count_char c s).
Proof. unfold count_char. cbn [filter]. now rewrite N.eqb_refl. Qed.

Lemma split_char_app (c : N) (l d : jsstring) :
  ~ In c l -> split_char c (l ++ c :: d) = l :: split_char c d.
Proof.
  induction l as [|x l IH]; intros Hl; cbn [app split_char].
  - now rewrite N.eqb_refl.
  - destruct (N.eqb_spec x c) as [-> | Hne]; [exfalso; apply Hl; now left|].
    rewrite IH; [reflexivity | intros Hin; apply Hl; now right].
Qed.

(** A string with exactly one [c] splits around it. *)
Lemma count_one_split (c : N) (s : jsstring) :
  count_char c s = 1 ->
  exists l d, s = l ++ c :: d /\ ~ In c l /\ ~ In c d.
Proof.
  induction s as [|x s IH]; [discriminate|].
  destruct (N.eqb_spec c x) as [<- | Hne].
  - rewrite count_char_here. intros E. injection E as E.
    exists [], s. split; [reflexivity|]. split; [intros []|].
    now apply count_char_nil_iff.
  - unfold count_char in *. cbn [filter].
    destruct (N.eqb_spec c x) as [-> | _]; [congruence|].
    intros E. destruct (IH E) as (l & d & -> & Hl & Hd).
    exists (x :: l), d. split; [reflexivity|]. split; [|assumption].
    intros [-> | Hin]; [congruence | contradiction].
Qed.

Lemma one_at_split (c : N) (l d : jsstring) :
  ~ In c l -> ~ In c d ->
  count_char c (l ++ c :: d) = 1 /\ split_char c (l ++ c :: d) = [l; d].
Proof.
  intros Hl Hd. split.
  - rewrite count_char_app, count_char_here.
    apply count_char_nil_iff in Hl, Hd. lia.
  - rewrite split_char_app by assumption.
    now rewrite split_char_absent.
Qed.

Lemma startsWith_In (s p : jsstring) (c : N) :
  startsWith s p = true -> In c p -> In c s.
Proof.
  revert s. induction p as [|y p IH]; intros s; [intros _ []|].
  destruct s as [|x s]; cbn [startsWith]; [discriminate|].
  rewrite andb_true_iff, N.eqb_eq. intros [-> Hs] [-> | Hc]; [now left|].
  right. now apply IH.
Qed.

Lemma includes_In (s p : jsstring) (c : N) :
  includes s p = true -> In c p -> In c s.
Proof.
  induction s as [|x s IH]; cbn [includes]; rewrite orb_true_iff.
  - intros [Hs | Hs] Hc; [now apply (startsWith_In _ _ c Hs) | discriminate].
  - intros [Hs | Hs] Hc; [now apply (startsWith_In _ _ c Hs)|]. right. now apply IH.
Qed.

Lemma includes_absent (s p : jsstring) (c : N) :
  In c p -> ~ In c s -> includes s p = false.
Proof.
  intros Hp Hs. destruct (includes s p) eqn:E; [|reflexivity].
  exfalso. apply Hs. now apply (includes_In _ _ c E).
Qed.

Lemma includes_one (s : jsstring) (c : N) : includes s [c] = true <-> In c s.
Proof.
  split; [intros E; apply (includes_In _ _ c E); now left|].
  induction s as [|x s IH]; [intros []|].
  cbn [includes startsWith]. intros [-> | Hin].
  - now rewrite N.eqb_refl.
  - rewrite (IH Hin). apply orb_true_r.
Qed.

Lemma endsWith_one_snoc (s : jsstring) (x c : N) :
  endsWith (s ++ [x]) [c] = N.eqb x c.
Proof.
  unfold endsWith. rewrite rev_app_distr. cbn. apply andb_true_r.
Qed.

Lemma endsWith_one_cons (s : jsstring) (x y c : N) :
  endsWith (x :: y :: s) [c] = endsWith (y :: s) [c].
Proof.
  destruct (exists_last (l := y :: s)) as (s' & z & E); [discriminate|].
  rewrite E. change (x :: s' ++ [z]) with ((x :: s') ++ [z]).
  now rewrite !endsWith_one_snoc.
Qed.

(** With no other [@] around, "@." occurs exactly when the domain starts
    with a dot, and ".@" exactly when the local part ends with one. *)
Lemma includes_at_dot (l d : jsstring) :
  ~ In at_sign l -> ~ In at_sign d ->
  includes (l ++ at_sign :: d) [at_sign; dot] = startsWith d [dot].
Proof.
  intros Hl Hd. induction l as [|x l IH]; cbn [app includes].
  - rewrite (includes_absent d [at_sign; dot] at_sign); [|now left | assumption].
    cbn [startsWith]. rewrite N.eqb_refl, orb_false_r. reflexivity.
  - rewrite IH by (intros Hin; apply Hl; now right).
    cbn [startsWith]. destruct (N.eqb_spec x at_sign) as [-> | _];
      [exfalso; apply Hl; now left | reflexivity].
Qed.

Lemma includes_dot_at (l d : jsstring) :
  ~ In at_sign l -> ~ In at_sign d ->
  includes (l ++ at_sign :: d) [dot; at_sign] = endsWith l [dot].
Proof.
  intros Hl Hd. induction l as [|x l IH]; cbn [app includes].
  - rewrite (includes_absent d [dot; at_sign] at_sign); [|now right; left | assumption].
    reflexivity.
  - rewrite IH by (intros Hin; apply Hl; now right).
    destruct l as [|y l]; cbn [app startsWith].
    + rewrite N.eqb_refl. cbn. now rewrite orb_false_r, !andb_true_r.
    + destruct (N.eqb_spec y at_sign) as [-> | _];
        [exfalso; apply Hl; right; now left|].
      rewrite andb_false_r, (endsWith_one_cons l x y dot). reflexivity.
Qed.

Lemma split_char_nonempty (c : N) (s : jsstring) : split_char c s <> [].
Proof.
  induction s as [|x s IH]; cbn [split_char]; [discriminate|].
  destruct (N.eqb x c); [discriminate|]. destruct (split_char c s); discriminate.
Qed.

Lemma split_char_length (c : N) (s : jsstring) :
  In c s -> 2 <= List.length (split_char c s).
Proof.
  induction s as [|x s IH]; [intros []|]. cbn [split_char].
  destruct (N.eqb_spec x c) as [-> | Hne].
  - intros _. pose proof (split_char_nonempty c s) as Hne.
    destruct (split_char c s); [congruence | cbn [List.length]; lia].
  - intros [-> | Hin]; [congruence|]. specialize (IH Hin).
    destruct (split_char c s); cbn [List.length] in *; lia.
Qed.

(** *** The validation rules as the specification lists them *)

Record well_formed (localPart domain : jsstring) : Prop := {
  (* length 5-100 *)
  wf_length : 5 <= List.length (localPart ++ at_sign :: domain) <= 100;
  (* exactly one @ *)
  wf_one_at : ~ In at_sign localPart /\ ~ In at_sign domain;
  (* local part 1-64 chars, charset [A-Za-z0-9._%-] *)
  wf_local_length : 1 <= List.length localPart <= 64;
  wf_local_charset : forallb local_char localPart = true;
  (* no leading/trailing/doubled dot *)
  wf_local_dots :
    startsWith localPart [dot] = false /\ endsWith localPart [dot] = false /\
    includes localPart [dot; dot] = false;
  (* domain 1-255 chars *)
  wf_domain_length : 1 <= List.length domain <= 255;
  (* no leading/trailing dot or hyphen *)
  wf_domain_edges :
    startsWith domain [dot] = false /\ endsWith domain [dot] = false /\
    startsWith domain (js "-") = false /\ endsWith domain (js "-") = false;
  (* no doubled dot, at least one dot *)
  wf_domain_dots : includes domain [dot; dot] = false /\ In dot domain;
  (* final label >= 2 chars *)
  wf_final_label : 2 <= List.length (last (split_char dot domain) []);
  (* no whitespace anywhere *)
  wf_no_space : existsb isSpace (localPart ++ at_sign :: domain) = false
}.

(** The placeholder filter of the code: the address ends with one of the
    placeholder names. *)
Definition placeholder_suffix (email : jsstring) : bool :=
  existsb (fun invalidDomain => endsWith email invalidDomain) invalidDomains.

Lemma placeholder_filter (email localPart : jsstring) :
  existsb (fun invalidDomain =>
             endsWith email invalidDomain && (List.length localPart <? 3))
    invalidDomains =
  placeholder_suffix email && (List.length localPart <? 3).
Proof.
  unfold placeholder_suffix.
  induction invalidDomains as [|x l IH]; cbn [existsb]; [reflexivity|].
  rewrite IH. destruct (endsWith email x), (List.length localPart <? 3),
    (existsb (fun invalidDomain => endsWith email invalidDomain) l); reflexivity.
Qed.

Lemma at_not_local_char (l : jsstring) :
  forallb local_char l = true -> ~ In at_sign l.
Proof.
  intros Hall Hin. rewrite forallb_forall in Hall. apply Hall in Hin. discriminate.
Qed.

(** [isValidEmail] on an address with one [@], as a conjunction of its
    checks. *)
Lemma isValidEmail_split (l d : jsstring) :
  ~ In at_sign l -> ~ In at_sign d ->
  isValidEmail (l ++ at_sign :: d) =
    negb ((List.length (l ++ at_sign :: d) <? 5) || (100 <? List.length (l ++ at_sign :: d))) &&
    negb ((List.length l =? 0) || (64 <? List.length l)) &&
    negb (startsWith l [dot] || endsWith l [dot]) &&
    negb (includes l [dot; dot]) &&
    forallb local_char l &&
    negb ((List.length d =? 0) || (255 <? List.length d)) &&
    negb (startsWith d [dot] || endsWith d [dot] ||
          startsWith d (js "-") || endsWith d (js "-")) &&
    negb (includes d [dot; dot]) &&
    includes d [dot] &&
    negb (List.length (last (split_char dot d) []) <? 2) &&
    negb (existsb isSpace (l ++ at_sign :: d)) &&
    negb (placeholder_suffix (l ++ at_sign :: d) && (List.length l <? 3)).
Proof.
  intros Hl Hd. unfold isValidEmail.
  destruct (one_at_split at_sign l d Hl Hd) as [Hcount Hsplit].
  rewrite Hcount, Hsplit. cbn [Nat.eqb negb].
  rewrite includes_at_dot, includes_dot_at, placeholder_filter by assumption.
  destruct (_ || _); [reflexivity|]. cbn [negb andb].
  destruct (_ || _); [reflexivity|]. cbn [negb andb].
  destruct (startsWith l [dot]) eqn:E1; [reflexivity|].
  destruct (endsWith l [dot]) eqn:E2; [reflexivity|]. cbn [orb negb andb].
  destruct (includes l [dot; dot]); [reflexivity|]. cbn [negb andb].
  destruct (forallb local_char l); [|reflexivity]. cbn [negb andb].
  destruct (_ || _); [reflexivity|]. cbn [negb andb].
  destruct (startsWith d [dot]) eqn:E3; [reflexivity|]. cbn [orb].
  destruct (_ || _); [reflexivity|]. cbn [negb andb].
  destruct (includes d [dot; dot]); [reflexivity|]. cbn [negb andb].
  destruct (includes d [dot]) eqn:Hdot; [|reflexivity]. cbn [negb andb].
  apply includes_one in Hdot. apply split_char_length in Hdot.
  apply Nat.ltb_ge in Hdot. rewrite Hdot. clear Hdot.
  destruct (List.length (last (split_char dot d) []) <? 2); [reflexivity|].
  cbn [negb andb].
  destruct (existsb isSpace (l ++ at_sign :: d)); [reflexivity|]. cbn [negb andb orb].
  destruct (placeholder_suffix (l ++ at_sign :: d) && (List.length l <? 3));
    reflexivity.
Qed.


Lemma isValidEmail_one_at (email : jsstring) :
  isValidEmail email = true -> count_char at_sign email = 1.
Proof.
  unfold isValidEmail. destruct (_ || _); [discriminate|].
  destruct (count_char at_sign email =? 1) eqn:E; [|discriminate].
  intros _. now apply Nat.eqb_eq.
Qed.

Lemma isValidEmail_well_formed (l d : jsstring) :
  ~ In at_sign l -> ~ In at_sign d ->
  (isValidEmail (l ++ at_sign :: d) = true <->
   well_formed l d /\
   ~ (placeholder_suffix (l ++ at_sign :: d) = true /\ List.length l < 3)).
Proof.
  intros Hl Hd. rewrite isValidEmail_split by assumption. split.
  - intros Hv.
    rewrite !andb_true_iff in Hv. rewrite !negb_true_iff in Hv.
    rewrite !orb_false_iff in Hv.
    destruct Hv as ((((((((((([H1 H1b] & [H2 H2b]) & [H3 H3b]) & H4) & H5) &
                        [H6 H6b]) & [[[H7 H7b] H7c] H7d]) & H8) & H9) & H10) &
                        H11) & H12).
    apply Nat.ltb_ge in H1, H1b, H2b, H6b, H10. apply Nat.eqb_neq in H2, H6.
    apply includes_one in H9.
    split.
    + constructor; try tauto; try lia.
    + intros [Hp Hshort]. apply Nat.ltb_lt in Hshort.
      rewrite Hp, Hshort in H12. discriminate.
  - intros [[Wlen [_ _] Wll Wlc (Wl1 & Wl2 & Wl3) Wdl (Wd1 & Wd2 & Wd3 & Wd4)
              [Wdd Wdot] Wfin Wsp] Hph].
    apply includes_one in Wdot.
    rewrite Wlc, Wl1, Wl2, Wl3, Wd1, Wd2, Wd3, Wd4, Wdd, Wdot, Wsp.
    replace (List.length (l ++ at_sign :: d) <? 5) with false
      by (symmetry; apply Nat.ltb_ge; lia).
    replace (100 <? List.length (l ++ at_sign :: d)) with false
      by (symmetry; apply Nat.ltb_ge; lia).
    replace (List.length l =? 0) with false by (symmetry; apply Nat.eqb_neq; lia).
    replace (64 <? List.length l) with false by (symmetry; apply Nat.ltb_ge; lia).
    replace (List.length d =? 0) with false by (symmetry; apply Nat.eqb_neq; lia).
    replace (255 <? List.length d) with false by (symmetry; apply Nat.ltb_ge; lia).
    replace (List.length (last (split_char dot d) []) <? 2) with false
      by (symmetry; apply Nat.ltb_ge; lia).
    cbn [negb andb orb].
    destruct (placeholder_suffix (l ++ at_sign :: d)) eqn:Hp; [|reflexivity].
    destruct (List.length l <? 3) eqn:Hs; [|reflexivity].
    exfalso. apply Hph. split; [reflexivity | now apply Nat.ltb_lt].
Qed.

(** The placeholder rule as the specification states it: a well-formed
    address is rejected exactly when its domain is a known placeholder and
    its local part is shorter than 3 characters. *)
Definition placeholder_rule_as_stated (localPart domain : jsstring) : Prop :=
  well_formed localPart domain ->
  (isValidEmail (localPart ++ at_sign :: domain) = false <->
   In domain invalidDomains /\ List.length localPart < 3).

(** "ab@myexample.com" is well-formed and its domain is not a placeholder,
    yet the address is rejected: it ends with "example.com". *)
Lemma placeholder_rule_counterexample :
  js "ab" ++ at_sign :: js "myexample.com" = js "ab@myexample.com" /\
  isValidEmail (js "ab@myexample.com") = false /\
  ~ placeholder_rule_as_stated (js "ab") (js "myexample.com").
Proof.
  split; [reflexivity|]. split; [vm_compute; reflexivity|].
  intros Hrule.
  assert (Hwf : well_formed (js "ab") (js "myexample.com")).
  { constructor; vm_compute; repeat split; try lia; try reflexivity;
      intuition discriminate. }
  destruct (proj1 (Hrule Hwf)) as [Hin _]; [vm_compute; reflexivity|].
  vm_compute in Hin. intuition discriminate.
Qed.

(** C8, amended.  [isValidEmail] accepts exactly the addresses
    [local@domain] that satisfy the validation rules and do not fall under
    the placeholder filter, which rejects an address whose local part is
    shorter than 3 characters when the address ends with a placeholder name
    (example.com, test.com, ...), whether or not that name is the whole
    domain.  In particular it rejects any string with white space, any
    string without exactly one "@", any string of length outside 5-100 and
    any address whose local part exceeds 64 or whose domain exceeds 255
    characters. *)
Theorem isValidEmail_characterised (email : jsstring) :
  (isValidEmail email = true <->
   exists localPart domain,
     email = localPart ++ at_sign :: domain /\
     well_formed localPart domain /\
     ~ (placeholder_suffix email = true /\ List.length localPart < 3)) /\
  (existsb isSpace email = true -> isValidEmail email = false) /\
  (count_char at_sign email <> 1 -> isValidEmail email = false) /\
  (List.length email < 5 \/ 100 < List.length email -> isValidEmail email = false) /\
  (forall localPart domain,
     email = localPart ++ at_sign :: domain ->
     64 < List.length localPart \/ 255 < List.length domain ->
     isValidEmail email = false).
Proof.
  assert (Hinv : isValidEmail email = true ->
                 exists l d, email = l ++ at_sign :: d /\ well_formed l d /\
                   ~ (placeholder_suffix email = true /\ List.length l < 3)).
  { intros Hv. pose proof (isValidEmail_one_at _ Hv) as Hone.
    destruct (count_one_split _ _ Hone) as (l & d & -> & Hl & Hd).
    exists l, d. split; [reflexivity|]. now apply isValidEmail_well_formed. }
  split; [split; [exact Hinv|]|].
  { intros (l & d & -> & Hwf & Hph).
    apply isValidEmail_well_formed; try (split; assumption); apply (wf_one_at _ _ Hwf). }
  split; [|split; [|split]].
  - intros Hsp. destruct (isValidEmail email) eqn:Hv; [|reflexivity].
    destruct (Hinv eq_refl) as (l & d & -> & Hwf & _).
    rewrite (wf_no_space _ _ Hwf) in Hsp. discriminate.
  - intros Hc. destruct (isValidEmail email) eqn:Hv; [|reflexivity].
    now apply isValidEmail_one_at in Hv.
  - intros Hlen. destruct (isValidEmail email) eqn:Hv; [|reflexivity].
    destruct (Hinv eq_refl) as (l & d & -> & Hwf & _).
    pose proof (wf_length _ _ Hwf). lia.
  - intros l d -> Hlong. destruct (isValidEmail (l ++ at_sign :: d)) eqn:Hv;
      [|reflexivity].
    pose proof (isValidEmail_one_at _ Hv) as Hone.
    rewrite count_char_app, count_char_here in Hone.
    assert (Hl : ~ In at_sign l) by (apply count_char_nil_iff; lia).
    assert (Hd : ~ In at_sign d) by (apply count_char_nil_iff; lia).
    apply isValidEmail_well_formed in Hv; try assumption.
    destruct Hv as [Hwf _].
    pose proof (wf_length _ _ Hwf) as Hlen. pose proof (wf_local_length _ _ Hwf).
    rewrite length_app in Hlen. cbn [List.length] in Hlen. lia.
Qed.

(** "jo@site.org" is accepted; "ab@example.com" and "ab@myexample.com" are
    rejected by the placeholder filter; "abc@myexample.com" is accepted. *)
Lemma isValidEmail_characterised_witness :
  isValidEmail (js "jo@site.org") = true /\
  isValidEmail (js "ab@example.com") = false /\
  isValidEmail (js "abc@myexample.com") = true /\
  isValidEmail (js "a b@site.org") = false.
Proof.
  split; [|split; [|split]].
  - apply (proj1 (isValidEmail_characterised (js "jo@site.org"))).
    exists (js "jo"), (js "site.org"). split; [reflexivity|]. split.
    + constructor; vm_compute; repeat split; try lia; try reflexivity;
        intuition discriminate.
    + vm_compute. intuition discriminate.
  - vm_compute. reflexivity.
  - vm_compute. reflexivity.
  - apply (proj1 (proj2 (isValidEmail_characterised (js "a b@site.org")))).
    vm_compute. reflexivity.
Defined.

End EmailProps.

(** ** Numbers *)

Module NumberProps.
Import JSNumber.
Local Open Scope Z_scope.




Lemma log2_le_pow (a k : Z) : 0 < a -> a < 2 ^ k -> 0 <= k -> Z.log2 a < k.
Proof. intros Ha Hlt Hk. now apply Z.log2_lt_pow2. Qed.



End NumberProps.

(** ** The skill matcher *)

Module SkillMatchProps.
Import SkillMatch.

(** A recorded match with the required skill it is about. *)
Definition entry := (nat * tier * jsstring)%type.
Definition ev (x : entry) : event := fst x.
Definition sk (x : entry) : jsstring := snd x.

(** A loop over the required skills, numbered from [k]. *)
Definition pass (step : state -> nat * jsstring -> state) (l : list jsstring)
    (k : nat) (st : state) : state :=
  fold_left step (combine (List.seq k (List.length l)) l) st.

Lemma pass_cons step r l k st :
  pass step (r :: l) k st = pass step l (S k) (step st (k, r)).
Proof. reflexivity. Qed.

(** A loop that skips the skills already matched and lets [dec] decide the
    tier of the others. *)
Definition check_step (dec : jsstring -> option tier) (st : state)
    (ir : nat * jsstring) : state :=
  let '(i, r) := ir in
  if has st r then st
  else match dec r with
       | Some t => record_match i t r st
       | None => st
       end.

Lemma has_In st r : has st r = true <-> In r (matchedSkills st).
Proof. apply arr_includes_In. Qed.

Lemma nth_error_shift (r : jsstring) (l : list jsstring) (i k : nat) :
  S k <= i -> nth_error (r :: l) (i - k) = nth_error l (i - S k).
Proof.
  intros Hi. replace (i - k) with (S (i - S k)) by lia. reflexivity.
Qed.

Lemma check_pass (dec : jsstring -> option tier) (l : list jsstring) :
  forall k st, exists new : list entry,
    let st' := pass (check_step dec) l k st in
    log st' = log st ++ map ev new /\
    matchCount st' = matchCount st + List.length new /\
    matchedSkills st' = matchedSkills st ++ map sk new /\
    (forall i t r, In (i, t, r) new ->
       k <= i < k + List.length l /\ nth_error l (i - k) = Some r /\
       dec r = Some t /\ ~ In r (matchedSkills st)) /\
    NoDup (map sk new) /\
    (forall r, In r l -> dec r <> None -> In r (matchedSkills st')).
Proof.
  induction l as [|r l IH]; intros k st.
  - exists []. cbn. rewrite !app_nil_r. repeat split; try tauto; try lia.
    constructor.
  - rewrite pass_cons. unfold check_step at 2.
    destruct (has st r) eqn:Hhas; [|destruct (dec r) as [t|] eqn:Hdec].
    + destruct (IH (S k) st) as (new & Hlog & Hcount & Hm & Hnew & Hnd & Hall).
      exists new. cbn zeta in *. repeat split; try assumption.
      * apply Hnew in H. cbn [List.length]. lia.
      * apply Hnew in H. cbn [List.length]. lia.
      * destruct (Hnew _ _ _ H) as (Hi & Hn & _). rewrite nth_error_shift; [exact Hn | lia].
      * apply (Hnew _ _ _ H).
      * apply (Hnew _ _ _ H).
      * intros x [<- | Hx] Hd; [|now apply Hall].
        rewrite Hm. apply in_or_app. left. now apply has_In.
    + assert (Hnot : ~ In r (matchedSkills st)).
      { intros Hin. apply has_In in Hin. congruence. }
      destruct (IH (S k) (record_match k t r st))
        as (new & Hlog & Hcount & Hm & Hnew & Hnd & Hall).
      cbn zeta in *.
      assert (Hset : matchedSkills (record_match k t r st) = matchedSkills st ++ [r]).
      { cbn. unfold set_add. fold (has st r). now rewrite Hhas. }
      exists ((k, t, r) :: new). repeat split.
      * rewrite Hlog. cbn. now rewrite <- app_assoc.
      * rewrite Hcount. cbn. lia.
      * rewrite Hm, Hset. cbn. now rewrite <- app_assoc.
      * destruct H as [E | H]; [injection E as <- <- <-; lia|].
        apply Hnew in H. lia.
      * destruct H as [E | H]; [injection E as <- <- <-; cbn [List.length]; lia|].
        apply Hnew in H. cbn [List.length]. lia.
      * destruct H as [E | H].
        -- injection E as <- <- <-. now rewrite Nat.sub_diag.
        -- destruct (Hnew _ _ _ H) as (Hi & Hn & _).
           rewrite nth_error_shift; [exact Hn | lia].
      * destruct H as [E | H]; [now injection E as <- <- <-|]. apply (Hnew _ _ _ H).
      * destruct H as [E | H]; [now injection E as <- <- <-|].
        destruct (Hnew _ _ _ H) as (_ & _ & _ & Hn).
        intros Hin. apply Hn. rewrite Hset. apply in_or_app. now left.
      * cbn [map]. constructor; [|assumption].
        intros Hin. apply in_map_iff in Hin. destruct Hin as ([[i t'] r'] & E & Hin).
        cbn in E. subst r'. destruct (Hnew _ _ _ Hin) as (_ & _ & _ & Hn).
        apply Hn. rewrite Hset. apply in_or_app. right. now left.
      * intros x [<- | Hx] Hd; [|now apply Hall].
        rewrite Hm, Hset. apply in_or_app. left. apply in_or_app. right. now left.
    + destruct (IH (S k) st) as (new & Hlog & Hcount & Hm & Hnew & Hnd & Hall).
      exists new. cbn zeta in *. repeat split; try assumption.
      * apply Hnew in H. cbn [List.length]. lia.
      * apply Hnew in H. cbn [List.length]. lia.
      * destruct (Hnew _ _ _ H) as (Hi & Hn & _). rewrite nth_error_shift; [exact Hn | lia].
      * apply (Hnew _ _ _ H).
      * apply (Hnew _ _ _ H).
      * intros x [<- | Hx] Hd; [congruence | now apply Hall].
Qed.


(** The elements a checked pass adds: the required skills that [dec]
    accepts and that were not matched before. *)
Lemma check_pass_elements (dec : jsstring -> option tier) (l : list jsstring)
    (k : nat) (st : state) (new : list entry) :
  matchedSkills (pass (check_step dec) l k st) = matchedSkills st ++ map sk new ->
  (forall i t r, In (i, t, r) new ->
     k <= i < k + List.length l /\ nth_error l (i - k) = Some r /\
     dec r = Some t /\ ~ In r (matchedSkills st)) ->
  (forall r, In r l -> dec r <> None ->
     In r (matchedSkills (pass (check_step dec) l k st))) ->
  forall x, In x (map sk new) <->
            In x l /\ dec x <> None /\ ~ In x (matchedSkills st).
Proof.
  intros Hm Hnew Hall x. split.
  - intros Hin. apply in_map_iff in Hin. destruct Hin as ([[i t] r] & E & Hin).
    cbn in E. subst r. destruct (Hnew _ _ _ Hin) as (_ & Hn & Hd & Hnot).
    split; [now apply nth_error_In in Hn|]. split; [congruence | assumption].
  - intros (Hl & Hd & Hnot). specialize (Hall x Hl Hd). rewrite Hm in Hall.
    apply in_app_or in Hall. tauto.
Qed.

(** Distinct skills recorded at the positions they occupy have distinct
    positions. *)
Lemma distinct_indices (l : list jsstring) (k : nat) (new : list entry) :
  (forall i t r, In (i, t, r) new -> k <= i /\ nth_error l (i - k) = Some r) ->
  NoDup (map sk new) -> NoDup (map (fun x => fst (ev x)) new).
Proof.
  induction new as [|[[i t] r] new IH]; intros Hnew Hnd; cbn [map]; [constructor|].
  cbn [map] in Hnd. inversion Hnd as [|? ? Hnot Hnd']; subst.
  constructor.
  - intros Hin. apply in_map_iff in Hin. destruct Hin as ([[i' t'] r'] & E & Hin).
    cbn in E. subst i'. apply Hnot. apply in_map_iff. exists (i, t', r').
    split; [|assumption]. cbn.
    destruct (Hnew i t r (or_introl eq_refl)) as [_ E1].
    destruct (Hnew i t' r' (or_intror Hin)) as [_ E2]. congruence.
  - apply IH; [|assumption]. intros i' t' r' Hin. apply (Hnew i' t' r'). now right.
Qed.

Section Passes.
Variable cands : list jsstring.

(** The first loop records every required skill that is a candidate skill,
    at its position. *)
Lemma exact_pass (l : list jsstring) :
  forall k st, exists new : list entry,
    let st' := pass (exact_step cands) l k st in
    log st' = log st ++ map ev new /\
    matchCount st' = matchCount st + List.length new /\
    (forall x, In x (matchedSkills st') <->
               In x (matchedSkills st) \/ (In x l /\ exact_match cands x = true)) /\
    (forall i t r, In (i, t, r) new ->
       k <= i < k + List.length l /\ nth_error l (i - k) = Some r /\
       t = Exact /\ exact_match cands r = true) /\
    NoDup (map (fun x => fst (ev x)) new).
Proof.
  induction l as [|r l IH]; intros k st.
  - exists []. cbn. rewrite !app_nil_r. repeat split; try tauto; try lia.
    constructor.
  - rewrite pass_cons. unfold exact_step at 2.
    destruct (exact_match cands r) eqn:Hex.
    + destruct (IH (S k) (record_match k Exact r st))
        as (new & Hlog & Hcount & Hm & Hnew & Hnd).
      cbn zeta in *.
      exists ((k, Exact, r) :: new). repeat split.
      * rewrite Hlog. cbn. now rewrite <- app_assoc.
      * rewrite Hcount. cbn. lia.
      * intros Hx. apply Hm in Hx. cbn [matchedSkills record_match] in Hx.
        rewrite set_add_In in Hx.
        destruct Hx as [[Hx | ->] | [Hx He]]; [tauto | | ].
        -- right. split; [now left | assumption].
        -- right. split; [now right | assumption].
      * intros Hx. apply Hm. cbn [matchedSkills record_match]. rewrite set_add_In.
        destruct Hx as [Hx | [[<- | Hx] He]]; tauto.
      * destruct H as [E | H]; [injection E as <- <- <-; lia|].
        apply Hnew in H. lia.
      * destruct H as [E | H]; [injection E as <- <- <-; cbn [List.length]; lia|].
        apply Hnew in H. cbn [List.length]. lia.
      * destruct H as [E | H].
        -- injection E as <- <- <-. now rewrite Nat.sub_diag.
        -- destruct (Hnew _ _ _ H) as (Hi & Hn & _).
           rewrite nth_error_shift; [exact Hn | lia].
      * destruct H as [E | H]; [now injection E as <- <- <-|]. apply (Hnew _ _ _ H).
      * destruct H as [E | H]; [now injection E as <- <- <-|]. apply (Hnew _ _ _ H).
      * cbn [map ev fst]. constructor; [|assumption].
        intros Hin. apply in_map_iff in Hin. destruct Hin as ([[i t] r'] & E & Hin).
        cbn in E. subst i. apply Hnew in Hin. lia.
    + destruct (IH (S k) st) as (new & Hlog & Hcount & Hm & Hnew & Hnd).
      cbn zeta in *.
      exists new. repeat split; try assumption.
      * intros Hx. apply Hm in Hx. destruct Hx as [Hx | [Hx He]]; [tauto|].
        right. split; [now right | assumption].
      * intros Hx. apply Hm. destruct Hx as [Hx | [[<- | Hx] He]];
          [tauto | congruence | tauto].
      * apply Hnew in H. lia.
      * apply Hnew in H. cbn [List.length]. lia.
      * destruct (Hnew _ _ _ H) as (Hi & Hn & _). rewrite nth_error_shift; [exact Hn | lia].
      * apply (Hnew _ _ _ H).
      * apply (Hnew _ _ _ H).
Qed.

(** The tier decisions of the second and third loops. *)
Definition composite_dec (r : jsstring) : option tier :=
  if partial_match cands r then Some Partial
  else if substantial_match cands r then Some Substantial
  else None.

Definition tier_dec (t : tier) (r : jsstring) : option tier :=
  if tier_matches cands t r then Some t else None.

Lemma composite_step_check st ir :
  composite_step cands st ir = check_step composite_dec st ir.
Proof.
  destruct ir as [i r]. unfold composite_step, check_step, composite_dec.
  destruct (has st r); [reflexivity|].
  destruct (partial_match cands r); [reflexivity|].
  destruct (substantial_match cands r); reflexivity.
Qed.

Lemma equivalent_step_check st ir :
  equivalent_step cands st ir = check_step (tier_dec Equivalent) st ir.
Proof.
  destruct ir as [i r]. unfold equivalent_step, check_step, tier_dec. cbn [tier_matches].
  destruct (has st r); [reflexivity|].
  destruct (equivalent_match cands r); reflexivity.
Qed.


Lemma pass_ext step1 step2 l k st :
  (forall st ir, step1 st ir = step2 st ir) ->
  pass step1 l k st = pass step2 l k st.
Proof.
  intros Hext. unfold pass.
  generalize (combine (List.seq k (List.length l)) l) as rs. intros rs. revert st.
  induction rs as [|ir rs IH]; intros st; cbn [fold_left]; [reflexivity|].
  now rewrite Hext, IH.
Qed.

Lemma run_passes (req : list jsstring) :
  run cands req =
  pass (check_step (tier_dec Equivalent)) req 0
    (pass (check_step composite_dec) req 0
       (pass (exact_step cands) req 0 (State 0 [] []))).
Proof.
  unfold run, indexed. fold (pass (exact_step cands) req 0 (State 0 [] [])).
  fold (pass (composite_step cands) req 0 (pass (exact_step cands) req 0 (State 0 [] []))).
  fold (pass (equivalent_step cands) req 0
          (pass (composite_step cands) req 0
             (pass (exact_step cands) req 0 (State 0 [] [])))).
  rewrite (pass_ext _ _ _ _ _ equivalent_step_check).
  now rewrite (pass_ext _ _ _ _ _ composite_step_check).
Qed.



Lemma in_ev (new : list entry) (i : nat) (t : tier) :
  In (i, t) (map ev new) -> exists r, In (i, t, r) new.
Proof.
  intros Hin. apply in_map_iff in Hin. destruct Hin as ([[i' t'] r] & E & Hin).
  cbn in E. injection E as -> ->. now exists r.
Qed.

Lemma in_idx (new : list entry) (i : nat) :
  In i (map (fun x => fst (ev x)) new) -> exists t r, In (i, t, r) new.
Proof.
  intros Hin. apply in_map_iff in Hin. destruct Hin as ([[i' t] r] & E & Hin).
  cbn in E. subst i'. now exists t, r.
Qed.

Lemma in_sk (new : list entry) (i : nat) (t : tier) (r : jsstring) :
  In (i, t, r) new -> In r (map sk new).
Proof. intros Hin. apply in_map_iff. now exists (i, t, r). Qed.

(** The first tier that matches a required skill. *)
Definition first_tier (t : tier) (r : jsstring) : Prop :=
  tier_matches cands t r = true /\
  forall t', tier_rank t' < tier_rank t -> tier_matches cands t' r = false.

(** The trace of the three loops. *)
Lemma run_trace (req : list jsstring) :
  exists ev1 ev2 ev3 : list event,
    let st := run cands req in
    log st = ev1 ++ ev2 ++ ev3 /\
    (forall e, In e ev1 -> snd e = Exact) /\
    (forall e, In e ev2 -> snd e = Partial \/ snd e = Substantial) /\
    (forall e, In e ev3 -> snd e = Equivalent) /\
    NoDup (map fst (log st)) /\
    (forall i t, In (i, t) (log st) ->
       exists r, nth_error req i = Some r /\ first_tier t r) /\
    matchCount st = List.length (log st).
Proof.
  rewrite run_passes.
  destruct (exact_pass req 0 (State 0 [] []))
    as (new1 & Hlog1 & Hcount1 & Hm1 & Hnew1 & Hnd1).
  set (st1 := pass (exact_step cands) req 0 (State 0 [] [])) in *.
  destruct (check_pass composite_dec req 0 st1)
    as (new2 & Hlog2 & Hcount2 & Hm2 & Hnew2 & Hnd2 & Hall2).
  set (st2 := pass (check_step composite_dec) req 0 st1) in *.
  destruct (check_pass (tier_dec Equivalent) req 0 st2)
    as (new3 & Hlog3 & Hcount3 & Hm3 & Hnew3 & Hnd3 & Hall3).
  set (st3 := pass (check_step (tier_dec Equivalent)) req 0 st2) in *.
  cbn zeta in *. cbn [log matchCount matchedSkills app] in *.
  (* what the entries of each loop say about their skill *)
  assert (F1 : forall i t r, In (i, t, r) new1 ->
                 nth_error req i = Some r /\ t = Exact /\
                 In r (matchedSkills st1) /\ first_tier Exact r).
  { intros i t r Hin. destruct (Hnew1 _ _ _ Hin) as (_ & Hn & -> & Hex).
    rewrite Nat.sub_0_r in Hn. repeat split; try assumption.
    - apply Hm1. right. split; [now apply nth_error_In in Hn | assumption].
    - intros [] Hr; cbn in Hr; lia. }
  assert (Hexact : forall r, In r req -> ~ In r (matchedSkills st1) ->
                     exact_match cands r = false).
  { intros r Hr Hnot. destruct (exact_match cands r) eqn:E; [|reflexivity].
    exfalso. apply Hnot. apply Hm1. now right. }
  assert (F2 : forall i t r, In (i, t, r) new2 ->
                 nth_error req i = Some r /\ (t = Partial \/ t = Substantial) /\
                 ~ In r (matchedSkills st1) /\ first_tier t r).
  { intros i t r Hin. destruct (Hnew2 _ _ _ Hin) as (_ & Hn & Hd & Hnot).
    rewrite Nat.sub_0_r in Hn.
    pose proof (Hexact r (nth_error_In _ _ Hn) Hnot) as Hex.
    unfold composite_dec in Hd.
    destruct (partial_match cands r) eqn:Hp;
      [|destruct (substantial_match cands r) eqn:Hs]; try discriminate;
      injection Hd as <-; repeat split; auto.
    - intros [] Hr; cbn in Hr; try lia. exact Hex.
    - intros [] Hr; cbn in Hr; try lia; assumption. }
  assert (F3 : forall i t r, In (i, t, r) new3 ->
                 nth_error req i = Some r /\ t = Equivalent /\
                 ~ In r (matchedSkills st2) /\ first_tier t r).
  { intros i t r Hin. destruct (Hnew3 _ _ _ Hin) as (_ & Hn & Hd & Hnot).
    rewrite Nat.sub_0_r in Hn.
    pose proof (nth_error_In _ _ Hn) as Hr.
    unfold tier_dec in Hd. destruct (tier_matches cands Equivalent r) eqn:He;
      [|discriminate].
    injection Hd as <-.
    assert (Hnot1 : ~ In r (matchedSkills st1)).
    { intros Hin1. apply Hnot. rewrite Hm2. apply in_or_app. now left. }
    assert (Hc : composite_dec r = None).
    { destruct (composite_dec r) eqn:E; [|reflexivity].
      exfalso. apply Hnot. apply Hall2; [assumption | congruence]. }
    unfold composite_dec in Hc.
    destruct (partial_match cands r) eqn:Hp; [discriminate|].
    destruct (substantial_match cands r) eqn:Hs; [discriminate|].
    repeat split; auto.
    intros [] Hlt; cbn in Hlt; try lia; cbn [tier_matches]; auto. }
  exists (map ev new1), (map ev new2), (map ev new3).
  split; [rewrite Hlog3, Hlog2, Hlog1; now rewrite <- app_assoc|].
  split.
  { intros [i t] Hin. apply in_ev in Hin. destruct Hin as [r Hin].
    now destruct (F1 _ _ _ Hin) as (_ & -> & _). }
  split.
  { intros [i t] Hin. apply in_ev in Hin. destruct Hin as [r Hin].
    now destruct (F2 _ _ _ Hin) as (_ & Ht & _). }
  split.
  { intros [i t] Hin. apply in_ev in Hin. destruct Hin as [r Hin].
    now destruct (F3 _ _ _ Hin) as (_ & -> & _). }
  split.
  { rewrite Hlog3, Hlog2, Hlog1, !map_app, !map_map.
    apply NoDup_app; [apply NoDup_app; [assumption | |] | |].
    - apply (distinct_indices req 0); [|assumption].
      intros i t r Hin. destruct (Hnew2 _ _ _ Hin) as (Hi & Hn & _). split; [lia | exact Hn].
    - intros i H1 H2. apply in_idx in H1, H2.
      destruct H1 as (t1 & r1 & H1), H2 as (t2 & r2 & H2).
      destruct (F1 _ _ _ H1) as (E1 & _ & Hin1 & _).
      destruct (F2 _ _ _ H2) as (E2 & _ & Hnot & _).
      congruence.
    - apply (distinct_indices req 0); [|assumption].
      intros i t r Hin. destruct (Hnew3 _ _ _ Hin) as (Hi & Hn & _). split; [lia | exact Hn].
    - intros i H12 H3. apply in_idx in H3. destruct H3 as (t3 & r3 & H3).
      destruct (F3 _ _ _ H3) as (E3 & _ & Hnot & _).
      apply Hnot. rewrite Hm2. apply in_or_app.
      apply in_app_or in H12. destruct H12 as [H1 | H2].
      + apply in_idx in H1. destruct H1 as (t1 & r1 & H1).
        destruct (F1 _ _ _ H1) as (E1 & _ & Hin1 & _). left. congruence.
      + apply in_idx in H2. destruct H2 as (t2 & r2 & H2).
        destruct (F2 _ _ _ H2) as (E2 & _). right.
        apply in_sk in H2. congruence. }
  split.
  { intros i t Hin. rewrite Hlog3, Hlog2, Hlog1 in Hin.
    apply in_app_or in Hin. destruct Hin as [Hin | Hin];
      [apply in_app_or in Hin; destruct Hin as [Hin | Hin]|];
      apply in_ev in Hin; destruct Hin as [r Hin]; exists r.
    - now destruct (F1 _ _ _ Hin) as (Hn & -> & _ & Hf).
    - now destruct (F2 _ _ _ Hin) as (Hn & _ & _ & Hf).
    - now destruct (F3 _ _ _ Hin) as (Hn & _ & _ & Hf). }
  rewrite Hlog3, Hlog2, Hlog1, !length_app, !length_map. lia.
Qed.





End Passes.

Section WithHost.
Context {H : Host}.

(** The strings of a skills array, lower-cased and trimmed. *)
Definition normalized (skills : list jsval) : list jsstring :=
  flat_map (fun v => match v with
                     | JString s => [trim (toLowerCase s)]
                     | JOther => []
                     end) skills.

(** The filter keeps [map] from ever calling a string method on a value
    that is not a string: normalization does not throw. *)
Lemma normalize_total (skills : list jsval) :
  normalize skills = Some (normalized skills).
Proof.
  unfold normalize. induction skills as [|[s|] l IH]; cbn; [reflexivity| |assumption].
  fold (map_throwing lower_trim (filter is_string l)). now rewrite IH.
Qed.

Lemma normalized_nil_iff (skills : list jsval) :
  normalized skills = [] <-> filter is_string skills = [].
Proof.
  induction skills as [|[s|] l IH]; cbn; [tauto | split; discriminate | exact IH].
Qed.


(** Without candidate skills no tier matches. *)
Lemma no_candidates (t : tier) (r : jsstring) : tier_matches [] t r = false.
Proof.
  destruct t; cbn [tier_matches]; try reflexivity.
  - apply andb_false_r.
  - unfold equivalent_match.
    induction technologyEquivalents as [|g l IH]; [reflexivity|].
    cbn [existsb]. rewrite IH. cbn. now rewrite andb_false_r.
Qed.

Lemma percentage_zero (n : nat) : percentage 0 n = 0%Z.
Proof. reflexivity. Qed.

(** C4.  When the candidate list or the required list is empty, or has no
    string entry left after the filter, [calculateMatchPercentage] returns 0
    and throws no exception. *)
Theorem calculateMatchPercentage_degenerate (candidateSkills requiredSkills : list jsval) :
  candidateSkills = [] \/ requiredSkills = [] \/
  normalize requiredSkills = Some [] \/ normalize candidateSkills = Some [] ->
  calculateMatchPercentage candidateSkills requiredSkills = Some 0%Z.
Proof.
  unfold calculateMatchPercentage, calculateMatch.
  rewrite !normalize_total.
  intros [-> | [-> | [Hr | Hc]]].
  - destruct requiredSkills; reflexivity.
  - reflexivity.
  - injection Hr as ->. destruct requiredSkills, candidateSkills; reflexivity.
  - injection Hc as ->.
    destruct requiredSkills as [|v l]; [reflexivity|].
    destruct candidateSkills as [|w m]; [reflexivity|].
    destruct (normalized (v :: l)) as [|r req] eqn:E; [reflexivity|].
    cbn [option_map fst]. f_equal.
    destruct (run_trace [] (r :: req)) as (ev1 & ev2 & ev3 & _ & _ & _ & _ & _ & Hf & Hcount).
    cbn zeta in *.
    destruct (log (run [] (r :: req))) as [|[i t] lg] eqn:Hlog.
    + cbn [List.length] in Hcount. rewrite Hcount. apply percentage_zero.
    + destruct (Hf i t (or_introl eq_refl)) as (x & _ & Hm & _).
      rewrite no_candidates in Hm. discriminate.
Qed.



End WithHost.



Lemma calculateMatchPercentage_degenerate_witness :
  calculateMatchPercentage [] [JString (js "python")] = Some 0%Z /\
  calculateMatchPercentage [JString (js "python")] [] = Some 0%Z /\
  calculateMatchPercentage [JString (js "python")] [JOther] = Some 0%Z.
Proof.
  split; [|split].
  - apply calculateMatchPercentage_degenerate. now left.
  - apply calculateMatchPercentage_degenerate. right. now left.
  - apply calculateMatchPercentage_degenerate. right. right. left. reflexivity.
Defined.

End SkillMatchProps.

(** ** Experience qualification *)

Module QualificationProps.
Import Qualification.
Local Open Scope Z_scope.

Lemma qualified_neq : Qualified <> NotQualified.
Proof. discriminate. Qed.

(** An integer below [2^53] in magnitude is a Number. *)
Lemma Number_of_Z_small (z : Z) : Z.abs z < 2 ^ 53 -> Number_of_Z z = Finite z.
Proof.
  intros Hz. unfold Number_of_Z. apply Z.ltb_lt in Hz. now rewrite Hz.
Qed.

Lemma rne_ge (a b : Z) : 0 < b -> a / b <= JSNumber.rne a b.
Proof.
  intros Hb. unfold JSNumber.rne.
  destruct (_ <? _); [lia|]. destruct (_ <? _); [lia|]. destruct (Z.even _); lia.
Qed.

(** Rounding keeps a large integer large. *)
Lemma Number_of_Z_large (z : Z) :
  2 ^ 53 <= Z.abs z ->
  match Number_of_Z z with
  | Finite v => 2 ^ 52 <= Z.abs v
  | Infinity _ => True
  | NaN => False
  end.
Proof.
  intros Hz. unfold Number_of_Z.
  replace (Z.abs z <? 2 ^ 53) with false by (symmetry; apply Z.ltb_ge; exact Hz).
  set (a := Z.abs z) in *. set (e := Z.log2 a - 52).
  destruct (2 ^ 1024 <=? JSNumber.rne a (2 ^ e) * 2 ^ e); [exact I|].
  assert (Ha : 0 < a) by lia.
  assert (Hlog : 53 <= Z.log2 a) by (apply Z.log2_le_pow2; lia).
  assert (He : 0 <= e) by (subst e; lia).
  assert (Hpos : 0 < 2 ^ e) by (apply Z.pow_pos_nonneg; lia).
  assert (Hlow : 2 ^ 52 <= a / 2 ^ e).
  { apply Z.div_le_lower_bound; [exact Hpos|].
    rewrite Z.mul_comm, <- Z.pow_add_r by lia.
    replace (52 + e) with (Z.log2 a) by (subst e; lia).
    apply Z.log2_spec. exact Ha. }
  pose proof (rne_ge a (2 ^ e) Hpos) as Hr.
  assert (Hm : 2 ^ 52 <= JSNumber.rne a (2 ^ e) * 2 ^ e) by nia.
  assert (Hs : Z.abs (Z.sgn z) = 1) by (subst a; lia).
  rewrite Z.abs_mul, Hs. lia.
Qed.

(** [Math.abs(x - y) <= 1] on two finite numbers decides on their exact
    difference: rounding the difference does not move it across 1. *)
Lemma within_one (x y : Z) :
  le_num (abs_num (sub_num (Finite x) (Finite y))) (Finite 1) = true <->
  Z.abs (x - y) <= 1.
Proof.
  cbn [sub_num]. destruct (Z_lt_le_dec (Z.abs (x - y)) (2 ^ 53)) as [Hs | Hl].
  - rewrite Number_of_Z_small by exact Hs. cbn [abs_num le_num ge_num].
    apply Z.leb_le.
  - pose proof (Number_of_Z_large _ Hl) as Hv.
    assert (H53 : 1 < 2 ^ 53) by reflexivity.
    destruct (Number_of_Z (x - y)) as [|v|n]; [destruct Hv| |].
    + cbn [abs_num le_num ge_num]. rewrite Z.leb_le.
      assert (H52 : 1 < 2 ^ 52) by reflexivity. lia.
    + cbn [abs_num le_num ge_num]. split; [discriminate | lia].
Qed.

(** [parseInt(s) || 0] is never NaN. *)
Lemma parse_or_0_number (s : jsstring) : parse_or_0 s <> NaN.
Proof. unfold parse_or_0. destruct (parseInt s); discriminate. Qed.

(** The candidate table: qualified exactly when the candidate's years, 0
    when they do not parse, reach the required years. *)
Lemma candidate_table_policy (candidateExp jdExp : jsstring) (c j : Z) :
  parse_or_0 candidateExp = Finite c -> parse_or_0 jdExp = Finite j ->
  (CandidateTable.getExperienceResult candidateExp jdExp = Qualified <-> j <= c).
Proof.
  intros Hc Hj. unfold CandidateTable.getExperienceResult. rewrite Hc, Hj.
  cbn [ge_num]. destruct (j <=? c) eqn:E.
  - apply Z.leb_le in E. tauto.
  - apply Z.leb_gt in E. split; [intros Hq; symmetry in Hq; now apply qualified_neq in Hq | lia].
Qed.

(** The parsing history: qualified exactly when the years differ by at
    most 1. *)
Lemma parsing_history_policy (candidateExp jdExp : jsstring) (c j : Z) :
  parse_or_0 candidateExp = Finite c -> parse_or_0 jdExp = Finite j ->
  (ParsingHistory.getExperienceResult candidateExp jdExp = Qualified <->
   Z.abs (c - j) <= 1).
Proof.
  intros Hc Hj. unfold ParsingHistory.getExperienceResult. rewrite Hc, Hj.
  rewrite <- within_one.
  destruct (le_num _ _); [tauto|].
  split; [intros Hq; symmetry in Hq; now apply qualified_neq in Hq | discriminate].
Qed.

(** The parsing history never qualifies a candidate when one of the two
    numbers is infinite (a run of digits beyond the range of the binary64
    numbers). *)
Lemma parsing_history_infinite (candidateExp jdExp : jsstring) :
  (exists n, parse_or_0 candidateExp = Infinity n) \/
  (exists n, parse_or_0 jdExp = Infinity n) ->
  ParsingHistory.getExperienceResult candidateExp jdExp = NotQualified.
Proof.
  unfold ParsingHistory.getExperienceResult.
  pose proof (parse_or_0_number candidateExp) as Hc.
  pose proof (parse_or_0_number jdExp) as Hj.
  intros [[n Hn] | [n Hn]]; rewrite Hn in *;
    [destruct (parse_or_0 jdExp) as [|y|m] | destruct (parse_or_0 candidateExp) as [|x|m]];
    try congruence; try reflexivity;
    destruct n, m; reflexivity.
Qed.

(** The report of the Index page agrees with the candidate table whenever
    both experience fields are missing, empty or start with an integer. *)
Lemma index_policy_when_parsable (candidateExperience jdExperience : option jsstring) :
  parseInt (or_zero candidateExperience) <> NaN ->
  parseInt (or_zero jdExperience) <> NaN ->
  Index.experienceResult candidateExperience jdExperience =
  CandidateTable.experienceCell candidateExperience jdExperience.
Proof.
  intros Hc Hj.
  unfold Index.experienceResult, CandidateTable.experienceCell,
    CandidateTable.getExperienceResult, parse_or_0.
  destruct (parseInt (or_zero candidateExperience)); [congruence| |];
    destruct (parseInt (or_zero jdExperience)); congruence || reflexivity.
Qed.

(** C5 at the failing input.  A candidate whose experience field is "N/A"
    against a job description without experience requirement: the
    candidate table defaults the unparsable years to 0 and answers
    "Qualified" (0 >= 0), the parsing history answers "Qualified"
    (|0 - 0| <= 1), and the report of the Index page compares NaN with 0
    and answers "Not Qualified". *)
Theorem report_site_unparsable_experience :
  let candidateExperience := Some (js "N/A") in
  let jdExperience := None in
  parse_or_0 (or_zero candidateExperience) = Finite 0 /\
  parse_or_0 (or_zero jdExperience) = Finite 0 /\
  CandidateTable.experienceCell candidateExperience jdExperience = Qualified /\
  ParsingHistory.experienceCell candidateExperience jdExperience = Qualified /\
  Index.experienceResult candidateExperience jdExperience = NotQualified.
Proof. cbn zeta. repeat split; vm_compute; reflexivity. Qed.

End QualificationProps.

(** ** The experience estimator *)

Module ExperienceProps.
Import JSDate GeminiParser.
Local Open Scope Z_scope.

(** The position of the month of a time value on the month line. *)
Definition monthIndex (t : Z) : Z := getFullYear t * 12 + getMonth t.


(** What the estimator returns for a total of months. *)
Definition yearsString (totalMonths : Z) : jsstring :=
  let totalYears := yearsOfMonths totalMonths in
  if 0 <? totalYears then toString totalYears else [].



Lemma validPeriod_some (s e : Z) :
  s <= e -> validPeriod (Some s) (Some e) = Some {| start := s; end_ := e |}.
Proof. intros Hle. cbn. apply Z.leb_le in Hle. now rewrite Hle. Qed.


Section WithHost.
Context {H : Host}.





(** *** The two adjacent periods of the specification's example *)

Definition example_text : jsstring :=
  js "Software Engineer 01/2018 - 06/2020, Senior Engineer 07/2020 - Present".

(** Local midnight of 2018-01-01, 2020-01-01, 2020-06-01 and 2020-07-01. *)
Definition jan2018 : Z := 1514764800000.
Definition jan2020 : Z := 1577836800000.
Definition jun2020 : Z := 1590969600000.
Definition jul2020 : Z := 1593561600000.

(** The months from month [m] of year [y] to the month of [now], both
    counted. *)
Definition monthsSince (y m : Z) (now : Z) : Z :=
  (getFullYear now - y) * 12 + (getMonth now - (m - 1)) + 1.

(** The matches of the four date patterns in the example: both ranges by
    the month/year pattern, "2020 - Present" by the year pattern, and the
    bare word "Present" by the two month-name patterns. *)
Definition example_matches : list (list rmatch_result) :=
  [ [ RMatch example_text 18 35 [(2%nat, (28%nat, 35%nat)); (1%nat, (18%nat, 25%nat))];
      RMatch example_text 53 70 [(2%nat, (63%nat, 70%nat)); (1%nat, (53%nat, 60%nat))] ];
    [ RMatch example_text 56 70 [(2%nat, (63%nat, 70%nat)); (1%nat, (56%nat, 60%nat))] ];
    [ RMatch example_text 63 70 [] ];
    [ RMatch example_text 63 70 [] ] ].

Lemma example_scan :
  map (fun pattern => matchAll flag_i pattern example_text) datePatterns =
  example_matches.
Proof. vm_compute. reflexivity. Qed.

Lemma example_year_range :
  exec flag_i yearRange example_text =
  Some (RMatch example_text 56 70 [(2%nat, (63%nat, 70%nat)); (1%nat, (56%nat, 60%nat))]).
Proof. vm_compute. reflexivity. Qed.

Lemma workPeriodsOf_scan (now : Z) (text : jsstring) :
  workPeriodsOf now text =
  flat_map
    (flat_map (fun m => match parsePeriod now m with Some p => [p] | None => [] end))
    (map (fun pattern => matchAll flag_i pattern text) datePatterns).
Proof.
  unfold workPeriodsOf. induction datePatterns as [|pattern l IH]; [reflexivity|].
  cbn [flat_map map]. now rewrite IH.
Qed.

Lemma parsePeriod_groups (now : Z) (m : rmatch_result) (g1 g2 : jsstring) :
  group m 1 = Some g1 -> group m 2 = Some g2 ->
  forallb (fun c => N.ltb c 128) (trim g2) = true ->
  parsePeriod now m =
  validPeriod (startDateOf (trim g1)) (endDateOf now (map lower_ascii (trim g2))).
Proof.
  intros H1 H2 Hascii. unfold parsePeriod. rewrite H1, H2.
  now rewrite toLowerCase_ascii.
Qed.

Lemma parsePeriod_no_group (now : Z) (m : rmatch_result) :
  group m 1 = None -> parsePeriod now m = None.
Proof. intros H1. unfold parsePeriod. now rewrite H1. Qed.

(** The work periods of the example: the two ranges, and a third period
    from January 2020 that the year pattern reads out of "2020 - Present". *)
Lemma example_workPeriods (now : Z) :
  jul2020 <= now ->
  workPeriodsOf now example_text =
  [ {| start := jan2018; end_ := jun2020 |};
    {| start := jul2020; end_ := now |};
    {| start := jan2020; end_ := now |} ].
Proof.
  intros Hnow. rewrite workPeriodsOf_scan, example_scan.
  unfold example_matches. cbn [flat_map app].
  rewrite (parsePeriod_groups now _ (js "01/2018") (js "06/2020"))
    by (vm_compute; reflexivity).
  replace (startDateOf (trim (js "01/2018"))) with (Some jan2018)
    by (vm_compute; reflexivity).
  replace (endDateOf now (map lower_ascii (trim (js "06/2020")))) with (Some jun2020)
    by (vm_compute; reflexivity).
  rewrite validPeriod_some by (vm_compute; discriminate).
  rewrite (parsePeriod_groups now _ (js "07/2020") (js "Present"))
    by (vm_compute; reflexivity).
  replace (startDateOf (trim (js "07/2020"))) with (Some jul2020)
    by (vm_compute; reflexivity).
  replace (endDateOf now (map lower_ascii (trim (js "Present")))) with (Some now)
    by (vm_compute; reflexivity).
  rewrite validPeriod_some by assumption.
  rewrite (parsePeriod_groups now _ (js "2020") (js "Present"))
    by (vm_compute; reflexivity).
  replace (startDateOf (trim (js "2020"))) with (Some jan2020)
    by (vm_compute; reflexivity).
  replace (endDateOf now (map lower_ascii (trim (js "Present")))) with (Some now)
    by (vm_compute; reflexivity).
  rewrite validPeriod_some by (unfold jan2020, jul2020 in *; lia).
  rewrite !parsePeriod_no_group by reflexivity.
  reflexivity.
Qed.

(** The reconciliation merges the three periods of the example into one,
    from January 2018 to the current date. *)
Lemma example_work_history (now : Z) :
  jul2020 <= now ->
  calculateExperienceFromWorkHistory now example_text =
  yearsString (monthsSince 2018 1 now).
Proof.
  intros Hnow. unfold calculateExperienceFromWorkHistory.
  rewrite example_workPeriods by assumption.
  unfold totalExperience.
  replace (sort_periods
             [ {| start := jan2018; end_ := jun2020 |};
               {| start := jul2020; end_ := now |};
               {| start := jan2020; end_ := now |} ])
    with [ {| start := jan2018; end_ := jun2020 |};
           {| start := jan2020; end_ := now |};
           {| start := jul2020; end_ := now |} ]
    by (vm_compute; reflexivity).
  cbn [merge_periods start end_].
  replace (jan2020 - jun2020 <=? oneMonth) with true by reflexivity.
  rewrite (Z.max_r jun2020 now) by (unfold jun2020, jul2020 in *; lia).
  replace (jul2020 - now <=? oneMonth) with true
    by (symmetry; apply Z.leb_le; unfold oneMonth; lia).
  rewrite Z.max_id. cbn [merge_periods fold_left]. rewrite Z.add_0_l.
  unfold monthsOf, monthsSince. cbn [start end_].
  replace (getFullYear jan2018) with 2018 by (vm_compute; reflexivity).
  replace (getMonth jan2018) with 0 by (vm_compute; reflexivity).
  change (1 - 1) with 0. unfold yearsString.
  reflexivity.
Qed.

(** The estimator itself stops at the year-range pattern, which matches
    "2020 - Present". *)
Lemma example_estimate (now : Z) :
  extractExperienceYears now example_text = toString (getFullYear now - 2020).
Proof.
  unfold extractExperienceYears. rewrite example_year_range.
  replace (or_else (group _ 1) []) with (js "2020") by (vm_compute; reflexivity).
  replace (or_else (group _ 2) []) with (js "Present") by (vm_compute; reflexivity).
  rewrite toLowerCase_ascii by reflexivity.
  replace (mentions_open_ended (map lower_ascii (js "Present"))) with true
    by (vm_compute; reflexivity).
  replace (parseInt (js "2020")) with (Finite 2020) by (vm_compute; reflexivity).
  reflexivity.
Qed.

(** The claim as the specification states it. *)
Definition merged_period_as_stated (now : Z) : Prop :=
  extractExperienceYears now example_text =
  toString (yearsOfMonths (monthsSince 2018 1 now)).

(** C2, amended.  On the example text the estimator returns the current
    year minus 2020: its single year-range pattern matches "2020 - Present"
    and the work-history reconciliation is not reached.  The
    reconciliation, applied to the same text, merges its periods into the
    single period from January 2018 to the current date and returns
    [Math.round(months / 12)] for the months of that period. *)
Theorem adjacent_periods_example (now : Z) :
  jul2020 <= now ->
  extractExperienceYears now example_text = toString (getFullYear now - 2020) /\
  calculateExperienceFromWorkHistory now example_text =
    yearsString (monthsSince 2018 1 now).
Proof.
  intros Hnow. split; [apply example_estimate | now apply example_work_history].
Qed.

End WithHost.

(** Noon of 2026-11-02. *)
Definition a_day : Z := 1793620800000.

(** On 2026-11-02 the estimator returns "6" on the example text; the
    merged period from January 2018 has 107 months (106 when the current
    month is not counted), which round to 9 years. *)
Lemma adjacent_periods_counterexample :
  (getFullYear a_day, getMonth a_day) = (2026, 10) /\
  extractExperienceYears a_day example_text = js "6" /\
  toString (yearsOfMonths (monthsSince 2018 1 a_day)) = js "9" /\
  toString (yearsOfMonths (monthsSince 2018 1 a_day - 1)) = js "9" /\
  ~ merged_period_as_stated a_day.
Proof.
  repeat split; try (vm_compute; reflexivity).
  unfold merged_period_as_stated. vm_compute. discriminate.
Qed.

Lemma adjacent_periods_example_witness :
  extractExperienceYears a_day example_text = js "6" /\
  calculateExperienceFromWorkHistory a_day example_text = js "9".
Proof.
  destruct (adjacent_periods_example a_day) as [H1 H2];
    [vm_compute; discriminate|].
  split; [exact H1 | exact H2].
Defined.



End ExperienceProps.

(** ** The added definitions on sample inputs *)

Module GeminiHelpersExamples.
Import GeminiHelpers.
Example t1 : extractNameFromFilename (js "CV_john-doe.final.pdf") = js "John Doe.Final".
Proof. vm_compute. reflexivity. Qed.
Example t2 : extractNameFromFilename (js "resume  jane_o'neil.docx") = js "Jane O'Neil".
Proof. vm_compute. reflexivity. Qed.
Example t3 : extractTitleFromFilename (js "JD_senior_dev.pdf") = js "Senior Dev".
Proof. vm_compute. reflexivity. Qed.
Example t4 : extractNameFromFilename (js "cvetkovic.pdf") = js "Etkovic".
Proof. vm_compute. reflexivity. Qed.
Example t5 : extractNameFromFilename (js "a/b.c/d") = js "A/B.C/D".
Proof. vm_compute. reflexivity. Qed.
Example t6 : extractCommonSkills (js "I know javascript and email") =
  map js ["JavaScript"; "Java"; "AI"]%string.
Proof. vm_compute. reflexivity. Qed.
End GeminiHelpersExamples.

Module ParseDocumentExamples.
Import ParseDocument.
Example n1 :
  normalizeSkills (fun _ => None) (VString (js " Python , , SQL;Go|  ")) =
  map js ["Python"; "SQL"; "Go"]%string.
Proof. vm_compute. reflexivity. Qed.
Example n2 :
  normalizeSkills (fun _ => None)
    (VArray [VArray [VString (js " a "); VOther true]; VString (js "  "); VString (js "b")]) =
  map js ["a"; "b"]%string.
Proof. vm_compute. reflexivity. Qed.
Example b1 :
  option_map (fun st => (results st, pauses st))
    (processBatch 2 (fun n => if Nat.even n then Some n else None) [1;2;3;4;5]%nat)
  = Some ([2;4]%nat, 2%nat).
Proof. vm_compute. reflexivity. Qed.
Example b2 : processBatch 0 (fun n : nat => Some n) [1]%nat = None.
Proof. vm_compute. reflexivity. Qed.
End ParseDocumentExamples.

(** ** Folds; the e-mail addresses of the contact extractor *)

Module FoldFacts.

(** An invariant of the accumulator that every step keeps holds at the end
    of the loop. *)
Lemma fold_left_invariant {A B : Type} (Inv : B -> Prop) (step : B -> A -> B)
    (xs : list A) (acc : B) :
  (forall acc a, Inv acc -> Inv (step acc a)) ->
  Inv acc -> Inv (fold_left step xs acc).
Proof.
  intros Hstep. revert acc. induction xs as [|a xs IH]; intros acc Hacc; simpl.
  - assumption.
  - apply IH. now apply Hstep.
Qed.

(** A loop whose steps never remove an element keeps the elements it
    starts with. *)
Lemma fold_left_keeps {A : Type} (step : list jsstring -> A -> list jsstring)
    (xs : list A) (acc : list jsstring) (x : jsstring) :
  (forall acc a, In x acc -> In x (step acc a)) ->
  In x acc -> In x (fold_left step xs acc).
Proof. intros Hstep. now apply fold_left_invariant. Qed.

End FoldFacts.
Import FoldFacts.

Module EmailExtraction.
Import ContactExtractor.

(** A set of addresses as the extractor builds it: no address twice, every
    address accepted by [isValidEmail]. *)
Definition valid_set (emails : list jsstring) : Prop :=
  NoDup emails /\ forall e, In e emails -> isValidEmail e = true.

Section WithHost.
Context {H : Host}.

Lemma add_email_valid_set (emails : list jsstring) (candidate : jsstring) :
  valid_set emails -> valid_set (add_email emails candidate).
Proof.
  intros [Hnd Hv]. unfold add_email.
  destruct (isValidEmail (trim (toLowerCase candidate))) eqn:E; [|now split].
  split; [now apply set_add_NoDup|].
  intros e. rewrite set_add_In. intros [He | ->]; auto.
Qed.

Lemma matches_valid_set (f : rmatch_result -> jsstring) (ms : list rmatch_result)
    (emails : list jsstring) :
  valid_set emails ->
  valid_set (fold_left (fun emails m => add_email emails (f m)) ms emails).
Proof.
  apply fold_left_invariant. intros acc m. apply add_email_valid_set.
Qed.

Lemma emailKeywordScan_valid_set (lines emails : list jsstring) :
  valid_set emails -> valid_set (emailKeywordScan lines emails).
Proof.
  unfold emailKeywordScan. apply fold_left_invariant. intros acc i Hacc.
  destruct (test _ _ _); [|assumption].
  revert Hacc. apply fold_left_invariant. intros acc' j. apply matches_valid_set.
Qed.

Lemma emailHeaderScan_valid_set (lines emails : list jsstring) :
  valid_set emails -> valid_set (emailHeaderScan lines emails).
Proof. unfold emailHeaderScan. apply matches_valid_set. Qed.

Lemma extractEmails_valid_set (text : jsstring) :
  valid_set (extractEmailsFromText text).
Proof.
  unfold extractEmailsFromText.
  apply emailHeaderScan_valid_set, emailKeywordScan_valid_set.
  apply fold_left_invariant.
  { intros acc m Hacc. destruct (group m 1), (group m 2), (group m 3); try assumption.
    now apply add_email_valid_set. }
  apply fold_left_invariant.
  { intros acc pattern. apply matches_valid_set. }
  split; [constructor | intros e []].
Qed.

(** X1.  Every address returned by [extractEmailsFromText] has passed
    [isValidEmail], and no address is returned twice. *)
Theorem extractEmails_valid_distinct (text : jsstring) :
  NoDup (extractEmailsFromText text) /\
  forall e, In e (extractEmailsFromText text) -> isValidEmail e = true.
Proof. exact (extractEmails_valid_set text). Qed.

End WithHost.
End EmailExtraction.

(** ** Regular expressions that do not match; phone numbers in normal form *)

Module RegExpFacts.

(** A literal word fails at once on an input that does not start with a
    code unit matching its first character. *)
Lemma lit_js_mismatch (fl : flags) (input : jsstring) (c : N) (w : jsstring)
    (st : mstate) (k : cont) :
  match st_rest st with
  | x :: _ => char_matches fl c x = false
  | [] => True
  end ->
  rmatch fl input (lit_js (c :: w)) st k = None.
Proof.
  intros Hhead.
  assert (Hc : forall k', consume (char_matches fl c) st k' = None).
  { intros k'. unfold consume. destruct (st_rest st) as [|x tl]; [reflexivity|].
    now rewrite Hhead. }
  unfold lit_js. destruct w as [|c' w]; cbn [map rseq rmatch]; apply Hc.
Qed.

(** A pattern that fails at every start position has no match. *)
Lemma exec_from_none (fl : flags) (input : jsstring) (r : regex)
    (rest : list N) :
  (forall pos prev rest', match_here fl input r pos prev rest' = None) ->
  forall pos prev, exec_from fl input r pos prev rest = None.
Proof.
  intros Hnone. induction rest as [|c tl IH]; intros pos prev; cbn [exec_from];
    rewrite Hnone; [reflexivity | apply IH].
Qed.

(** The same, when the pattern fails on the suffixes of the input. *)
Lemma exec_from_none_on (P : N -> Prop) (fl : flags) (input : jsstring) (r : regex)
    (rest : list N) :
  (forall pos prev rest', Forall P rest' ->
     match_here fl input r pos prev rest' = None) ->
  Forall P rest ->
  forall pos prev, exec_from fl input r pos prev rest = None.
Proof.
  intros Hnone Hrest. induction Hrest as [|c tl Hc Htl IH]; intros pos prev;
    cbn [exec_from]; rewrite Hnone by (constructor; assumption);
    [reflexivity | apply IH].
Qed.

Lemma replace_g_no_match (fl : flags) (r : regex) (rep s : jsstring) :
  exec_from fl s r 0 None s = None -> replace_g fl r rep s = s.
Proof.
  intros Hnone. unfold replace_g, matchAll. cbn [matchAll_from].
  now rewrite Hnone.
Qed.

End RegExpFacts.
Import RegExpFacts.

Module PhoneNormalForm.
Import PhoneProps.

(** A normalised phone: a plus sign and then 10 to 15 digits. *)
Definition plus_digits (p : jsstring) : Prop :=
  exists ds, p = 43%N :: ds /\ forallb isDigit ds = true /\
             10 <= List.length ds <= 15.

Lemma formatted_plus_digits (valid : jsstring -> Prop) (p : jsstring) :
  formatted valid p -> plus_digits p.
Proof.
  intros [ds Hall Hcount _ [-> | [-> Hlen]]].
  - now exists ds.
  - exists (js "91" ++ ds). split; [reflexivity|]. split.
    + change (js "91" ++ ds) with (57%N :: 49%N :: ds). cbn [forallb].
      now rewrite Hall.
    + rewrite length_app. cbn [List.length js]. simpl. lia.
Qed.

Lemma digit_not_plus (ds : jsstring) :
  forallb isDigit ds = true -> count_char 43 ds = O.
Proof.
  intros Hall. apply EmailProps.count_char_nil_iff. intros Hin.
  rewrite forallb_forall in Hall. apply Hall in Hin. discriminate.
Qed.

Lemma digits_digit_or_plus (ds : jsstring) :
  forallb isDigit ds = true -> forallb digit_or_plus ds = true.
Proof.
  rewrite !forallb_forall. intros Hall x Hx. unfold digit_or_plus.
  now rewrite (Hall x Hx).
Qed.

(** Lower-casing and the removal of the labels leave a string of digits and
    plus signs as it is. *)
Lemma lower_ascii_digit_or_plus (s : jsstring) :
  forallb digit_or_plus s = true -> map lower_ascii s = s.
Proof.
  induction s as [|c s IH]; cbn [forallb map]; [reflexivity|].
  rewrite andb_true_iff. intros [Hc Hs]. rewrite (IH Hs). f_equal.
  unfold lower_ascii, digit_or_plus, isDigit, isUpper, in_range in *.
  destruct (N.leb_spec 65 c), (N.leb_spec c 90); cbn [andb]; try reflexivity.
  apply orb_true_iff in Hc. destruct Hc as [Hc | Hc].
  - apply andb_true_iff in Hc. destruct Hc as [_ Hc]. apply N.leb_le in Hc. lia.
  - apply N.eqb_eq in Hc. lia.
Qed.

Lemma digit_or_plus_ascii (s : jsstring) :
  forallb digit_or_plus s = true -> forallb (fun c => N.ltb c 128) s = true.
Proof.
  rewrite !forallb_forall. intros Hall x Hx. specialize (Hall x Hx).
  unfold digit_or_plus, isDigit, in_range in Hall. apply N.ltb_lt.
  apply orb_true_iff in Hall. destruct Hall as [Hc | Hc].
  - apply andb_true_iff in Hc. destruct Hc as [_ Hc]. apply N.leb_le in Hc. lia.
  - apply N.eqb_eq in Hc. lia.
Qed.

Lemma letter_mismatch (c x : N) :
  isLower c = true -> digit_or_plus x = true -> char_matches flag_i c x = false.
Proof.
  unfold char_matches, canon, upper_ascii, isLower, digit_or_plus, isDigit, in_range.
  cbn [ignoreCase flag_i]. intros Hc Hx. rewrite Hc.
  apply andb_true_iff in Hc. destruct Hc as [Hc1 Hc2].
  apply N.leb_le in Hc1, Hc2.
  assert (Hx' : (x <= 57)%N).
  { apply orb_true_iff in Hx. destruct Hx as [Hx | Hx].
    - apply andb_true_iff in Hx. destruct Hx as [_ Hx]. now apply N.leb_le in Hx.
    - apply N.eqb_eq in Hx. lia. }
  replace ((97 <=? x)%N && (x <=? 122)%N) with false
    by (symmetry; apply andb_false_iff; left; apply N.leb_gt; lia).
  apply N.eqb_neq. lia.
Qed.

End PhoneNormalForm.

Module ContactNormalForm.
Import ContactExtractor PhoneProps PhoneNormalForm.

(** A phone in the normal form of [cleanPhone]: a plus sign, then 10 to 15
    digits that pass [isValidPhone]. *)
Definition normal (p : jsstring) : Prop :=
  exists ds, p = 43%N :: ds /\ forallb isDigit ds = true /\
             10 <= List.length ds <= 15 /\ isValidPhone p ds = true.

Lemma isValidPhone_with_plus (phone ds : jsstring) :
  forallb isDigit ds = true ->
  isValidPhone phone ds = true -> isValidPhone (43%N :: ds) ds = true.
Proof.
  intros Hds. unfold isValidPhone.
  destruct (negb _); [discriminate|].
  destruct (1 <? count_char plus_sign phone); [discriminate|].
  intros Hrest.
  change (N.eqb 43 plus_sign || isDigit 43) with true. cbn [negb].
  unfold plus_sign at 1. rewrite EmailProps.count_char_here, (digit_not_plus _ Hds).
  exact Hrest.
Qed.

Lemma fake_length (ds : jsstring) :
  List.length ds <> 10 -> arr_includes fakeSequences ds = false.
Proof.
  intros Hlen. apply arr_includes_false. intros Hin. apply Hlen.
  unfold fakeSequences in Hin. cbn [map In] in Hin.
  repeat (destruct Hin as [<- | Hin]; [reflexivity|]). destruct Hin.
Qed.

Lemma isValidPhone_indian (ds : jsstring) :
  forallb isDigit ds = true -> List.length ds = 10 -> starts6to9 ds = true ->
  isValidPhone (js "+91" ++ ds) (js "91" ++ ds) = true.
Proof.
  intros Hds Hlen H69. unfold isValidPhone.
  change (js "+91" ++ ds) with (43%N :: 57%N :: 49%N :: ds).
  change (js "91" ++ ds) with (57%N :: 49%N :: ds).
  change (N.eqb 43 plus_sign || isDigit 43) with true. cbn [negb].
  unfold plus_sign at 1. rewrite EmailProps.count_char_here.
  replace (count_char 43 (57%N :: 49%N :: ds)) with O
    by (symmetry; apply (digit_not_plus (57%N :: 49%N :: ds)); cbn [forallb];
        now rewrite Hds).
  change (1 <? 1) with false. cbv iota.
  replace (all_same_digit (57%N :: 49%N :: ds)) with false by reflexivity.
  rewrite fake_length by (cbn [List.length]; lia).
  change (startsWith (57%N :: 49%N :: ds) (js "91")) with true.
  cbn [skipn List.length]. rewrite Hlen, H69. reflexivity.
Qed.

Lemma formatPhone_normal (cleaned : jsstring) :
  forallb digit_or_plus cleaned = true ->
  10 <= List.length (digits_of cleaned) <= 15 ->
  isValidPhone cleaned (digits_of cleaned) = true ->
  formatPhone cleaned (digits_of cleaned) = [] \/
  normal (formatPhone cleaned (digits_of cleaned)).
Proof.
  intros Hall Hcount Hvalid.
  assert (Hds : forallb isDigit (digits_of cleaned) = true)
    by apply forallb_filter.
  assert (Hplus : normal (43%N :: digits_of cleaned)).
  { exists (digits_of cleaned). split; [reflexivity|]. split; [assumption|].
    split; [assumption|]. now apply (isValidPhone_with_plus cleaned). }
  unfold formatPhone.
  destruct (startsWith cleaned [plus_sign]) eqn:Hstart.
  { right. destruct cleaned as [|c r]; [discriminate|].
    simpl in Hstart. rewrite andb_true_r in Hstart. apply N.eqb_eq in Hstart. subst c.
    destruct (Contact.isValidPhone_true _ _ Hvalid) as [Hone _].
    cbn [forallb] in Hall.
    rewrite (plus_then_digits r Hall Hone) at 1. exact Hplus. }
  destruct ((List.length (digits_of cleaned) =? 10)%nat && starts6to9 _) eqn:E1.
  { right. apply andb_true_iff in E1. destruct E1 as [E1 E2]. apply Nat.eqb_eq in E1.
    exists (js "91" ++ digits_of cleaned). split; [reflexivity|].
    split; [change (js "91" ++ digits_of cleaned)
              with (57%N :: 49%N :: digits_of cleaned); cbn [forallb]; now rewrite Hds|].
    split; [rewrite length_app; change (List.length (js "91")) with 2; lia|].
    now apply isValidPhone_indian. }
  destruct ((List.length (digits_of cleaned) =? 12)%nat && _); [now right|].
  destruct ((List.length (digits_of cleaned) =? 11)%nat && _); [now right|].
  destruct ((10 <? List.length (digits_of cleaned))%nat && _); [now right | now left].
Qed.

Lemma cleanDigits_normal (cleaned : jsstring) :
  cleanDigits cleaned = [] \/ normal (cleanDigits cleaned).
Proof.
  unfold cleanDigits.
  set (c1 := filter _ cleaned).
  assert (H1 : forallb digit_or_plus c1 = true) by apply forallb_filter.
  apply replace_leading_00_keeps in H1.
  set (c2 := replace_leading_00 c1) in *. clearbody c2. clear c1.
  fold (digits_of c2).
  destruct (_ || _) eqn:Hcount; [now left|].
  apply orb_false_iff in Hcount. destruct Hcount as [Hlo Hhi].
  apply Nat.ltb_ge in Hlo, Hhi.
  destruct (isValidPhone c2 (digits_of c2)) eqn:Hvalid; simpl; [|now left].
  apply formatPhone_normal; auto.
Qed.

Lemma normal_digit_or_plus (p : jsstring) :
  normal p -> forallb digit_or_plus p = true.
Proof.
  intros (ds & -> & Hds & _). cbn [forallb].
  now rewrite (digits_digit_or_plus _ Hds).
Qed.

(** The digit steps of [cleanPhone] leave a normal form as it is. *)
Lemma cleanDigits_fixed (p : jsstring) : normal p -> cleanDigits p = p.
Proof.
  intros Hn. pose proof (normal_digit_or_plus _ Hn) as Hall.
  destruct Hn as (ds & -> & Hds & Hcount & Hvalid).
  unfold cleanDigits.
  change (fun c : N => isDigit c || N.eqb c plus_sign) with digit_or_plus.
  rewrite (filter_all _ _ Hall).
  change (replace_leading_00 (43%N :: ds)) with (43%N :: ds).
  change (filter isDigit (43%N :: ds)) with (filter isDigit ds).
  rewrite (filter_all _ _ Hds), Hvalid.
  replace (List.length ds <? 10) with false by (symmetry; apply Nat.ltb_ge; lia).
  replace (15 <? List.length ds) with false by (symmetry; apply Nat.ltb_ge; lia).
  reflexivity.
Qed.

Lemma labels_start_with_letter :
  forallb (fun label => match js label with c :: _ => isLower c | [] => false end)
    labels = true.
Proof. reflexivity. Qed.

Lemma label_not_found (label : string) (s : jsstring) :
  In label labels -> forallb digit_or_plus s = true ->
  replace_g flag_i (label_regex label) [] s = s.
Proof.
  intros Hin Hs. apply replace_g_no_match.
  pose proof labels_start_with_letter as Hl. rewrite forallb_forall in Hl.
  specialize (Hl _ Hin). destruct (js label) as [|c w] eqn:El; [discriminate|].
  apply exec_from_none_on with (P := fun x => digit_or_plus x = true);
    [|now apply Forall_forall; rewrite forallb_forall in Hs].
  intros pos prev rest Hrest. unfold match_here, label_regex.
  cbn [rseq rmatch]. destruct (xorb _ _); [|reflexivity].
  change (lit label) with (lit_js (js label)). rewrite El.
  apply lit_js_mismatch. cbn [st_rest].
  destruct Hrest as [|x tl Hx _]; [exact I | now apply letter_mismatch].
Qed.

Section WithHost.
Context {H : Host}.

(** On a string of digits and plus signs, [cleanPhone] is its digit steps. *)
Lemma cleanPhone_digits (s : jsstring) :
  forallb digit_or_plus s = true -> cleanPhone s = cleanDigits s.
Proof.
  intros Hs. unfold cleanPhone.
  rewrite toLowerCase_ascii by now apply digit_or_plus_ascii.
  rewrite lower_ascii_digit_or_plus by assumption. f_equal.
  assert (Hfold : forall ls, incl ls labels ->
            fold_left (fun cleaned label => replace_g flag_i (label_regex label) [] cleaned)
              ls s = s).
  { induction ls as [|label ls IH]; intros Hincl; cbn [fold_left]; [reflexivity|].
    rewrite label_not_found; [|apply Hincl; now left | assumption].
    apply IH. intros x Hx. apply Hincl. now right. }
  apply Hfold, incl_refl.
Qed.

(** X2.  [cleanPhone] is idempotent: a phone it has normalised (or rejected,
    returning the empty string) comes back unchanged when it is cleaned
    again. *)
Theorem cleanPhone_idempotent (phone : jsstring) :
  cleanPhone (cleanPhone phone) = cleanPhone phone.
Proof.
  assert (Hshape : cleanPhone phone = [] \/ normal (cleanPhone phone))
    by apply cleanDigits_normal.
  destruct Hshape as [E | Hn].
  - rewrite E. now rewrite cleanPhone_digits.
  - rewrite cleanPhone_digits by now apply normal_digit_or_plus.
    now apply cleanDigits_fixed.
Qed.

End WithHost.
End ContactNormalForm.

(** ** The extracted phone numbers; the two modes of the skill extraction *)

Module PhoneExtraction.
Import PhoneProps PhoneNormalForm.

Section WithHost.
Context {H : Host}.

Lemma contact_phones_NoDup (text : jsstring) :
  NoDup (ContactExtractor.extractPhonesFromText text).
Proof.
  unfold ContactExtractor.extractPhonesFromText.
  apply fold_left_invariant; [|constructor].
  intros acc a Hacc. unfold ContactExtractor.add_phone.
  destruct (ContactExtractor.cleanPhone a); [assumption|].
  now apply set_add_NoDup.
Qed.

Lemma document_phones_NoDup (text : jsstring) :
  NoDup (DocumentParser.extractPhones text).
Proof.
  unfold DocumentParser.extractPhones.
  apply fold_left_invariant; [|constructor].
  intros acc a Hacc. unfold DocumentParser.add_phone.
  destruct (DocumentParser.cleanPhone a); [assumption|].
  now apply set_add_NoDup.
Qed.

(** X3.  The phones returned by either extractor are pairwise distinct, and each
    is a plus sign followed by 10 to 15 digits and nothing else. *)
Theorem extractPhones_plus_digits (text : jsstring) :
  (NoDup (ContactExtractor.extractPhonesFromText text) /\
   forall p, In p (ContactExtractor.extractPhonesFromText text) -> plus_digits p) /\
  (NoDup (DocumentParser.extractPhones text) /\
   forall p, In p (DocumentParser.extractPhones text) -> plus_digits p).
Proof.
  split; split.
  - apply contact_phones_NoDup.
  - intros p Hin. apply Contact.extractPhones_formatted in Hin.
    now apply formatted_plus_digits in Hin.
  - apply document_phones_NoDup.
  - intros p Hin. apply Document.doc_extractPhones_formatted in Hin.
    now apply formatted_plus_digits in Hin.
Qed.

End WithHost.
End PhoneExtraction.

Module SkillExtraction.
Import DocumentParser.

Section WithHost.
Context {H : Host}.

Lemma set_add_keeps (x s : jsstring) (l : list jsstring) :
  In x l -> In x (set_add s l).
Proof. intros Hx. apply set_add_In. now left. Qed.

Lemma addKnown_keeps (phrase : jsstring) (acc : list jsstring) (x : jsstring) :
  In x acc -> In x (addKnown phrase acc).
Proof.
  unfold addKnown. apply fold_left_keeps. intros acc' a Hx.
  destruct (_ || _); [now apply set_add_keeps | assumption].
Qed.

Lemma statementSkills_keeps (text : jsstring) (acc : list jsstring) (x : jsstring) :
  In x acc -> In x (statementSkills text acc).
Proof.
  unfold statementSkills. apply fold_left_keeps. intros acc1 pattern.
  apply fold_left_keeps. intros acc2 m Hx.
  destruct (group m 1) as [[|c g1]|]; try assumption.
  revert Hx. apply fold_left_keeps. intros acc3 phrase. apply addKnown_keeps.
Qed.

Lemma bulletSkills_keeps (text : jsstring) (acc : list jsstring) (x : jsstring) :
  In x acc -> In x (bulletSkills text acc).
Proof.
  unfold bulletSkills. apply fold_left_keeps. intros acc1 bullet.
  apply fold_left_keeps. intros acc2 a Hx.
  destruct (includes _ _); [now apply set_add_keeps | assumption].
Qed.

Lemma addKnown_NoDup (phrase : jsstring) (acc : list jsstring) :
  NoDup acc -> NoDup (addKnown phrase acc).
Proof.
  unfold addKnown. apply fold_left_invariant. intros acc' a Hacc.
  destruct (_ || _); [now apply set_add_NoDup | assumption].
Qed.

Lemma base_mode (text : jsstring) (isJobDescription : bool) :
  extractSkillsFromText text isJobDescription false = directSkills text [].
Proof. reflexivity. Qed.

Lemma aggressive_mode (text : jsstring) (isJobDescription : bool) :
  extractSkillsFromText text isJobDescription true =
  bulletSkills text (statementSkills text (directSkills text [])).
Proof. reflexivity. Qed.

Lemma extractSkills_NoDup (text : jsstring) (isJobDescription aggressive : bool) :
  NoDup (extractSkillsFromText text isJobDescription aggressive).
Proof.
  assert (Hdirect : NoDup (directSkills text [])).
  { unfold directSkills. apply fold_left_invariant; [|constructor].
    intros acc a Hacc. destruct (test _ _ _); [now apply set_add_NoDup | assumption]. }
  destruct aggressive; [rewrite aggressive_mode | now rewrite base_mode].
  unfold bulletSkills. apply fold_left_invariant.
  { intros acc1 bullet. apply fold_left_invariant. intros acc2 a Hacc.
    destruct (includes _ _); [now apply set_add_NoDup | assumption]. }
  unfold statementSkills. apply fold_left_invariant; [|assumption].
  intros acc1 pattern. apply fold_left_invariant. intros acc2 m Hacc.
  destruct (group m 1) as [[|c g1]|]; try assumption.
  revert Hacc. apply fold_left_invariant. intros acc3 phrase. apply addKnown_NoDup.
Qed.

Lemma set_add_extends (s : jsstring) (l : list jsstring) :
  exists more, set_add s l = l ++ more.
Proof.
  unfold set_add. destruct (arr_includes l s).
  - exists []. now rewrite app_nil_r.
  - now exists [s].
Qed.

(** A loop whose steps only append to the accumulator returns the initial
    accumulator followed by what was appended. *)
Lemma fold_left_extends {A : Type} (step : list jsstring -> A -> list jsstring)
    (xs : list A) (acc : list jsstring) :
  (forall acc a, exists more, step acc a = acc ++ more) ->
  exists more, fold_left step xs acc = acc ++ more.
Proof.
  intros Hstep.
  apply (fold_left_invariant (fun r => exists more, r = acc ++ more)).
  - intros r a [more ->]. destruct (Hstep (acc ++ more) a) as [more' ->].
    exists (more ++ more'). now rewrite app_assoc.
  - exists []. now rewrite app_nil_r.
Qed.

Lemma addKnown_extends (phrase : jsstring) (acc : list jsstring) :
  exists more, addKnown phrase acc = acc ++ more.
Proof.
  unfold addKnown. apply fold_left_extends. intros acc' a.
  destruct (_ || _); [apply set_add_extends|].
  exists []. now rewrite app_nil_r.
Qed.

Lemma statementSkills_extends (text : jsstring) (acc : list jsstring) :
  exists more, statementSkills text acc = acc ++ more.
Proof.
  unfold statementSkills. apply fold_left_extends. intros acc1 pattern.
  apply fold_left_extends. intros acc2 m.
  destruct (group m 1) as [[|c g1]|];
    try (exists []; now rewrite app_nil_r).
  apply fold_left_extends. intros acc3 phrase. apply addKnown_extends.
Qed.

Lemma bulletSkills_extends (text : jsstring) (acc : list jsstring) :
  exists more, bulletSkills text acc = acc ++ more.
Proof.
  unfold bulletSkills. apply fold_left_extends. intros acc1 bullet.
  apply fold_left_extends. intros acc2 a.
  destruct (includes _ _); [apply set_add_extends|].
  exists []. now rewrite app_nil_r.
Qed.

(** X4.  Aggressive mode only adds to base mode: its result is the result of
    base mode followed by the skills that the statement and bullet scans
    add; and no mode returns a skill twice. *)
Theorem aggressive_extends_base (text : jsstring) (isJobDescription : bool) :
  (exists more,
     extractSkillsFromText text isJobDescription true =
     extractSkillsFromText text isJobDescription false ++ more) /\
  NoDup (extractSkillsFromText text isJobDescription false) /\
  NoDup (extractSkillsFromText text isJobDescription true).
Proof.
  split; [|split; apply extractSkills_NoDup].
  rewrite base_mode, aggressive_mode.
  destruct (statementSkills_extends text (directSkills text [])) as [m1 E1].
  destruct (bulletSkills_extends text (statementSkills text (directSkills text [])))
    as [m2 E2].
  exists (m1 ++ m2). rewrite E2, E1. now rewrite app_assoc.
Qed.

End WithHost.
End SkillExtraction.

(** ** Sorting and merging work periods *)

Module PeriodProps.
Import JSDate GeminiParser.
Local Open Scope Z_scope.

(** Order of the sort: by start date. *)
Definition starts_before (p q : WorkPeriod) : Prop := start p <= start q.

(** A career gap: the next period starts more than [oneMonth] after the end
    of the previous one. *)
Definition gap (p q : WorkPeriod) : Prop := oneMonth < start q - end_ p.

(** Period [q] covers period [p]. *)
Definition covers (q p : WorkPeriod) : Prop :=
  start q <= start p /\ end_ p <= end_ q.

(** The merged periods of [calculateExperienceFromWorkHistory]. *)
Definition mergedPeriods (workPeriods : list WorkPeriod) : list WorkPeriod :=
  match sort_periods workPeriods with
  | [] => []
  | first :: rest => merge_periods first rest
  end.

Lemma totalExperience_merged (workPeriods : list WorkPeriod) :
  totalExperience workPeriods =
  match workPeriods with
  | [] => []
  | _ :: _ =>
      ExperienceProps.yearsString
        (fold_left (fun total p => total + monthsOf p) (mergedPeriods workPeriods) 0)
  end.
Proof.
  unfold totalExperience, mergedPeriods, ExperienceProps.yearsString.
  destruct workPeriods as [|p l]; [reflexivity|].
  destruct (sort_periods (p :: l)) as [|first rest] eqn:E; [|reflexivity].
  exfalso. cbn [sort_periods fold_right] in E.
  destruct (fold_right insert_period [] l) as [|q l']; cbn [insert_period] in E;
    [discriminate|].
  destruct (start p <=? start q); discriminate.
Qed.

Lemma insert_period_perm (p : WorkPeriod) (l : list WorkPeriod) :
  Permutation (insert_period p l) (p :: l).
Proof.
  induction l as [|q l IH]; cbn [insert_period]; [reflexivity|].
  destruct (start p <=? start q); [reflexivity|].
  rewrite IH. apply perm_swap.
Qed.

Lemma insert_period_sorted (p : WorkPeriod) (l : list WorkPeriod) :
  StronglySorted starts_before l -> StronglySorted starts_before (insert_period p l).
Proof.
  induction 1 as [|q l Hl IH Hq]; cbn [insert_period].
  - repeat constructor.
  - destruct (start p <=? start q) eqn:E.
    + apply Z.leb_le in E. constructor; [now constructor|].
      constructor; [exact E|].
      rewrite Forall_forall in *. intros x Hx. specialize (Hq x Hx).
      unfold starts_before in *. lia.
    + apply Z.leb_gt in E. constructor; [assumption|].
      rewrite Forall_forall in *. intros x Hx.
      apply (Permutation_in _ (insert_period_perm p l)) in Hx.
      destruct Hx as [<- | Hx]; [unfold starts_before; lia | now apply Hq].
Qed.

(** The sort keeps two periods with the same start in their input order. *)
Lemma insert_period_first (p : WorkPeriod) (l : list WorkPeriod) :
  Forall (fun q => start p <= start q) l -> insert_period p l = p :: l.
Proof.
  intros Hall. destruct Hall as [|q l Hq _]; cbn [insert_period]; [reflexivity|].
  apply Z.leb_le in Hq. now rewrite Hq.
Qed.

Lemma sort_periods_perm (workPeriods : list WorkPeriod) :
  Permutation (sort_periods workPeriods) workPeriods.
Proof.
  induction workPeriods as [|p l IH]; cbn [sort_periods fold_right]; [constructor|].
  rewrite insert_period_perm. now constructor.
Qed.

Lemma sort_periods_ordered (workPeriods : list WorkPeriod) :
  StronglySorted starts_before (sort_periods workPeriods).
Proof.
  induction workPeriods as [|p l IH]; cbn [sort_periods fold_right]; [constructor|].
  now apply insert_period_sorted.
Qed.

(** [workPeriods.sort(...)] returns the same periods, ordered by start
    date. *)
Lemma sort_periods_sorted (workPeriods : list WorkPeriod) :
  Permutation (sort_periods workPeriods) workPeriods /\
  StronglySorted starts_before (sort_periods workPeriods).
Proof. split; [apply sort_periods_perm | apply sort_periods_ordered]. Qed.

Lemma merge_periods_head (cur : WorkPeriod) (rest : list WorkPeriod) :
  exists q tl, merge_periods cur rest = q :: tl /\ start q = start cur.
Proof.
  revert cur. induction rest as [|next rest IH]; intros cur; cbn [merge_periods].
  - now exists cur, [].
  - destruct (_ <=? _).
    + destruct (IH {| start := start cur;
                      end_ := Z.max (end_ cur) (end_ next) |}) as (q & tl & E & Hq).
      now exists q, tl.
    + now exists cur, (merge_periods next rest).
Qed.

Lemma merge_periods_gaps (cur : WorkPeriod) (rest : list WorkPeriod) :
  Sorted gap (merge_periods cur rest).
Proof.
  revert cur. induction rest as [|next rest IH]; intros cur; cbn [merge_periods].
  - repeat constructor.
  - destruct (start next - end_ cur <=? oneMonth) eqn:E; [apply IH|].
    apply Z.leb_gt in E. constructor; [apply IH|].
    destruct (merge_periods_head next rest) as (q & tl & -> & Hq).
    constructor. unfold gap. lia.
Qed.

Lemma merge_periods_covers (cur : WorkPeriod) (rest : list WorkPeriod) :
  StronglySorted starts_before (cur :: rest) ->
  forall p, In p (cur :: rest) ->
  exists q, In q (merge_periods cur rest) /\ covers q p.
Proof.
  revert cur. induction rest as [|next rest IH]; intros cur Hs p Hp;
    cbn [merge_periods].
  - destruct Hp as [<- | []]. exists cur. split; [now left | unfold covers; lia].
  - apply StronglySorted_inv in Hs. destruct Hs as [Hs Hcur].
    pose proof Hs as Hs'. apply StronglySorted_inv in Hs'.
    destruct Hs' as [Hrest Hnext].
    destruct (_ <=? _).
    + set (cur' := {| start := start cur;
                      end_ := Z.max (end_ cur) (end_ next) |}).
      assert (Hsorted : StronglySorted starts_before (cur' :: rest)).
      { constructor; [assumption|].
        apply Forall_inv_tail in Hcur. exact Hcur. }
      assert (Hcov : forall x, covers x cur' -> covers x p \/ In p rest).
      { intros x [Hx1 Hx2]. cbn [start end_ cur'] in *.
        apply Forall_inv in Hcur. unfold starts_before in Hcur.
        destruct Hp as [<- | [<- | Hp]]; [left | left | now right];
          unfold covers; lia. }
      destruct (IH cur' Hsorted cur' (or_introl eq_refl)) as (q & Hq & Hqc).
      destruct (Hcov q Hqc) as [Hc | Hin]; [now exists q|].
      apply (IH cur' Hsorted p). now right.
    + destruct Hp as [<- | Hp].
      * exists cur. split; [now left | unfold covers; lia].
      * destruct (IH next Hs p Hp) as (q & Hq & Hqc).
        exists q. split; [now right | assumption].
Qed.

Lemma merge_periods_endpoints (cur : WorkPeriod) (rest : list WorkPeriod) :
  forall q, In q (merge_periods cur rest) ->
  (exists p, In p (cur :: rest) /\ start q = start p) /\
  (exists p, In p (cur :: rest) /\ end_ q = end_ p).
Proof.
  revert cur. induction rest as [|next rest IH]; intros cur q Hq;
    cbn [merge_periods] in Hq.
  - destruct Hq as [<- | []]. split; exists cur; split; auto; now left.
  - destruct (_ <=? _).
    + destruct (IH _ q Hq) as [(p & Hp & Es) (p' & Hp' & Ee)]. split.
      * destruct Hp as [<- | Hp]; [exists cur | exists p]; cbn [start] in *;
          split; auto; [now left | now right; right].
      * destruct Hp' as [<- | Hp']; [|exists p'; split; auto; now right; right].
        cbn [end_] in Ee. destruct (Z.max_spec (end_ cur) (end_ next)) as [[_ E]|[_ E]];
          rewrite E in Ee; [exists next | exists cur]; split; auto;
          [right; now left | now left].
    + destruct Hq as [<- | Hq]; [split; exists cur; split; auto; now left|].
      destruct (IH _ q Hq) as [(p & Hp & Es) (p' & Hp' & Ee)].
      split; [exists p | exists p']; split; auto; now right.
Qed.

(** X5.  The periods that come out of the merge are separated by career gaps of
    more than 30 days: each starts more than [oneMonth] after the end of
    the one before, whatever the input. *)
Theorem merged_periods_separated (workPeriods : list WorkPeriod) :
  Sorted gap (mergedPeriods workPeriods).
Proof.
  unfold mergedPeriods. destruct (sort_periods workPeriods); [constructor|].
  apply merge_periods_gaps.
Qed.

(** X6.  Nothing is lost in the merge: every work period lies within one of the
    merged periods, and a merged period starts where one of the work
    periods starts and ends where one of them ends. *)
Theorem merged_periods_cover (workPeriods : list WorkPeriod) :
  (forall p, In p workPeriods ->
     exists q, In q (mergedPeriods workPeriods) /\ covers q p) /\
  (forall q, In q (mergedPeriods workPeriods) ->
     (exists p, In p workPeriods /\ start q = start p) /\
     (exists p, In p workPeriods /\ end_ q = end_ p)).
Proof.
  pose proof (sort_periods_perm workPeriods) as Hperm.
  pose proof (sort_periods_ordered workPeriods) as Hsorted.
  unfold mergedPeriods. destruct (sort_periods workPeriods) as [|first rest].
  - split; [|intros q []].
    intros p Hp. apply (Permutation_in _ (Permutation_sym Hperm)) in Hp.
    destruct Hp.
  - split.
    + intros p Hp. apply (Permutation_in _ (Permutation_sym Hperm)) in Hp.
      now apply merge_periods_covers.
    + intros q Hq. destruct (merge_periods_endpoints _ _ q Hq)
        as [(p & Hp & Es) (p' & Hp' & Ee)].
      split; [exists p | exists p']; split; auto;
        now apply (Permutation_in _ Hperm).
Qed.

End PeriodProps.

(** ** Rounding months to years *)

Module RoundingProps.
Import JSNumber NumberProps.
Local Open Scope Z_scope.

(** [rne a b] is within one half of [a / b]. *)
Lemma rne_near (a b : Z) :
  0 < b -> 2 * (b * rne a b - a) <= b /\ 2 * (a - b * rne a b) <= b.
Proof.
  intros Hb. unfold rne.
  pose proof (Z.div_mod a b ltac:(lia)) as Hdm.
  pose proof (Z.mod_pos_bound a b Hb) as Hr.
  destruct (2 * (a mod b) <? b) eqn:E1; [apply Z.ltb_lt in E1; lia|].
  apply Z.ltb_ge in E1.
  destruct (b <? 2 * (a mod b)) eqn:E2; [apply Z.ltb_lt in E2; lia|].
  apply Z.ltb_ge in E2.
  destruct (Z.even (a / b)); lia.
Qed.

(** The quotient of a positive integer below [2^52] by 12, as [round53]
    computes it: a significand with at least 4 fractional bits, within one
    half of the exact scaled quotient. *)
Lemma div_by_12 (m : Z) :
  0 < m < 2 ^ 52 ->
  exists M s, div m 12 = Dyadic M (- s) /\ 4 <= s /\
              2 * (12 * M - m * 2 ^ s) <= 12 /\ 2 * (m * 2 ^ s - 12 * M) <= 12.
Proof.
  intros [Hm Hlt]. unfold div, round53.
  destruct (m <=? 0) eqn:E; [apply Z.leb_le in E; lia|]. clear E.
  change (Z.log2 12) with 3.
  assert (Hlog : Z.log2 m < 52) by (apply Z.log2_lt_pow2; lia).
  pose proof (Z.log2_nonneg m) as Hlog0.
  set (e0 := Z.log2 m - 3 - 52) in *.
  destruct (scaled m 12 e0) as [n0 d0].
  set (e := if n0 <? 2 ^ 52 * d0 then e0 - 1 else e0).
  assert (He : e <= -4) by (subst e e0; destruct (_ <? _); lia).
  unfold scaled. destruct (0 <=? e) eqn:E; [apply Z.leb_le in E; lia|]. clear E.
  exists (rne (m * 2 ^ (- e)) 12), (- e).
  rewrite Z.opp_involutive. split; [reflexivity|]. split; [lia|].
  apply rne_near. lia.
Qed.

(** X7.  [Math.round(totalMonths / 12)] is the exact rounding of the quotient,
    halves upwards: the binary64 division introduces no error that the
    rounding to an integer could see. *)
Theorem yearsOfMonths_exact (totalMonths : Z) :
  0 <= totalMonths < 2 ^ 52 ->
  GeminiParser.yearsOfMonths totalMonths = (totalMonths + 6) / 12.
Proof.
  intros [Hm Hlt]. unfold GeminiParser.yearsOfMonths.
  destruct (Z.eq_dec totalMonths 0) as [-> | Hne]; [reflexivity|].
  destruct (div_by_12 totalMonths ltac:(lia)) as (M & s & -> & Hs & Hlo & Hhi).
  unfold Math_round. cbn [expo mant].
  destruct (0 <=? - s) eqn:E; [apply Z.leb_le in E; lia|]. clear E.
  rewrite Z.opp_involutive.
  assert (HP : exists P', 2 ^ s = 2 * P' /\ 8 <= P').
  { exists (2 ^ (s - 1)). split.
    - rewrite <- Z.pow_succ_r by lia. f_equal. lia.
    - change 8 with (2 ^ 3). apply Z.pow_le_mono_r; lia. }
  destruct HP as (P' & EP & HP').
  replace (2 ^ (s + 1)) with (2 * 2 ^ s)
    by (rewrite Z.pow_add_r by lia; lia).
  rewrite EP in *. clear EP s Hs.
  set (q := (totalMonths + 6) / 12).
  pose proof (Z.div_mod (totalMonths + 6) 12 ltac:(lia)) as Hdm.
  pose proof (Z.mod_pos_bound (totalMonths + 6) 12 ltac:(lia)) as Hr.
  fold q in Hdm.
  symmetry. apply Z.div_unique with (r := 2 * M + 2 * P' - 2 * (2 * P') * q).
  - left. nia.
  - lia.
Qed.

Lemma yearsOfMonths_exact_witness :
  GeminiParser.yearsOfMonths 30 = 3 /\ GeminiParser.yearsOfMonths 5 = 0.
Proof.
  split.
  - rewrite (yearsOfMonths_exact 30); [reflexivity | split; [lia | reflexivity]].
  - rewrite (yearsOfMonths_exact 5); [reflexivity | split; [lia | reflexivity]].
Defined.

End RoundingProps.

(** ** The skill score: which required skills count *)

Module SkillScore.
Import SkillMatch SkillMatchProps.

Definition jsstring_eq_dec : forall a b : jsstring, {a = b} + {a <> b} :=
  list_eq_dec N.eq_dec.

(** Some tier matches the required skill. *)
Definition any_tier (cands : list jsstring) (r : jsstring) : bool :=
  exact_match cands r || partial_match cands r || substantial_match cands r ||
  equivalent_match cands r.

(** A tier after the first matches the required skill, and the first does
    not. *)
Definition later_tier_only (cands : list jsstring) (r : jsstring) : bool :=
  negb (exact_match cands r) &&
  (partial_match cands r || substantial_match cands r || equivalent_match cands r).

Lemma exact_count (cands l : list jsstring) (k : nat) (st : state) :
  matchCount (pass (exact_step cands) l k st) =
  matchCount st + List.length (filter (exact_match cands) l).
Proof.
  revert k st. induction l as [|r l IH]; intros k st.
  - cbn. lia.
  - rewrite pass_cons, IH. cbn [filter]. unfold exact_step.
    destruct (exact_match cands r); cbn [matchCount record_match List.length]; lia.
Qed.

Section Score.
Variable cands req : list jsstring.

(** What the three loops leave behind, in terms of the tier tests alone. *)
Lemma run_summary :
  (forall x, In x (matchedSkills (run cands req)) <->
             In x req /\ any_tier cands x = true) /\
  matchCount (run cands req) =
    List.length (filter (exact_match cands) req) +
    List.length (nodup jsstring_eq_dec (filter (later_tier_only cands) req)).
Proof.
  rewrite run_passes.
  set (st0 := State 0 [] []).
  destruct (exact_pass cands req 0 st0) as (new1 & _ & _ & Hm1 & _ & _).
  pose proof (exact_count cands req 0 st0) as Hcount1.
  set (st1 := pass (exact_step cands) req 0 st0) in *.
  destruct (check_pass (composite_dec cands) req 0 st1)
    as (new2 & _ & Hcount2 & Hm2 & Hnew2 & Hnd2 & Hall2).
  pose proof (check_pass_elements _ _ _ _ _ Hm2 Hnew2 Hall2) as Hel2.
  set (st2 := pass (check_step (composite_dec cands)) req 0 st1) in *.
  destruct (check_pass (tier_dec cands Equivalent) req 0 st2)
    as (new3 & _ & Hcount3 & Hm3 & Hnew3 & Hnd3 & Hall3).
  pose proof (check_pass_elements _ _ _ _ _ Hm3 Hnew3 Hall3) as Hel3.
  set (st3 := pass (check_step (tier_dec cands Equivalent)) req 0 st2) in *.
  cbn zeta in *.
  assert (HM1 : forall x, In x (matchedSkills st1) <->
                          In x req /\ exact_match cands x = true).
  { intros x. rewrite Hm1. cbn [matchedSkills st0 In]. tauto. }
  assert (Hc : forall x, composite_dec cands x <> None <->
                         partial_match cands x || substantial_match cands x = true).
  { intros x. unfold composite_dec.
    destruct (partial_match cands x), (substantial_match cands x); cbn;
      split; congruence. }
  assert (He : forall x, tier_dec cands Equivalent x <> None <->
                         equivalent_match cands x = true).
  { intros x. unfold tier_dec. cbn [tier_matches].
    destruct (equivalent_match cands x); split; congruence. }
  assert (HE2 : forall x, In x (map sk new2) <->
                  In x req /\ exact_match cands x = false /\
                  partial_match cands x || substantial_match cands x = true).
  { intros x. rewrite Hel2, Hc, HM1.
    destruct (exact_match cands x); intuition congruence. }
  assert (HE3 : forall x, In x (map sk new3) <->
                  In x req /\ exact_match cands x = false /\
                  partial_match cands x || substantial_match cands x = false /\
                  equivalent_match cands x = true).
  { intros x. rewrite Hel3, He, Hm2, in_app_iff, HM1, HE2.
    destruct (exact_match cands x),
      (partial_match cands x || substantial_match cands x);
      intuition congruence. }
  split.
  - intros x. rewrite Hm3, Hm2, !in_app_iff, HM1, HE2, HE3. unfold any_tier.
    destruct (exact_match cands x), (partial_match cands x),
      (substantial_match cands x), (equivalent_match cands x); cbn;
      intuition congruence.
  - rewrite Hcount3, Hcount2, Hcount1. cbn [matchCount st0].
    rewrite <- Nat.add_assoc. f_equal.
    rewrite <- (length_map sk new2), <- (length_map sk new3), <- length_app.
    apply Permutation_length. apply NoDup_Permutation.
    + apply NoDup_app; try assumption.
      intros x H2 H3. apply HE2 in H2. apply HE3 in H3.
      destruct H2 as (_ & _ & H2), H3 as (_ & _ & H3 & _). congruence.
    + apply NoDup_nodup.
    + intros x. rewrite in_app_iff, nodup_In, filter_In, HE2, HE3.
      unfold later_tier_only.
      destruct (exact_match cands x), (partial_match cands x),
        (substantial_match cands x), (equivalent_match cands x); cbn;
        intuition congruence.
Qed.

End Score.

(** X8.  A required skill ends up in the set of matched skills exactly when it
    passes the test of at least one of the four tiers. *)
Theorem matched_iff_some_tier (cands req : list jsstring) (x : jsstring) :
  has (run cands req) x = true <-> In x req /\ any_tier cands x = true.
Proof. rewrite has_In. apply run_summary. Qed.

(** X9.  The match count in closed form: every entry of the required list that
    is matched exactly counts, and every distinct required skill that only
    a later tier matches counts once, however often it is listed. *)
Theorem matchCount_closed_form (cands req : list jsstring) :
  matchCount (run cands req) =
    List.length (filter (exact_match cands) req) +
    List.length (nodup jsstring_eq_dec (filter (later_tier_only cands) req)).
Proof. apply run_summary. Qed.

End SkillScore.

(** ** The skill score as the callers use it *)

Module SkillScoreApi.
Import SkillMatch SkillMatchProps SkillScore.

(** [n / n * 100] rounds to exactly 100. *)
Lemma percentage_full (n : nat) : 0 < n -> percentage n n = 100%Z.
Proof.
  intros Hn. unfold percentage.
  assert (Hdiv : JSNumber.div (Z.of_nat n) (Z.of_nat n) = JSNumber.Dyadic (2 ^ 52) (-52)).
  { unfold JSNumber.div, JSNumber.round53.
    destruct (Z.of_nat n <=? 0)%Z eqn:E; [apply Z.leb_le in E; lia|]. clear E.
    replace (Z.log2 (Z.of_nat n) - Z.log2 (Z.of_nat n) - 52)%Z with (-52)%Z by lia.
    unfold JSNumber.scaled. change (0 <=? -52)%Z with false.
    change (- (-52))%Z with 52%Z. cbv beta iota zeta.
    replace (Z.of_nat n * 2 ^ 52 <? 2 ^ 52 * Z.of_nat n)%Z with false
      by (symmetry; apply Z.ltb_ge; lia).
    change (0 <=? -52)%Z with false. cbv beta iota zeta.
    change (- (-52))%Z with 52%Z.
    f_equal. unfold JSNumber.rne.
    rewrite (Z.mul_comm (Z.of_nat n)), Z.div_mul, Z.mod_mul by lia.
    replace (2 * 0 <? Z.of_nat n)%Z with true by (symmetry; apply Z.ltb_lt; lia).
    reflexivity. }
  rewrite Hdiv. vm_compute. reflexivity.
Qed.

Lemma existsb_same_elements {A : Type} (f : A -> bool) (l l' : list A) :
  (forall x, In x l <-> In x l') -> existsb f l = existsb f l'.
Proof.
  intros Hsame. destruct (existsb f l) eqn:E.
  - apply existsb_exists in E. destruct E as (x & Hx & Hf).
    symmetry. apply existsb_exists. exists x. split; [now apply Hsame | assumption].
  - destruct (existsb f l') eqn:E'; [|reflexivity].
    apply existsb_exists in E'. destruct E' as (x & Hx & Hf).
    assert (existsb f l = true); [|congruence].
    apply existsb_exists. exists x. split; [now apply Hsame | assumption].
Qed.

(** The tier tests look at the candidate skills as a set. *)
Lemma tier_matches_same_elements (c c' : list jsstring) (t : tier) (r : jsstring) :
  (forall x, In x c <-> In x c') -> tier_matches c t r = tier_matches c' t r.
Proof.
  intros Hsame. destruct t; cbn [tier_matches].
  - unfold exact_match, arr_includes. now apply existsb_same_elements.
  - unfold partial_match. f_equal. now apply existsb_same_elements.
  - unfold substantial_match. now apply existsb_same_elements.
  - unfold equivalent_match.
    assert (Hg : forall g, hasEquivalent c g = hasEquivalent c' g)
      by (intros g; unfold hasEquivalent; now apply existsb_same_elements).
    induction technologyEquivalents as [|g gs IH]; cbn [existsb]; [reflexivity|].
    now rewrite Hg, IH.
Qed.

Lemma filter_length_perm {A : Type} (f : A -> bool) (l l' : list A) :
  Permutation l l' -> List.length (filter f l) = List.length (filter f l').
Proof.
  induction 1 as [|x l l' _ IH|x y l|l l' l'' _ IH1 _ IH2]; cbn [filter].
  - reflexivity.
  - destruct (f x); cbn [List.length]; congruence.
  - destruct (f x), (f y); reflexivity.
  - congruence.
Qed.

Lemma matchCount_perm (c c' req req' : list jsstring) :
  (forall x, In x c <-> In x c') -> Permutation req req' ->
  matchCount (run c req) = matchCount (run c' req').
Proof.
  intros Hsame Hperm. rewrite (proj2 (run_summary c req)), (proj2 (run_summary c' req')).
  assert (He : forall r, exact_match c r = exact_match c' r)
    by (intros r; apply (tier_matches_same_elements c c' Exact r Hsame)).
  assert (Hl : forall r, later_tier_only c r = later_tier_only c' r).
  { intros r. unfold later_tier_only.
    rewrite (tier_matches_same_elements c c' Exact r Hsame : exact_match c r = _).
    rewrite (tier_matches_same_elements c c' Partial r Hsame : partial_match c r = _).
    rewrite (tier_matches_same_elements c c' Substantial r Hsame
             : substantial_match c r = _).
    rewrite (tier_matches_same_elements c c' Equivalent r Hsame
             : equivalent_match c r = _).
    reflexivity. }
  f_equal.
  - rewrite (filter_ext _ _ He). now apply filter_length_perm.
  - rewrite (filter_ext _ _ Hl).
    apply Permutation_length, NoDup_Permutation; try apply NoDup_nodup.
    intros x. rewrite !nodup_In, !filter_In.
    split; intros [Hx Hf]; (split; [|assumption]).
    + now apply (Permutation_in _ Hperm).
    + now apply (Permutation_in _ (Permutation_sym Hperm)).
Qed.

Section WithHost.
Context {H : Host}.

Lemma normalized_perm (l l' : list jsval) :
  Permutation l l' -> Permutation (normalized l) (normalized l').
Proof. apply Permutation_flat_map. Qed.

(** The value of [calculateMatchPercentage] once the degenerate cases are
    out of the way. *)
Lemma calculateMatchPercentage_run (candidateSkills requiredSkills : list jsval) :
  candidateSkills <> [] -> normalized requiredSkills <> [] ->
  calculateMatchPercentage candidateSkills requiredSkills =
  Some (percentage
          (matchCount (run (normalized candidateSkills) (normalized requiredSkills)))
          (List.length (normalized requiredSkills))).
Proof.
  intros Hc Hr. unfold calculateMatchPercentage, calculateMatch.
  rewrite !normalize_total.
  destruct requiredSkills as [|v l]; [now contradiction Hr|].
  destruct candidateSkills as [|w m]; [now contradiction Hc|].
  destruct (normalized (v :: l)) as [|r req]; [now contradiction Hr|].
  reflexivity.
Qed.

Lemma calculateMatchPercentage_empty (candidateSkills requiredSkills : list jsval) :
  candidateSkills = [] \/ normalized requiredSkills = [] ->
  calculateMatchPercentage candidateSkills requiredSkills = Some 0%Z.
Proof.
  unfold calculateMatchPercentage, calculateMatch.
  rewrite !normalize_total.
  intros [-> | ->].
  - destruct requiredSkills; reflexivity.
  - destruct requiredSkills, candidateSkills; reflexivity.
Qed.

(** X10.  The score does not depend on the order of the candidate skills nor on
    the order of the required skills. *)
Theorem score_order_irrelevant (c c' r r' : list jsval) :
  Permutation c c' -> Permutation r r' ->
  calculateMatchPercentage c r = calculateMatchPercentage c' r'.
Proof.
  intros Hc Hr.
  pose proof (normalized_perm _ _ Hc) as Hnc.
  pose proof (normalized_perm _ _ Hr) as Hnr.
  destruct (list_eq_dec jsstring_eq_dec (normalized r) []) as [Er | Er].
  { assert (Er' : normalized r' = [])
      by (rewrite Er in Hnr; now apply Permutation_nil in Hnr).
    rewrite !calculateMatchPercentage_empty; auto. }
  assert (Er' : normalized r' <> []).
  { intros E. rewrite E in Hnr. apply Permutation_sym, Permutation_nil in Hnr.
    contradiction. }
  destruct c as [|v c].
  { apply Permutation_nil in Hc. subst c'.
    rewrite !calculateMatchPercentage_empty; auto. }
  assert (Hc' : c' <> []).
  { intros E. subst c'. apply Permutation_sym, Permutation_nil in Hc. discriminate. }
  rewrite !calculateMatchPercentage_run by (assumption || discriminate).
  f_equal. f_equal.
  - apply matchCount_perm; [|assumption].
    intros x. split; apply Permutation_in; [|apply Permutation_sym]; assumption.
  - now apply Permutation_length.
Qed.


Lemma normalized_strings (l : list jsval) :
  normalized (filter is_string l) = normalized l.
Proof.
  induction l as [|v l IH]; [reflexivity|].
  destruct v as [s|]; cbn [filter is_string]; [|exact IH].
  change (normalized (JString s :: ?l)) with (trim (toLowerCase s) :: normalized l).
  unfold normalized in *. cbn [flat_map app]. now rewrite IH.
Qed.

Lemma no_candidates_count (req : list jsstring) : matchCount (run [] req) = 0.
Proof.
  rewrite (proj2 (run_summary [] req)).
  assert (He : filter (exact_match []) req = []).
  { induction req as [|r req IH]; [reflexivity|]. cbn [filter].
    now rewrite (no_candidates Exact r : exact_match [] r = false). }
  assert (Hl : filter (later_tier_only []) req = []).
  { clear He. induction req as [|r req IH]; [reflexivity|]. cbn [filter].
    unfold later_tier_only at 1.
    rewrite (no_candidates Partial r : partial_match [] r = false).
    rewrite (no_candidates Substantial r : substantial_match [] r = false).
    rewrite (no_candidates Equivalent r : equivalent_match [] r = false).
    cbn [orb]. rewrite andb_false_r. exact IH. }
  now rewrite He, Hl.
Qed.

(** X11.  Entries that are not strings never affect the score: filtering them out
    before the call, as the export of the candidate table does, changes
    nothing. *)
Theorem non_strings_ignored (candidateSkills requiredSkills : list jsval) :
  calculateMatchPercentage candidateSkills requiredSkills =
  calculateMatchPercentage (filter is_string candidateSkills)
    (filter is_string requiredSkills).
Proof.
  destruct (list_eq_dec jsstring_eq_dec (normalized requiredSkills) []) as [Er | Er].
  { rewrite !calculateMatchPercentage_empty; auto.
    right. now rewrite normalized_strings. }
  destruct candidateSkills as [|v c].
  { rewrite !calculateMatchPercentage_empty; auto. }
  rewrite calculateMatchPercentage_run by (assumption || discriminate).
  destruct (filter is_string (v :: c)) as [|w c'] eqn:Ef.
  - rewrite calculateMatchPercentage_empty by auto.
    rewrite <- (normalized_strings (v :: c)), Ef.
    change (normalized []) with (@nil jsstring).
    now rewrite no_candidates_count.
  - rewrite calculateMatchPercentage_run
      by (discriminate || now rewrite normalized_strings).
    rewrite <- Ef. now rewrite !normalized_strings.
Qed.

Lemma filter_all_true {A : Type} (f : A -> bool) (l : list A) :
  (forall x, In x l -> f x = true) -> filter f l = l.
Proof.
  induction l as [|x l IH]; intros Hall; cbn [filter]; [reflexivity|].
  rewrite (Hall x (or_introl eq_refl)), IH; [reflexivity|].
  intros y Hy. apply Hall. now right.
Qed.

Lemma filter_all_false {A : Type} (f : A -> bool) (l : list A) :
  (forall x, In x l -> f x = false) -> filter f l = [].
Proof.
  induction l as [|x l IH]; intros Hall; cbn [filter]; [reflexivity|].
  rewrite (Hall x (or_introl eq_refl)). apply IH.
  intros y Hy. apply Hall. now right.
Qed.

(** X12.  A candidate who has every required skill, up to case and surrounding
    blanks, scores 100. *)
Theorem all_required_present (candidateSkills requiredSkills : list jsval) :
  normalized requiredSkills <> [] ->
  incl (normalized requiredSkills) (normalized candidateSkills) ->
  calculateMatchPercentage candidateSkills requiredSkills = Some 100%Z.
Proof.
  intros Hr Hincl.
  assert (Hc : candidateSkills <> []).
  { intros ->. destruct (normalized requiredSkills) as [|x l]; [congruence|].
    destruct (Hincl x (or_introl eq_refl)). }
  rewrite calculateMatchPercentage_run by assumption. f_equal.
  rewrite (proj2 (run_summary _ _)).
  assert (Hex : forall x, In x (normalized requiredSkills) ->
                  exact_match (normalized candidateSkills) x = true).
  { intros x Hx. apply arr_includes_In. now apply Hincl. }
  rewrite (filter_all_true _ _ Hex), filter_all_false.
  - cbn [nodup List.length]. rewrite Nat.add_0_r. apply percentage_full.
    destruct (normalized requiredSkills); [congruence | cbn; lia].
  - intros x Hx. unfold later_tier_only. now rewrite (Hex x Hx).
Qed.

Lemma filter_partition_length (cands req : list jsstring) :
  List.length (filter (exact_match cands) req) +
  List.length (filter (later_tier_only cands) req) =
  List.length (filter (any_tier cands) req).
Proof.
  induction req as [|r req IH]; [reflexivity|]. cbn [filter].
  unfold later_tier_only at 1, any_tier at 1.
  destruct (exact_match cands r), (partial_match cands r),
    (substantial_match cands r), (equivalent_match cands r);
    cbn [negb andb orb List.length]; lia.
Qed.

(** X13.  When no required skill is listed twice, the score is the share of the
    required skills that pass the test of at least one tier, as a rounded
    percentage. *)
Theorem score_of_distinct_required (candidateSkills requiredSkills : list jsval) :
  candidateSkills <> [] -> normalized requiredSkills <> [] ->
  NoDup (normalized requiredSkills) ->
  calculateMatchPercentage candidateSkills requiredSkills =
  Some (percentage
          (List.length (filter (any_tier (normalized candidateSkills))
                          (normalized requiredSkills)))
          (List.length (normalized requiredSkills))).
Proof.
  intros Hc Hr Hnd. rewrite calculateMatchPercentage_run by assumption.
  f_equal. f_equal. rewrite (proj2 (run_summary _ _)).
  rewrite nodup_fixed_point by now apply NoDup_filter.
  apply filter_partition_length.
Qed.

End WithHost.
End SkillScoreApi.

Module SkillScoreExamples.
Import SkillMatch SkillScoreApi.
Local Open Scope string_scope.

Definition strings (l : list string) : list jsval := map (fun s => JString (js s)) l.

Lemma all_required_present_witness :
  calculateMatchPercentage (strings ["Python"; " SQL "; "Docker"]) (strings ["python"; "sql"])
  = Some 100%Z.
Proof.
  apply all_required_present.
  - vm_compute. discriminate.
  - vm_compute. intros x [<- | [<- | []]]; tauto.
Defined.

(** "lambda" is matched through "aws lambda" (substantial), "rust" is not
    matched: one of two. *)
Lemma score_of_distinct_required_witness :
  calculateMatchPercentage (strings ["AWS Lambda"]) (strings ["lambda"; "rust"]) = Some 50%Z.
Proof.
  rewrite score_of_distinct_required.
  - vm_compute. reflexivity.
  - discriminate.
  - vm_compute. discriminate.
  - vm_compute. constructor; [intros [E | []]; discriminate|].
    constructor; [intros []|]. constructor.
Defined.

Lemma score_order_irrelevant_witness :
  calculateMatchPercentage (strings ["AWS Lambda"; "Python"]) (strings ["lambda"; "rust"]) =
  calculateMatchPercentage (strings ["Python"; "AWS Lambda"]) (strings ["rust"; "lambda"]).
Proof. apply score_order_irrelevant; apply perm_swap. Defined.

End SkillScoreExamples.

(** ** Whole-word matches *)

Module WordMatch.

(** The code unit before a position: the last one of the text before it. *)
Definition last_unit (prev : option N) (a : jsstring) : option N :=
  match rev a with x :: _ => Some x | [] => prev end.

(** Consuming a literal word: the state after it, when the input starts
    with the word. *)
Fixpoint eat (fl : flags) (w : jsstring) (st : mstate) : option mstate :=
  match w with
  | [] => Some st
  | c :: w' =>
      match st_rest st with
      | x :: tl =>
          if char_matches fl c x
          then eat fl w' (MState (S (st_pos st)) (Some x) tl (st_caps st))
          else None
      | [] => None
      end
  end.

Lemma lit_js_eat (fl : flags) (input w : jsstring) (st : mstate) (k : cont) :
  rmatch fl input (lit_js w) st k =
  match eat fl w st with Some st' => k st' | None => None end.
Proof.
  revert st. induction w as [|c w IH]; intros st; [reflexivity|].
  destruct w as [|c' w].
  - cbn [lit_js map rseq rmatch eat]. unfold consume.
    destruct (st_rest st) as [|x tl]; [reflexivity|].
    destruct (char_matches fl c x); reflexivity.
  - change (lit_js (c :: c' :: w)) with (RSeq (RChar c) (lit_js (c' :: w))).
    cbn [rmatch]. unfold consume. cbn [eat].
    destruct (st_rest st) as [|x tl]; [reflexivity|].
    destruct (char_matches fl c x); [apply IH | reflexivity].
Qed.

Lemma last_unit_app (prev : option N) (a b : jsstring) :
  last_unit prev (a ++ b) = last_unit (last_unit prev a) b.
Proof.
  unfold last_unit. rewrite rev_app_distr.
  destruct (rev b) as [|x tl]; [rewrite app_nil_l|]; reflexivity.
Qed.

Lemma last_unit_cons (prev : option N) (x : N) (a : jsstring) :
  last_unit prev (x :: a) = last_unit (Some x) a.
Proof. apply (last_unit_app prev [x] a). Qed.

Lemma eat_spec (fl : flags) (w : jsstring) (pos : nat) (prev : option N)
    (rest : jsstring) (caps : list (nat * (nat * nat))) (st' : mstate) :
  eat fl w (MState pos prev rest caps) = Some st' <->
  exists m rest',
    rest = m ++ rest' /\
    Forall2 (fun c x => char_matches fl c x = true) w m /\
    st' = MState (pos + List.length w) (last_unit prev m) rest' caps.
Proof.
  revert pos prev rest. induction w as [|c w IH]; intros pos prev rest; cbn [eat st_rest].
  - split.
    + intros E. injection E as <-. exists [], rest.
      rewrite Nat.add_0_r. repeat split. constructor.
    + intros (m & rest' & -> & Hm & ->). inversion Hm; subst.
      now rewrite Nat.add_0_r.
  - destruct rest as [|x tl].
    + split; [discriminate|]. intros (m & rest' & E & Hm & _).
      inversion Hm; subst. discriminate.
    + cbn [st_pos st_caps]. destruct (char_matches fl c x) eqn:Hc.
      * rewrite IH. split.
        -- intros (m & rest' & -> & Hm & ->). exists (x :: m), rest'.
           split; [reflexivity|]. split; [now constructor|].
           rewrite last_unit_cons. cbn [List.length]. f_equal. lia.
        -- intros (m & rest' & E & Hm & ->). inversion Hm as [|? y ? m' Hy Hm']; subst.
           injection E as <- ->. exists m', rest'.
           split; [reflexivity|]. split; [assumption|].
           rewrite last_unit_cons. cbn [List.length]. f_equal. lia.
      * split; [discriminate|]. intros (m & rest' & E & Hm & _).
        inversion Hm as [|? y ? m' Hy Hm']; subst. injection E as <- ->. congruence.
Qed.

(** The search for a match visits every position of the input. *)
Lemma exec_from_found (fl : flags) (input : jsstring) (r : regex)
    (pos : nat) (prev : option N) (rest : jsstring) :
  exec_from fl input r pos prev rest <> None <->
  exists a b, rest = a ++ b /\
    match_here fl input r (pos + List.length a) (last_unit prev a) b <> None.
Proof.
  revert pos prev. induction rest as [|c tl IH]; intros pos prev; cbn [exec_from].
  - destruct (match_here fl input r pos prev []) eqn:E.
    + split; [|discriminate]. intros _. exists [], [].
      rewrite Nat.add_0_r. split; [reflexivity|]. cbn. congruence.
    + split; [congruence|]. intros (a & b & Hab & Hm).
      symmetry in Hab. apply app_eq_nil in Hab. destruct Hab as [-> ->].
      rewrite Nat.add_0_r in Hm. cbn in Hm. congruence.
  - destruct (match_here fl input r pos prev (c :: tl)) eqn:E.
    + split; [|discriminate]. intros _. exists [], (c :: tl).
      rewrite Nat.add_0_r. split; [reflexivity|]. cbn. congruence.
    + rewrite IH. split.
      * intros (a & b & -> & Hm). exists (c :: a), b. split; [reflexivity|].
        rewrite last_unit_cons. cbn [List.length].
        now replace (pos + S (List.length a)) with (S pos + List.length a) by lia.
      * intros (a & b & Hab & Hm). destruct a as [|x a].
        -- cbn in Hab. subst b. rewrite Nat.add_0_r in Hm. cbn in Hm. congruence.
        -- injection Hab as <- ->. exists a, b. split; [reflexivity|].
           rewrite last_unit_cons in Hm. cbn [List.length] in Hm.
           now replace (S pos + List.length a) with (pos + S (List.length a)) by lia.
Qed.

(** The same word, up to the case of the Basic Latin letters. *)
Definition same_ignoring_case (w m : jsstring) : Prop :=
  Forall2 (fun c x => upper_ascii c = upper_ascii x) w m.

(** [w] occurs in [text] as a whole word: some [m] that is [w] up to case,
    with a word boundary in front of it and one behind it. *)
Definition occurs_as_word (w text : jsstring) : Prop :=
  exists a m b,
    text = a ++ m ++ b /\ same_ignoring_case w m /\
    is_word (last_unit None a) <> is_word (hd_error (m ++ b)) /\
    is_word (last_unit None (a ++ m)) <> is_word (hd_error b).

Lemma xorb_neq (x y : bool) : xorb x y = true <-> x <> y.
Proof. destruct x, y; cbn; split; congruence. Qed.

Lemma Forall2_case (w m : jsstring) :
  Forall2 (fun c x => char_matches flag_i c x = true) w m <-> same_ignoring_case w m.
Proof.
  unfold same_ignoring_case. split; intros Hf; induction Hf; constructor; auto.
  - now apply N.eqb_eq.
  - now apply N.eqb_eq.
Qed.

Lemma word_regex_here (input w : jsstring) (pos : nat) (prev : option N)
    (rest : jsstring) :
  match_here flag_i input (rseq [RWordB; lit_js w; RWordB]) pos prev rest <> None <->
  exists m b, rest = m ++ b /\ same_ignoring_case w m /\
    is_word prev <> is_word (hd_error rest) /\
    is_word (last_unit prev m) <> is_word (hd_error b).
Proof.
  unfold match_here. cbn [rseq rmatch st_prev st_rest].
  destruct (xorb (is_word prev) (is_word (hd_error rest))) eqn:Hb.
  - apply xorb_neq in Hb. rewrite lit_js_eat.
    destruct (eat flag_i w (MState pos prev rest [])) as [st'|] eqn:He.
    + apply eat_spec in He. destruct He as (m & b & -> & Hm & ->).
      cbn [rmatch st_prev st_rest]. apply Forall2_case in Hm.
      destruct (xorb _ _) eqn:Hb2.
      * apply xorb_neq in Hb2. split; [|discriminate]. intros _. now exists m, b.
      * split; [congruence|]. intros (m' & b' & E & Hm' & _ & Hb').
        assert (Hlen : List.length m = List.length m').
        { rewrite <- (Forall2_length Hm), <- (Forall2_length Hm'). reflexivity. }
        assert (Em : m = m' /\ b = b').
        { clear - E Hlen. revert m' E Hlen. induction m as [|x m IH]; intros [|y m'] E Hlen;
            try discriminate; [now split|].
          injection E as -> E. injection Hlen as Hlen.
          destruct (IH m' E Hlen) as [-> ->]. now split. }
        destruct Em as [<- <-]. apply xorb_neq in Hb'. congruence.
    + split; [congruence|]. intros (m & b & E & Hm & _ & _).
      assert (eat flag_i w (MState pos prev rest []) <> None); [|congruence].
      assert (Hs : exists st', eat flag_i w (MState pos prev rest []) = Some st').
      { eexists. apply eat_spec. exists m, b. split; [exact E|].
        split; [now apply Forall2_case | reflexivity]. }
      destruct Hs as [st' ->]. discriminate.
  - split; [congruence|]. intros (m & b & _ & _ & Hb' & _).
    apply xorb_neq in Hb'. congruence.
Qed.

(** The regex [\bword\b] with the flag [i] finds the word exactly when it
    occurs in the text as a whole word. *)
Lemma word_regex_test (w text : jsstring) :
  test flag_i (rseq [RWordB; lit_js w; RWordB]) text = true <-> occurs_as_word w text.
Proof.
  unfold test, exec.
  assert (Hne : exec_from flag_i text (rseq [RWordB; lit_js w; RWordB]) 0 None text <> None
                <-> occurs_as_word w text).
  { rewrite exec_from_found. unfold occurs_as_word. split.
    - intros (a & rest & -> & Hm). apply word_regex_here in Hm.
      destruct Hm as (m & b & -> & Hw & Hb1 & Hb2).
      exists a, m, b. repeat split; try assumption. now rewrite last_unit_app.
    - intros (a & m & b & -> & Hw & Hb1 & Hb2). exists a, (m ++ b).
      split; [reflexivity|]. apply word_regex_here. exists m, b.
      repeat split; try assumption. now rewrite <- last_unit_app. }
  destruct (exec_from flag_i text _ 0 None text) as [[i st]|].
  - split; [intros _; apply Hne; discriminate | reflexivity].
  - split; [discriminate|]. intros Ho. apply Hne in Ho. congruence.
Qed.

End WordMatch.

Module SkillWords.
Import DocumentParser WordMatch SkillExtraction.

Section WithHost.
Context {H : Host}.

Lemma directSkills_found (text : jsstring) (ks acc : list jsstring) (x : jsstring) :
  In x (fold_left
          (fun foundSkills skill =>
             if test flag_i (skill_regex skill) text
             then set_add skill foundSkills else foundSkills) ks acc) <->
  In x acc \/ (In x ks /\ test flag_i (skill_regex x) text = true).
Proof.
  revert acc. induction ks as [|k ks IH]; intros acc; cbn [fold_left In].
  - tauto.
  - rewrite IH. destruct (test flag_i (skill_regex k) text) eqn:E.
    + rewrite set_add_In. split.
      * intros [[Hx | ->] | [Hx Ht]]; auto.
      * intros [Hx | [[-> | Hx] Ht]]; auto.
    + split.
      * intros [Hx | [Hx Ht]]; auto.
      * intros [Hx | [[-> | Hx] Ht]]; auto. congruence.
Qed.

(** X14.  In base mode a skill of the dictionary is returned exactly when it
    occurs in the text as a whole word, the case of the letters aside: a
    word boundary must precede its first and follow its last character. *)
Theorem base_mode_whole_words (text : jsstring) (isJobDescription : bool)
    (skill : jsstring) :
  In skill (extractSkillsFromText text isJobDescription false) <->
  In skill skillKeywords /\ occurs_as_word skill text.
Proof.
  rewrite base_mode. unfold directSkills. rewrite directSkills_found.
  unfold skill_regex. rewrite word_regex_test. cbn [In]. tauto.
Qed.

End WithHost.
End SkillWords.

(** ** The common skills of the fallback parser *)

Module SubstringFacts.

Lemma startsWith_prefix (s p : jsstring) :
  startsWith s p = true <-> exists post, s = p ++ post.
Proof.
  revert s. induction p as [|y p IH]; intros s; cbn [startsWith].
  - split; [intros _; now exists s | reflexivity].
  - destruct s as [|x s].
    + split; [discriminate | intros [post E]; discriminate].
    + rewrite andb_true_iff, N.eqb_eq, IH. split.
      * intros [-> [post ->]]. now exists post.
      * intros [post E]. injection E as -> ->. split; [reflexivity | now exists post].
Qed.

(** [s.includes(p)]: [p] occurs somewhere in [s]. *)
Lemma includes_occurs (s p : jsstring) :
  includes s p = true <-> exists pre post, s = pre ++ p ++ post.
Proof.
  induction s as [|x s IH]; cbn [includes].
  - rewrite orb_false_r, startsWith_prefix. split.
    + intros [post E]. now exists [], post.
    + intros (pre & post & E). destruct pre; [now exists post|discriminate].
  - rewrite orb_true_iff, startsWith_prefix, IH. split.
    + intros [[post E] | (pre & post & ->)].
      * now exists [], post.
      * now exists (x :: pre), post.
    + intros (pre & post & E). destruct pre as [|y pre].
      * left. now exists post.
      * right. injection E as -> ->. now exists pre, post.
Qed.

Lemma includes_trans (s p q : jsstring) :
  includes s p = true -> includes p q = true -> includes s q = true.
Proof.
  rewrite !includes_occurs. intros (a & b & ->) (c & d & ->).
  exists (a ++ c), (d ++ b). now rewrite <- !app_assoc.
Qed.

End SubstringFacts.
Import SubstringFacts.

Module CommonSkillsProps.
Import GeminiHelpers.

Lemma commonSkills_ascii :
  forallb (fun skill => forallb (fun c => N.ltb c 128) skill) commonSkills = true.
Proof. vm_compute. reflexivity. Qed.

Section WithHost.
Context {H : Host}.

Lemma lower_skill (skill : jsstring) :
  In skill commonSkills -> toLowerCase skill = map lower_ascii skill.
Proof.
  intros Hin. apply toLowerCase_ascii.
  pose proof commonSkills_ascii as Ha. rewrite forallb_forall in Ha. now apply Ha.
Qed.

(** The loop of [extractCommonSkills] as a filter of the skill list. *)
Lemma extractCommonSkills_filter (text : jsstring) :
  extractCommonSkills text =
  filter (fun skill => includes (toLowerCase text) (toLowerCase skill)) commonSkills.
Proof.
  unfold extractCommonSkills.
  assert (Hgen : forall l acc,
            fold_left
              (fun foundSkills skill =>
                 if includes (toLowerCase text) (toLowerCase skill)
                 then foundSkills ++ [skill] else foundSkills) l acc =
            acc ++ filter (fun skill => includes (toLowerCase text) (toLowerCase skill)) l).
  { induction l as [|k l IH]; intros acc; cbn [fold_left filter].
    - now rewrite app_nil_r.
    - rewrite IH. destruct (includes _ _); [|reflexivity].
      now rewrite <- app_assoc. }
  rewrite Hgen. reflexivity.
Qed.

(** X15.  A skill of the list is returned whenever a returned skill contains it,
    the case of the letters aside: "Java" comes with "JavaScript", "SQL"
    with "MySQL", "Git" with "GitHub". *)
Theorem contained_skills_follow (text a b : jsstring) :
  In a commonSkills ->
  In b (extractCommonSkills text) ->
  includes (map lower_ascii b) (map lower_ascii a) = true ->
  In a (extractCommonSkills text).
Proof.
  rewrite extractCommonSkills_filter, !filter_In. intros Ha [Hb Hfound] Hsub.
  split; [assumption|].
  rewrite (lower_skill a Ha). rewrite (lower_skill b Hb) in Hfound.
  now apply (includes_trans _ _ _ Hfound).
Qed.

End WithHost.

Lemma contained_skills_follow_witness :
  In (js "Java") (extractCommonSkills (js "Senior JavaScript developer")).
Proof.
  apply (contained_skills_follow _ (js "Java") (js "JavaScript")).
  - vm_compute. tauto.
  - vm_compute. tauto.
  - vm_compute. reflexivity.
Defined.

End CommonSkillsProps.

(** ** Names and titles from file names *)

Module FileNameProps.
Import GeminiHelpers WordMatch.

Definition separator_free (s : jsstring) : Prop :=
  forall c, In c s -> c <> 95%N /\ c <> 45%N.

Lemma firstn_elements (n : nat) (s : jsstring) (c : N) : In c (firstn n s) -> In c s.
Proof.
  revert n. induction s as [|x s IH]; intros [|n]; cbn [firstn In]; try tauto.
  intros [-> | Hin]; [now left | right; now apply (IH n)].
Qed.

Lemma skipn_elements (n : nat) (s : jsstring) (c : N) : In c (skipn n s) -> In c s.
Proof.
  revert n. induction s as [|x s IH]; intros [|n]; cbn [skipn In]; try tauto.
  intros Hin. right. now apply (IH n).
Qed.

Lemma replace_first_elements (fl : flags) (r : regex) (s : jsstring) (c : N) :
  In c (replace_first fl r [] s) -> In c s.
Proof.
  unfold replace_first. destruct (exec fl r s) as [m|]; [|auto].
  rewrite app_nil_l, in_app_iff.
  intros [Hin | Hin]; [now apply firstn_elements in Hin | now apply skipn_elements in Hin].
Qed.

Lemma spaces_for_separators_free (s : jsstring) :
  separator_free (spaces_for_separators s).
Proof.
  intros c Hin. unfold spaces_for_separators in Hin. apply in_map_iff in Hin.
  destruct Hin as (x & <- & _).
  destruct (one_of "_-" x) eqn:E; [split; discriminate|].
  unfold one_of in E. cbn [existsb js map list_ascii_of_string] in E.
  rewrite !orb_false_iff in E. destruct E as (E1 & E2 & _).
  change (N_of_ascii "_") with 95%N in E1. change (N_of_ascii "-") with 45%N in E2.
  apply N.eqb_neq in E1, E2. now split.
Qed.

Lemma upper_ascii_not_lower (c : N) : isLower (upper_ascii c) = false.
Proof.
  unfold upper_ascii. destruct (isLower c) eqn:E; [|assumption].
  unfold isLower, in_range in *. apply andb_true_iff in E. destruct E as [E1 E2].
  apply N.leb_le in E1, E2. apply andb_false_iff. left. apply N.leb_gt. lia.
Qed.

Lemma upper_ascii_word (c : N) : isWordChar (upper_ascii c) = isWordChar c.
Proof.
  unfold upper_ascii. destruct (isLower c) eqn:E; [|reflexivity].
  unfold isWordChar, isAlpha. rewrite E, orb_true_r. cbn [orb].
  unfold isLower, isUpper, in_range in *. apply andb_true_iff in E.
  destruct E as [E1 E2]. apply N.leb_le in E1, E2.
  replace ((65 <=? c - 32)%N && (c - 32 <=? 90)%N) with true; [reflexivity|].
  symmetry. apply andb_true_iff. split; apply N.leb_le; lia.
Qed.

Lemma upper_ascii_separator (c : N) :
  c <> 95%N /\ c <> 45%N -> upper_ascii c <> 95%N /\ upper_ascii c <> 45%N.
Proof.
  intros Hc. unfold upper_ascii. destruct (isLower c) eqn:E; [|assumption].
  unfold isLower, in_range in E. apply andb_true_iff in E. destruct E as [E1 E2].
  apply N.leb_le in E1, E2. lia.
Qed.

Lemma capitalize_from_free (prev : option N) (s : jsstring) :
  separator_free s -> separator_free (capitalize_from prev s).
Proof.
  revert prev. induction s as [|c s IH]; intros prev Hs x; cbn [capitalize_from In];
    [tauto|].
  intros [<- | Hin].
  - destruct (_ && _); [apply upper_ascii_separator|]; apply Hs; now left.
  - apply (IH (Some c)); [|assumption]. intros y Hy. apply Hs. now right.
Qed.

(** A lower-case letter of the result follows a word character. *)
Lemma capitalize_from_starts (prev : option N) (s a b : jsstring) (x : N) :
  capitalize_from prev s = a ++ x :: b -> isLower x = true ->
  is_word (last_unit prev a) = true.
Proof.
  revert prev a. induction s as [|c s IH]; intros prev a E Hx; cbn [capitalize_from] in E.
  - destruct a; discriminate.
  - destruct a as [|y a]; cbn [app] in E; injection E as Ey E.
    + unfold last_unit. cbn [rev]. subst x.
      destruct (isWordChar c && negb (is_word prev)) eqn:Hc.
      * rewrite upper_ascii_not_lower in Hx. discriminate.
      * assert (Hw : isWordChar c = true)
          by (unfold isWordChar, isAlpha; now rewrite Hx, orb_true_r).
        rewrite Hw in Hc. cbn [andb] in Hc. now apply negb_false_iff in Hc.
    + rewrite last_unit_cons. specialize (IH (Some c) a E Hx).
      destruct a as [|z a]; [|now rewrite last_unit_cons in *].
      unfold last_unit in *. cbn [rev is_word] in *. subst y.
      destruct (_ && _); [now rewrite upper_ascii_word | assumption].
Qed.

(** The shape of a name or title derived from a file name. *)
Definition from_file_name (s : jsstring) : Prop :=
  separator_free s /\
  forall a x b, s = a ++ x :: b -> isLower x = true ->
                is_word (last_unit None a) = true.

Lemma capitalized_shape (s : jsstring) :
  separator_free s -> from_file_name (capitalize_words s).
Proof.
  intros Hs. split.
  - now apply capitalize_from_free.
  - intros a x b. apply capitalize_from_starts.
Qed.

(** X16.  A name or a title derived from a file name has no underscore and no
    hyphen, and none of its words starts with a lower-case letter: such a
    letter always follows a letter, a digit or an underscore. *)
Theorem names_from_file_names (fileName : jsstring) :
  from_file_name (extractNameFromFilename fileName) /\
  from_file_name (extractTitleFromFilename fileName).
Proof.
  split; apply capitalized_shape; intros c Hin;
    apply replace_first_elements in Hin;
    now apply spaces_for_separators_free in Hin.
Qed.

End FileNameProps.

(** ** Normalising the parsed skills *)

Module NormalizeSkillsProps.
Import ParseDocument.

(** A skill as [normalizeSkills] returns it: not empty, no white space at
    either end. *)
Definition clean (e : jsstring) : Prop := e <> [] /\ trim e = e.

Lemma cleanSkill_clean (v : value) (e : jsstring) : In e (cleanSkill v) -> clean e.
Proof.
  destruct v as [s|l|b]; cbn [cleanSkill]; [|intros []|intros []].
  destruct s as [|c s]; [intros []|]. destruct (trim (c :: s)) as [|x t] eqn:E; [intros []|].
  intros [<- | []]. split; [discriminate|]. rewrite <- E. apply trim_idempotent.
Qed.

Lemma cleanSkill_of_clean (e : jsstring) : clean e -> cleanSkill (VString e) = [e].
Proof.
  intros [Hne Ht]. cbn [cleanSkill].
  destruct e as [|c e]; [congruence|]. now rewrite Ht.
Qed.

Lemma normalizeArray_strings (l : list jsstring) :
  Forall clean l -> normalizeArray (map VString l) = l.
Proof.
  unfold normalizeArray, flat_all. induction 1 as [|e l He Hl IH]; [reflexivity|].
  cbn [map flat_map flat app].
  rewrite (cleanSkill_of_clean e He). cbn [app]. f_equal. exact IH.
Qed.

Lemma nonEmpty_true (s : jsstring) : nonEmpty s = true <-> s <> [].
Proof. destruct s; cbn; split; congruence. Qed.

Section Normalize.
Variable JSON_parse : jsstring -> option value.

Lemma normalizeArray_clean (l : list value) : Forall clean (normalizeArray l).
Proof.
  apply Forall_forall. intros e Hin. unfold normalizeArray in Hin.
  apply in_flat_map in Hin. destruct Hin as (v & _ & Hv). now apply cleanSkill_clean in Hv.
Qed.

Lemma normalizeSkills_all_clean (skills : value) :
  Forall clean (normalizeSkills JSON_parse skills).
Proof.
  destruct skills as [s|l|b]; cbn [normalizeSkills].
  - destruct s as [|c s]; [constructor|].
    destruct (trim (c :: s)); [constructor|].
    destruct (JSON_parse (c :: s)) as [[s'|l|b]|]; try constructor.
    + apply normalizeArray_clean.
    + apply Forall_forall. intros e Hin. apply filter_In in Hin.
      destruct Hin as [Hin Hne]. apply in_map_iff in Hin. destruct Hin as (p & <- & _).
      split; [now apply nonEmpty_true | apply trim_idempotent].
  - apply normalizeArray_clean.
  - constructor.
Qed.

(** X17.  Whatever the input, [normalizeSkills] returns skills that are not empty
    and have no white space at either end. *)
Theorem normalizeSkills_clean (skills : value) :
  Forall (fun e => e <> [] /\ trim e = e) (normalizeSkills JSON_parse skills).
Proof. exact (normalizeSkills_all_clean skills). Qed.

(** X18.  [normalizeSkills] is idempotent: applied to the array it has returned,
    it returns the same array; and an array nested in a one-element array
    is read like the array itself. *)
Theorem normalizeSkills_idempotent (skills : value) :
  normalizeSkills JSON_parse
    (VArray (map VString (normalizeSkills JSON_parse skills))) =
  normalizeSkills JSON_parse skills /\
  (forall l, normalizeSkills JSON_parse (VArray [VArray l]) =
             normalizeSkills JSON_parse (VArray l)).
Proof.
  split.
  - change (normalizeSkills JSON_parse (VArray ?l)) with (normalizeArray l).
    apply normalizeArray_strings. apply normalizeSkills_all_clean.
  - intros l. cbn [normalizeSkills]. unfold normalizeArray, flat_all.
    cbn [flat_map]. rewrite app_nil_r. reflexivity.
Qed.

End Normalize.
End NormalizeSkillsProps.

(** ** Batches of documents *)

Module BatchProps.
Import ParseDocument.

Section Batch.
Variables File Doc : Type.
Variable BATCH_SIZE : nat.
Variable parseDocument : File -> option Doc.
Hypothesis positive : 0 < BATCH_SIZE.

(** The documents of the files that parsed, in the order of the files. *)
Definition parsed (files : list File) : list Doc :=
  flat_map (fun f => match parseDocument f with Some v => [v] | None => [] end) files.

Lemma pushed_parsed (batch : list File) :
  flat_map (fun r : option Doc => match r with Some v => [v] | None => [] end)
    (map parseDocument batch) = parsed batch.
Proof.
  unfold parsed. induction batch as [|f batch IH]; [reflexivity|].
  cbn [map flat_map]. now rewrite IH.
Qed.

Lemma slice_batch (files : list File) (i : nat) :
  slice i (i + BATCH_SIZE) files = firstn BATCH_SIZE (skipn i files).
Proof. unfold slice. f_equal. lia. Qed.

Lemma skipn_add (files : list File) (i : nat) :
  skipn (i + BATCH_SIZE) files = skipn BATCH_SIZE (skipn i files).
Proof. rewrite skipn_skipn. f_equal. lia. Qed.

(** The number 100, as [round53] represents it. *)
Definition hundred : JSNumber.dyadic := JSNumber.round53 100 1.

Lemma whole_is_100 (n : nat) :
  0 < n ->
  min_100 (JSNumber.mul (JSNumber.div (Z.of_nat n) (Z.of_nat n)) 100) = hundred.
Proof.
  intros Hn.
  assert (Hdiv : JSNumber.div (Z.of_nat n) (Z.of_nat n) = JSNumber.Dyadic (2 ^ 52) (-52)).
  { unfold JSNumber.div, JSNumber.round53.
    destruct (Z.of_nat n <=? 0)%Z eqn:E; [apply Z.leb_le in E; lia|]. clear E.
    replace (Z.log2 (Z.of_nat n) - Z.log2 (Z.of_nat n) - 52)%Z with (-52)%Z by lia.
    unfold JSNumber.scaled. change (0 <=? -52)%Z with false.
    change (- (-52))%Z with 52%Z. cbv beta iota zeta.
    replace (Z.of_nat n * 2 ^ 52 <? 2 ^ 52 * Z.of_nat n)%Z with false
      by (symmetry; apply Z.ltb_ge; lia).
    change (0 <=? -52)%Z with false. cbv beta iota zeta.
    change (- (-52))%Z with 52%Z.
    f_equal. unfold JSNumber.rne.
    rewrite (Z.mul_comm (Z.of_nat n)), Z.div_mul, Z.mod_mul by lia.
    replace (2 * 0 <? Z.of_nat n)%Z with true by (symmetry; apply Z.ltb_lt; lia).
    reflexivity. }
  rewrite Hdiv. vm_compute. reflexivity.
Qed.

(** The loop from position [i]: what it adds to the state. *)
Lemma batchLoop_from (files : list File) (fuel i : nat) (st : batchState Doc) :
  List.length files <= fuel + i ->
  exists st',
    batchLoop BATCH_SIZE parseDocument fuel files i st = Some st' /\
    results st' = results st ++ parsed (skipn i files) /\
    pauses st' = pauses st + (List.length files - i - 1) / BATCH_SIZE /\
    (i < List.length files ->
     exists values, progress st' = progress st ++ values ++ [hundred]).
Proof.
  revert i st. induction fuel as [|fuel IH]; intros i st Hfuel.
  - exists st. cbn [batchLoop].
    replace (List.length files <=? i) with true by (symmetry; apply Nat.leb_le; lia).
    rewrite skipn_all2 by lia. cbn [parsed flat_map]. rewrite app_nil_r.
    replace (List.length files - i - 1) with 0 by lia.
    rewrite Nat.Div0.div_0_l. repeat split; try lia.
  - cbn [batchLoop]. destruct (List.length files <=? i) eqn:Hi.
    + apply Nat.leb_le in Hi. exists st.
      rewrite skipn_all2 by lia. cbn [parsed flat_map]. rewrite app_nil_r.
      replace (List.length files - i - 1) with 0 by lia.
      rewrite Nat.Div0.div_0_l. repeat split; try lia.
    + apply Nat.leb_gt in Hi. rewrite slice_batch, pushed_parsed.
      set (st1 := BatchState _ _ _).
      destruct (IH (i + BATCH_SIZE) st1 ltac:(lia)) as (st' & Hrun & Hres & Hp & Hv).
      exists st'. split; [exact Hrun|]. subst st1. cbn [results pauses progress] in *.
      split; [|split].
      * rewrite Hres, <- app_assoc. f_equal.
        rewrite skipn_add. unfold parsed. rewrite <- flat_map_app.
        now rewrite firstn_skipn.
      * rewrite Hp. destruct (i + BATCH_SIZE <? List.length files) eqn:Hlt.
        -- apply Nat.ltb_lt in Hlt.
           replace (List.length files - i - 1)
             with (List.length files - (i + BATCH_SIZE) - 1 + 1 * BATCH_SIZE) by lia.
           rewrite Nat.div_add by lia. lia.
        -- apply Nat.ltb_ge in Hlt.
           replace (List.length files - (i + BATCH_SIZE) - 1) with 0 by lia.
           rewrite Nat.Div0.div_0_l, (Nat.div_small (List.length files - i - 1)) by lia.
           lia.
      * intros _. destruct (Nat.lt_ge_cases (i + BATCH_SIZE) (List.length files))
          as [Hlt | Hge].
        -- destruct (Hv Hlt) as [values ->]. eexists (_ :: values).
           now rewrite <- app_assoc.
        -- exists []. cbn [app].
           assert (Hdone : batchLoop BATCH_SIZE parseDocument fuel files (i + BATCH_SIZE)
                     (BatchState (results st ++ parsed (firstn BATCH_SIZE (skipn i files)))
                        (progress st ++
                         [min_100
                            (JSNumber.mul
                               (JSNumber.div
                                  (Z.of_nat
                                     (i + List.length (firstn BATCH_SIZE (skipn i files))))
                                  (Z.of_nat (List.length files))) 100)])
                        (pauses st + (if i + BATCH_SIZE <? List.length files then 1 else 0)))
                   = Some (BatchState (results st ++ parsed (firstn BATCH_SIZE (skipn i files)))
                        (progress st ++
                         [min_100
                            (JSNumber.mul
                               (JSNumber.div
                                  (Z.of_nat
                                     (i + List.length (firstn BATCH_SIZE (skipn i files))))
                                  (Z.of_nat (List.length files))) 100)])
                        (pauses st + (if i + BATCH_SIZE <? List.length files then 1 else 0)))).
           { destruct fuel; cbn [batchLoop];
               replace (List.length files <=? i + BATCH_SIZE) with true
                 by (symmetry; apply Nat.leb_le; lia); reflexivity. }
           rewrite Hdone in Hrun. injection Hrun as <-. cbn [progress].
           f_equal. f_equal.
           replace (i + List.length (firstn BATCH_SIZE (skipn i files)))
             with (List.length files)
             by (rewrite length_firstn, length_skipn; lia).
           apply whole_is_100. lia.
Qed.

(** X19.  With a positive batch size [processBatch] terminates; it returns the
    documents of the files that parsed, in the order of the files, each
    once; it pauses once between two batches, and the last progress value
    it reports is exactly 100. *)
Theorem processBatch_in_order (files : list File) :
  exists st,
    processBatch BATCH_SIZE parseDocument files = Some st /\
    results st = parsed files /\
    pauses st = (List.length files - 1) / BATCH_SIZE /\
    (files <> [] -> exists values, progress st = values ++ [hundred]).
Proof.
  unfold processBatch.
  destruct (batchLoop_from files (List.length files) 0 (BatchState [] [] 0) ltac:(lia))
    as (st & Hrun & Hres & Hp & Hv).
  exists st. split; [exact Hrun|]. cbn [results pauses progress skipn app] in *.
  rewrite Nat.sub_0_r in Hp. repeat split; try assumption.
  intros Hne. apply Hv. destruct files; [congruence | cbn; lia].
Qed.

End Batch.

Lemma processBatch_in_order_witness :
  exists st,
    processBatch 2 (fun n => if Nat.even n then Some n else None) [1; 2; 3; 4; 5] = Some st /\
    results st = [2; 4] /\ pauses st = 2.
Proof.
  destruct (processBatch_in_order nat nat 2 (fun n => if Nat.even n then Some n else None)
              ltac:(lia) [1; 2; 3; 4; 5]) as (st & Hrun & Hres & Hp & _).
  exists st. split; [exact Hrun|]. split; [exact Hres | exact Hp].
Defined.

End BatchProps.

(** ** The e-mail addresses of the document parser; the contact fields *)

Module DocumentEmailProps.
Import ContactExtractor.

(** The two copies of the validation differ by one more placeholder name
    in the contact extractor. *)
Lemma invalidDomains_more :
  invalidDomains = DocumentEmails.invalidPatterns ++ [js "sample.com"].
Proof. reflexivity. Qed.

Lemma existsb_snoc {A : Type} (f : A -> bool) (l : list A) (x : A) :
  existsb f (l ++ [x]) = existsb f l || f x.
Proof. rewrite existsb_app. cbn [existsb]. now rewrite orb_false_r. Qed.

(** X20.  [isValidEmail] of the contact extractor accepts an address exactly when
    the copy of the document parser accepts it and the address is not one
    at "sample.com" with a local part of fewer than 3 characters. *)
Theorem isValidEmail_copies (email : jsstring) :
  ContactExtractor.isValidEmail email =
  DocumentEmails.isValidEmail email &&
  negb (endsWith email (js "sample.com") &&
        (List.length (hd [] (split_char at_sign email)) <? 3)).
Proof.
  unfold ContactExtractor.isValidEmail, DocumentEmails.isValidEmail.
  destruct (_ || _); [reflexivity|].
  destruct (negb _); [reflexivity|].
  destruct (split_char at_sign email) as [|localPart [|domain [|x l]]];
    try reflexivity.
  cbn [hd].
  repeat (match goal with
          | |- context [if ?c then false else _] =>
              lazymatch c with
              | existsb _ invalidDomains => fail
              | existsb _ DocumentEmails.invalidPatterns => fail
              | _ => destruct c; [reflexivity|]
              end
          end).
  rewrite invalidDomains_more, existsb_snoc.
  destruct (existsb _ DocumentEmails.invalidPatterns); [reflexivity|].
  cbn [orb andb]. destruct (_ && _); reflexivity.
Qed.

Definition doc_valid_set (emails : list jsstring) : Prop :=
  NoDup emails /\ forall e, In e emails -> DocumentEmails.isValidEmail e = true.

Section WithHost.
Context {H : Host}.

Lemma doc_add_email_valid_set (emails : list jsstring) (candidate : jsstring) :
  doc_valid_set emails -> doc_valid_set (DocumentEmails.add_email emails candidate).
Proof.
  intros [Hnd Hv]. unfold DocumentEmails.add_email.
  destruct (DocumentEmails.isValidEmail (trim (toLowerCase candidate))) eqn:E;
    [|now split].
  split; [now apply set_add_NoDup|].
  intros e. rewrite set_add_In. intros [He | ->]; auto.
Qed.

Lemma doc_matches_valid_set (f : rmatch_result -> jsstring) (ms : list rmatch_result)
    (emails : list jsstring) :
  doc_valid_set emails ->
  doc_valid_set (fold_left (fun emails m => DocumentEmails.add_email emails (f m)) ms emails).
Proof.
  apply fold_left_invariant. intros acc m. apply doc_add_email_valid_set.
Qed.

(** X21.  Every address returned by [extractEmails] of the document parser has
    passed its [isValidEmail], and no address is returned twice. *)
Theorem document_emails_valid_distinct (text : jsstring) :
  NoDup (DocumentEmails.extractEmails text) /\
  forall e, In e (DocumentEmails.extractEmails text) ->
            DocumentEmails.isValidEmail e = true.
Proof.
  change (doc_valid_set (DocumentEmails.extractEmails text)).
  unfold DocumentEmails.extractEmails, DocumentEmails.emailKeywordScan.
  apply fold_left_invariant.
  { intros acc i Hacc. destruct (test _ _ _); [|assumption].
    revert Hacc. apply fold_left_invariant. intros acc' j. apply doc_matches_valid_set. }
  apply fold_left_invariant.
  { intros acc m Hacc. destruct (group m 1), (group m 2), (group m 3); try assumption.
    now apply doc_add_email_valid_set. }
  apply fold_left_invariant.
  { intros acc pattern. apply doc_matches_valid_set. }
  split; [constructor | intros e []].
Qed.

End WithHost.
End DocumentEmailProps.

Module ContactInfoProps.
Import ContactExtractor PhoneProps PhoneNormalForm EmailExtraction.

Section WithHost.
Context {H : Host}.

(** X22.  [extractContactInfo] returns for each field either the empty string or
    a checked value: an address that passes [isValidEmail], a phone made of
    a plus sign and 10 to 15 digits. *)
Theorem extractContactInfo_fields (text : jsstring) :
  (email (extractContactInfo text) = [] \/
   isValidEmail (email (extractContactInfo text)) = true) /\
  (phone (extractContactInfo text) = [] \/
   plus_digits (phone (extractContactInfo text))).
Proof.
  unfold extractContactInfo. cbn [email phone]. split.
  - destruct (extractEmails_valid_set (cleanText text)) as [_ Hv].
    destruct (extractEmailsFromText (cleanText text)) as [|e l]; [now left|].
    right. apply Hv. now left.
  - pose proof (fun p => Contact.extractPhones_formatted (cleanText text) p) as Hf.
    destruct (extractPhonesFromText (cleanText text)) as [|p l]; [now left|].
    right. apply (formatted_plus_digits Contact.valid_digits). apply Hf. now left.
Qed.

End WithHost.
End ContactInfoProps.

(** ** [parseInt] on printed numbers; the experience policies *)

Module ParseIntProps.
Import ParseInt.
Local Open Scope Z_scope.

Lemma digit_val_decimal (n : N) :
  (n < 10)%N -> digit_val 10 (48 + n) = Some (Z.of_N n).
Proof.
  intros Hn. unfold digit_val, isDigit, in_range.
  replace ((48 <=? 48 + n)%N && (48 + n <=? 57)%N) with true
    by (symmetry; apply andb_true_iff; split; apply N.leb_le; lia).
  replace (Z.of_N (48 + n) - 48) with (Z.of_N n) by lia.
  replace (Z.of_N n <? 10) with true by (symmetry; apply Z.ltb_lt; lia).
  reflexivity.
Qed.

Lemma digits_of_pos_step (fuel : nat) (n : N) (acc : jsstring) :
  digits_of_pos (S fuel) n acc =
  if (n <? 10)%N then (48 + n mod 10)%N :: acc
  else digits_of_pos fuel (n / 10) ((48 + n mod 10)%N :: acc).
Proof. reflexivity. Qed.

(** Reading back the decimal digits of [n]. *)
Lemma parse_digits_of_pos (fuel : nat) (n : N) (acc : jsstring) :
  (n < 2 ^ N.of_nat (S fuel))%N ->
  parse_digits 10 (digits_of_pos (S fuel) n acc) None =
  parse_digits 10 acc (Some (Z.of_N n)).
Proof.
  revert n acc. induction fuel as [|fuel IH]; intros n acc Hn.
  - change (2 ^ N.of_nat 1)%N with 2%N in Hn. rewrite digits_of_pos_step.
    replace (n <? 10)%N with true by (symmetry; apply N.ltb_lt; lia).
    rewrite N.mod_small by lia. cbn [parse_digits].
    rewrite digit_val_decimal by lia. f_equal; f_equal; lia.
  - rewrite digits_of_pos_step.
    pose proof (N.mod_upper_bound n 10 ltac:(lia)) as Hmod.
    destruct (n <? 10)%N eqn:E.
    + apply N.ltb_lt in E. rewrite N.mod_small by lia. cbn [parse_digits].
      rewrite digit_val_decimal by lia. f_equal; f_equal; lia.
    + apply N.ltb_ge in E.
      rewrite IH.
      * cbn [parse_digits]. rewrite digit_val_decimal by lia.
        pose proof (N.div_mod n 10 ltac:(lia)). f_equal; f_equal; lia.
      * assert (Hdiv : (n / 10 <= n / 2)%N).
        { apply N.div_le_compat_l. lia. }
        assert (Hhalf : (n / 2 < 2 ^ N.of_nat (S fuel))%N).
        { apply N.Div0.div_lt_upper_bound.
          replace (N.of_nat (S (S fuel))) with (N.succ (N.of_nat (S fuel))) in Hn by lia.
          rewrite N.pow_succ_r' in Hn. exact Hn. }
        lia.
Qed.

Lemma digits_of_pos_digits (fuel : nat) (n : N) (acc : jsstring) :
  forallb isDigit acc = true -> forallb isDigit (digits_of_pos fuel n acc) = true.
Proof.
  revert n acc. induction fuel as [|fuel IH]; intros n acc Hacc; [assumption|].
  rewrite digits_of_pos_step.
  pose proof (N.mod_upper_bound n 10 ltac:(lia)) as Hmod.
  assert (Hd : forallb isDigit ((48 + n mod 10)%N :: acc) = true).
  { cbn [forallb]. rewrite Hacc, andb_true_r. unfold isDigit, in_range.
    apply andb_true_iff. split; apply N.leb_le; [apply N.le_add_r | lia]. }
  destruct (n <? 10)%N; [exact Hd | apply IH; exact Hd].
Qed.

Lemma digits_of_pos_nonempty (fuel : nat) (n : N) :
  digits_of_pos (S fuel) n [] <> [].
Proof.
  assert (Hgen : forall f m acc, acc <> [] -> digits_of_pos f m acc <> []).
  { induction f as [|f IH]; intros m acc Hacc; [assumption|].
    rewrite digits_of_pos_step.
    destruct (m <? 10)%N; [discriminate | apply IH; discriminate]. }
  rewrite digits_of_pos_step. destruct (n <? 10)%N; [discriminate | apply Hgen; discriminate].
Qed.

(** A string of digits carries no sign and no [0x] prefix. *)
Lemma no_sign (s : jsstring) :
  forallb isDigit s = true ->
  match s with
  | 45%N :: r => (-1, r)
  | 43%N :: r => (1, r)
  | _ => (1, s)
  end = (1, s).
Proof.
  destruct s as [|a r]; [reflexivity|]. cbn [forallb]. rewrite andb_true_iff.
  intros [Ha _]. destruct a as [|p]; [reflexivity|].
  do 6 (destruct p as [p|p|]; try reflexivity); discriminate.
Qed.

Lemma no_hex_prefix (s : jsstring) :
  forallb isDigit s = true ->
  match s with
  | 48%N :: 120%N :: r => (16, r)
  | 48%N :: 88%N :: r => (16, r)
  | _ => (10, s)
  end = (10, s).
Proof.
  destruct s as [|a r]; [reflexivity|]. cbn [forallb]. rewrite andb_true_iff.
  intros [_ Hr]. destruct a as [|p]; [reflexivity|].
  do 6 (destruct p as [p|p|]; try reflexivity).
  destruct r as [|b r]; [reflexivity|]. cbn [forallb] in Hr.
  apply andb_true_iff in Hr. destruct Hr as [Hb _].
  destruct b as [|q]; [reflexivity|].
  do 7 (destruct q as [q|q|]; try reflexivity); discriminate.
Qed.

Lemma trimStart_digits (s : jsstring) :
  forallb isDigit s = true -> trimStart s = s.
Proof.
  destruct s as [|c s]; [reflexivity|]. cbn [forallb trimStart].
  rewrite andb_true_iff. intros [Hc _].
  replace (isSpace c) with false; [reflexivity|].
  unfold isDigit, in_range in Hc. apply andb_true_iff in Hc. destruct Hc as [H1 H2].
  apply N.leb_le in H1, H2. unfold isSpace, in_range.
  symmetry. repeat (apply orb_false_iff; split);
    try (apply N.eqb_neq; lia); apply andb_false_iff; (left; apply N.leb_gt; lia) ||
    (right; apply N.leb_gt; lia).
Qed.

(** The digits that print [z] denote [z]. *)
Lemma parse_integer_toString (z : Z) : parse_integer (toString z) = Some z.
Proof.
  unfold toString.
  set (n := Z.abs_N z).
  set (fuel := N.to_nat (N.log2 n)).
  assert (Hd : forallb isDigit (digits_of_pos (S fuel) n []) = true)
    by now apply digits_of_pos_digits.
  assert (Hp : parse_digits 10 (digits_of_pos (S fuel) n []) None = Some (Z.of_N n)).
  { rewrite parse_digits_of_pos; [reflexivity|].
    subst fuel. replace (N.of_nat (S (N.to_nat (N.log2 n)))) with (N.succ (N.log2 n)) by lia.
    destruct (N.eq_dec n 0) as [-> | Hn]; [reflexivity|].
    apply N.log2_spec. lia. }
  set (d := digits_of_pos (S fuel) n []) in *.
  unfold parse_integer. destruct (z <? 0) eqn:Hz.
  - apply Z.ltb_lt in Hz. cbn [trimStart]. change (isSpace 45) with false. cbv iota.
    rewrite no_hex_prefix by assumption. rewrite Hp. cbn [option_map]. f_equal.
    subst n. lia.
  - apply Z.ltb_ge in Hz. rewrite trimStart_digits by assumption.
    rewrite no_sign by assumption. rewrite no_hex_prefix by assumption.
    rewrite Hp. cbn [option_map]. f_equal. subst n. lia.
Qed.

(** Beyond [2^53] the digits are rounded to the nearest binary64 number,
    ties to even; beyond the largest of them the result is infinite. *)
Example parseInt_rounds :
  parseInt (js "9007199254740993") = Finite 9007199254740992 /\
  parseInt (js "-9007199254740995") = Finite (-9007199254740996) /\
  parseInt (js "18014398509481985") = Finite 18014398509481984 /\
  parseInt (js "1" ++ repeat 48%N 309) = Infinity false /\
  parseInt (js " -42abc") = Finite (-42) /\
  parseInt (js "0x1F") = Finite 31 /\
  parseInt (js "N/A") = NaN.
Proof. repeat split; vm_compute; reflexivity. Qed.

(** [parseInt(String(z))] is [z], for an integer [z] that is a Number. *)
Lemma parseInt_toString (z : Z) :
  Z.abs z < 2 ^ 53 -> parseInt (toString z) = Finite z.
Proof.
  intros Hz. unfold parseInt. rewrite parse_integer_toString.
  unfold Number_of_Z. apply Z.ltb_lt in Hz. now rewrite Hz.
Qed.

End ParseIntProps.

Module QualificationExtra.
Import Qualification ParseIntProps.
Local Open Scope Z_scope.

Lemma parse_or_0_toString (z : Z) :
  Z.abs z < 2 ^ 53 -> parse_or_0 (toString z) = Finite z.
Proof.
  intros Hz. unfold parse_or_0. rewrite parseInt_toString by exact Hz. reflexivity.
Qed.

Lemma toString_nonempty (z : Z) : toString z <> [].
Proof.
  unfold toString. destruct (z <? 0); [discriminate|].
  apply digits_of_pos_nonempty.
Qed.

Lemma or_zero_toString (z : Z) : or_zero (Some (toString z)) = toString z.
Proof.
  unfold or_zero, or_else. pose proof (toString_nonempty z).
  destruct (toString z); [congruence | reflexivity].
Qed.

(** X23.  The year counts the estimator prints, integers below [2^53] in
    magnitude, are read back as the same numbers: on two such strings the
    candidate table and the report of the Index page answer "Qualified"
    exactly when the candidate's years reach the required years, the
    parsing history exactly when the two differ by at most one. *)
Theorem policies_on_printed_years (candidateYears jdYears : Z) :
  Z.abs candidateYears < 2 ^ 53 -> Z.abs jdYears < 2 ^ 53 ->
  let candidateExp := toString candidateYears in
  let jdExp := toString jdYears in
  (CandidateTable.getExperienceResult candidateExp jdExp = Qualified <->
   jdYears <= candidateYears) /\
  (Index.experienceResult (Some candidateExp) (Some jdExp) = Qualified <->
   jdYears <= candidateYears) /\
  (ParsingHistory.getExperienceResult candidateExp jdExp = Qualified <->
   Z.abs (candidateYears - jdYears) <= 1).
Proof.
  intros Hc Hj. cbn zeta.
  pose proof (parse_or_0_toString _ Hc) as Pc.
  pose proof (parse_or_0_toString _ Hj) as Pj.
  split; [|split].
  - exact (QualificationProps.candidate_table_policy _ _ _ _ Pc Pj).
  - unfold Index.experienceResult.
    rewrite !or_zero_toString, !parseInt_toString by assumption.
    cbn [ge_num]. destruct (jdYears <=? candidateYears) eqn:E.
    + apply Z.leb_le in E. tauto.
    + apply Z.leb_gt in E. split; [discriminate | lia].
  - exact (QualificationProps.parsing_history_policy _ _ _ _ Pc Pj).
Qed.

(** A candidate with 7 years against a requirement of 5: qualified for the
    candidate table, not for the parsing history. *)
Lemma policies_on_printed_years_witness :
  CandidateTable.getExperienceResult (js "7") (js "5") = Qualified /\
  ParsingHistory.getExperienceResult (js "7") (js "5") <> Qualified.
Proof.
  assert (H7 : Z.abs 7 < 2 ^ 53) by reflexivity.
  assert (H5 : Z.abs 5 < 2 ^ 53) by reflexivity.
  split.
  - apply (proj1 (policies_on_printed_years 7 5 H7 H5)). discriminate.
  - intros Hq. apply (proj2 (proj2 (policies_on_printed_years 7 5 H7 H5))) in Hq.
    exact (Hq eq_refl).
Defined.

(** X24.  The two policies of [getExperienceResult] on any two strings.  When
    both numbers are finite they disagree in two cases only: a candidate
    one year short of the requirement is qualified for the parsing history
    and not for the candidate table, and a candidate two or more years
    above it is qualified for the candidate table and not for the parsing
    history.  When a number is infinite the parsing history answers
    "Not Qualified". *)
Theorem policies_disagree (candidateExp jdExp : jsstring) :
  match parse_or_0 candidateExp, parse_or_0 jdExp with
  | Finite c, Finite j =>
      (CandidateTable.getExperienceResult candidateExp jdExp = NotQualified /\
       ParsingHistory.getExperienceResult candidateExp jdExp = Qualified <->
       c - j = -1) /\
      (CandidateTable.getExperienceResult candidateExp jdExp = Qualified /\
       ParsingHistory.getExperienceResult candidateExp jdExp = NotQualified <->
       2 <= c - j)
  | _, _ => ParsingHistory.getExperienceResult candidateExp jdExp = NotQualified
  end.
Proof.
  pose proof (QualificationProps.parse_or_0_number candidateExp) as Nc.
  pose proof (QualificationProps.parse_or_0_number jdExp) as Nj.
  destruct (parse_or_0 candidateExp) as [|c|n] eqn:Ec; [congruence| |].
  - destruct (parse_or_0 jdExp) as [|j|m] eqn:Ej; [congruence| |].
    + pose proof (QualificationProps.candidate_table_policy _ _ _ _ Ec Ej) as Hct.
      pose proof (QualificationProps.parsing_history_policy _ _ _ _ Ec Ej) as Hph.
      pose proof QualificationProps.qualified_neq as Hne.
      assert (Fct : (CandidateTable.getExperienceResult candidateExp jdExp = Qualified /\
                     j <= c) \/
                    (CandidateTable.getExperienceResult candidateExp jdExp = NotQualified /\
                     c < j)).
      { destruct (Z_le_gt_dec j c) as [Hle | Hgt].
        - left. split; [now apply Hct | exact Hle].
        - right. split; [|lia]. unfold CandidateTable.getExperienceResult in *.
          destruct (ge_num _ _); [|reflexivity]. exfalso.
          assert (j <= c) by (apply Hct; reflexivity). lia. }
      assert (Fph : (ParsingHistory.getExperienceResult candidateExp jdExp = Qualified /\
                     Z.abs (c - j) <= 1) \/
                    (ParsingHistory.getExperienceResult candidateExp jdExp = NotQualified /\
                     1 < Z.abs (c - j))).
      { destruct (Z_le_gt_dec (Z.abs (c - j)) 1) as [Hle | Hgt].
        - left. split; [now apply Hph | exact Hle].
        - right. split; [|lia]. unfold ParsingHistory.getExperienceResult in *.
          destruct (le_num _ _); [|reflexivity]. exfalso.
          assert (Z.abs (c - j) <= 1) by (apply Hph; reflexivity). lia. }
      clear Hct Hph.
      destruct Fct as [[-> Hc] | [-> Hc]]; destruct Fph as [[-> Hp] | [-> Hp]];
        split; split;
        try (intros [X Y]; first [congruence | lia]);
        intros Hd; first [split; reflexivity | exfalso; lia].
    + apply QualificationProps.parsing_history_infinite. right. now exists m.
  - apply QualificationProps.parsing_history_infinite. left. now exists n.
Qed.

End QualificationExtra.

(** ** Overlapping work periods; skills that end in a symbol *)

Module OverlapProps.
Import JSDate GeminiParser ExperienceProps PeriodProps.
Local Open Scope Z_scope.

Lemma totalExperience_one (p : WorkPeriod) :
  totalExperience [p] = yearsString (monthsOf p).
Proof. rewrite totalExperience_merged. reflexivity. Qed.

Lemma merged_two (p q : WorkPeriod) :
  start p <= start q -> start q <= end_ q -> start q - end_ p <= oneMonth ->
  mergedPeriods [p; q] = [{| start := start p; end_ := Z.max (end_ p) (end_ q) |}] /\
  mergedPeriods [q; p] = [{| start := start p; end_ := Z.max (end_ p) (end_ q) |}].
Proof.
  intros Hpq Hq Hgap. unfold mergedPeriods, sort_periods.
  cbn [fold_right insert_period]. split.
  - replace (start p <=? start q) with true by (symmetry; now apply Z.leb_le).
    cbn [merge_periods].
    replace (start q - end_ p <=? oneMonth) with true by (symmetry; now apply Z.leb_le).
    reflexivity.
  - destruct (start q <=? start p) eqn:E.
    + apply Z.leb_le in E. assert (Es : start q = start p) by lia.
      cbn [merge_periods].
      replace (start p - end_ q <=? oneMonth) with true
        by (symmetry; apply Z.leb_le; unfold oneMonth; lia).
      cbn [merge_periods]. rewrite Es, Z.max_comm. reflexivity.
    + cbn [merge_periods].
      replace (start q - end_ p <=? oneMonth) with true by (symmetry; now apply Z.leb_le).
      reflexivity.
Qed.

(** X25.  Two periods that overlap, or that lie at most 30 days apart, count as
    one period from the earlier start to the later end, in whichever order
    the scan found them: a job held within the time of another one adds
    nothing to the total. *)
Theorem overlapping_periods_count_once (p q : WorkPeriod) :
  start p <= start q -> start q <= end_ q -> start q - end_ p <= oneMonth ->
  let span := {| start := start p; end_ := Z.max (end_ p) (end_ q) |} in
  totalExperience [p; q] = yearsString (monthsOf span) /\
  totalExperience [q; p] = yearsString (monthsOf span) /\
  (end_ q <= end_ p -> totalExperience [p; q] = totalExperience [p]).
Proof.
  intros Hpq Hq Hgap. cbn zeta.
  destruct (merged_two p q Hpq Hq Hgap) as [E1 E2].
  split; [|split].
  - rewrite totalExperience_merged, E1. cbn [fold_left]. now rewrite Z.add_0_l.
  - rewrite totalExperience_merged, E2. cbn [fold_left]. now rewrite Z.add_0_l.
  - intros Hin. rewrite totalExperience_one, totalExperience_merged, E1.
    cbn [fold_left]. rewrite Z.add_0_l, Z.max_l by assumption.
    destruct p; reflexivity.
Qed.

Lemma overlapping_periods_count_once_witness :
  let p := {| start := 1514764800000; end_ := 1593561600000 |} in
  let q := {| start := 1546300800000; end_ := 1577836800000 |} in
  totalExperience [p; q] = totalExperience [p] /\ totalExperience [p] = js "3".
Proof.
  cbn zeta. split.
  - apply (overlapping_periods_count_once
             {| start := 1514764800000; end_ := 1593561600000 |}
             {| start := 1546300800000; end_ := 1577836800000 |});
      cbn [start end_]; unfold oneMonth; lia.
  - vm_compute. reflexivity.
Defined.

End OverlapProps.

Module SymbolSkills.
Import DocumentParser WordMatch SkillWords SkillExtraction.

Lemma upper_of_symbol (c y : N) :
  isWordChar c = false -> upper_ascii c = upper_ascii y -> isWordChar y = false.
Proof.
  intros Hc E. rewrite <- (FileNameProps.upper_ascii_word y), <- E.
  now rewrite FileNameProps.upper_ascii_word.
Qed.

Lemma last_unit_snoc (prev : option N) (a : jsstring) (y : N) :
  last_unit prev (a ++ [y]) = Some y.
Proof. unfold last_unit. now rewrite rev_app_distr. Qed.

Section WithHost.
Context {H : Host}.

Lemma base_mode_occurs (text : jsstring) (isJobDescription : bool) (skill : jsstring) :
  In skill (extractSkillsFromText text isJobDescription false) ->
  occurs_as_word skill text.
Proof.
  rewrite base_mode. unfold directSkills. rewrite directSkills_found.
  unfold skill_regex. rewrite word_regex_test. cbn [In]. tauto.
Qed.

(** X26.  A skill whose name ends with a symbol ("C++", "C#") is found in base
    mode only where a letter, a digit or an underscore follows it directly,
    and a skill whose name starts with a symbol (".NET") only where one
    precedes it directly: the word boundary of the pattern asks for it. *)
Theorem symbol_skills_need_neighbours (text : jsstring) (isJobDescription : bool)
    (skill : jsstring) :
  In skill (extractSkillsFromText text isJobDescription false) ->
  (forall w c, skill = w ++ [c] -> isWordChar c = false ->
     exists a m x b, text = a ++ m ++ x :: b /\ same_ignoring_case skill m /\
                     isWordChar x = true) /\
  (forall c w, skill = c :: w -> isWordChar c = false ->
     exists a x m b, text = a ++ x :: m ++ b /\ same_ignoring_case skill m /\
                     isWordChar x = true).
Proof.
  intros Hin. apply base_mode_occurs in Hin.
  destruct Hin as (a & m & b & -> & Hm & Hb1 & Hb2). split.
  - intros w c -> Hc. unfold same_ignoring_case in Hm.
    apply Forall2_app_inv_l in Hm. destruct Hm as (m' & my & Hm' & Hy & ->).
    inversion Hy as [|? y ? ? Ey Hnil]; subst. inversion Hnil; subst.
    rewrite app_assoc, last_unit_snoc in Hb2. cbn [is_word] in Hb2.
    rewrite (upper_of_symbol c y Hc Ey) in Hb2.
    destruct b as [|x b]; [cbn in Hb2; congruence|].
    exists a, (m' ++ [y]), x, b. split; [reflexivity|]. split.
    + apply Forall2_app; [assumption | now constructor].
    + cbn [hd_error is_word] in Hb2. destruct (isWordChar x); congruence.
  - intros c w -> Hc. unfold same_ignoring_case in Hm.
    inversion Hm as [|? y ? m' Ey Hm']; subst.
    cbn [app hd_error is_word] in Hb1.
    rewrite (upper_of_symbol c y Hc Ey) in Hb1.
    destruct (exists_last (l := a)) as (a' & x & ->).
    { intros ->. cbn in Hb1. congruence. }
    rewrite last_unit_snoc in Hb1. cbn [is_word] in Hb1.
    exists a', x, (y :: m'), b. split; [now rewrite <- app_assoc|]. split.
    + now constructor.
    + destruct (isWordChar x); congruence.
Qed.

End WithHost.

(** "C#" is found in "C#7" and not in "C# developer". *)
Lemma symbol_skills_need_neighbours_witness :
  In (js "C#") (extractSkillsFromText (js "uses C#7 daily") false false) /\
  ~ In (js "C#") (extractSkillsFromText (js "C# developer") false false) /\
  exists a m x b, js "uses C#7 daily" = a ++ m ++ x :: b /\
                  same_ignoring_case (js "C#") m /\ isWordChar x = true.
Proof.
  assert (Hin : In (js "C#") (extractSkillsFromText (js "uses C#7 daily") false false))
    by (vm_compute; tauto).
  split; [exact Hin|]. split.
  - vm_compute. tauto.
  - apply (proj1 (symbol_skills_need_neighbours _ _ _ Hin) (js "C") 35%N);
      reflexivity.
Defined.

End SymbolSkills.

(** ** The final skills of a document; the rows of a report *)

Module FinalSkillsProps.
Import ParseDocument SkillExtraction.

Lemma distinct_from (l acc : list jsstring) (x : jsstring) :
  In x (fold_left (fun acc x => set_add x acc) l acc) <-> In x acc \/ In x l.
Proof.
  revert acc. induction l as [|y l IH]; intros acc; cbn [fold_left In]; [tauto|].
  rewrite IH, set_add_In. intuition congruence.
Qed.

Lemma distinct_In (l : list jsstring) (x : jsstring) : In x (distinct l) <-> In x l.
Proof. unfold distinct. rewrite distinct_from. cbn [In]. tauto. Qed.

Lemma distinct_NoDup (l : list jsstring) : NoDup (distinct l).
Proof.
  unfold distinct. apply fold_left_invariant; [|constructor].
  intros acc x. apply set_add_NoDup.
Qed.

Section Merge.
Variable JSON_parse : jsstring -> option value.
Context {H : Host}.

(** X27.  The skills of the final result always include every skill of the local
    extraction, and no skill twice; a skill of the result that is not a
    skill of the local or the aggressive extraction is one of the parsed
    skills, normalised. *)
Theorem finalSkills_keep_local (text : jsstring) (isJobDescription : bool)
    (parsedSkills : option value) :
  let final := finalSkills JSON_parse text isJobDescription parsedSkills in
  incl (DocumentParser.extractSkillsFromText text isJobDescription false) final /\
  NoDup final /\
  (forall x, In x final ->
     In x (DocumentParser.extractSkillsFromText text isJobDescription true) \/
     exists v, parsedSkills = Some v /\ In x (normalizeSkills JSON_parse v)).
Proof.
  cbn zeta. unfold finalSkills.
  set (localSkills := DocumentParser.extractSkillsFromText text isJobDescription false).
  set (aggressive := DocumentParser.extractSkillsFromText text isJobDescription true).
  assert (Hlocal : NoDup localSkills) by apply extractSkills_NoDup.
  assert (Haggr : NoDup aggressive) by apply extractSkills_NoDup.
  assert (Hext : incl localSkills aggressive).
  { subst aggressive localSkills. rewrite base_mode, aggressive_mode.
    intros x Hx. apply bulletSkills_keeps, statementSkills_keeps. exact Hx. }
  clearbody localSkills aggressive.
  assert (Hplain : incl localSkills
                     match localSkills with [] => aggressive | _ :: _ => localSkills end /\
                   NoDup match localSkills with [] => aggressive | _ :: _ => localSkills end /\
                   forall x, In x match localSkills with
                                  | [] => aggressive | _ :: _ => localSkills end ->
                             In x aggressive).
  { destruct localSkills as [|s l] eqn:E.
    - split; [intros x []|]. split; [assumption | auto].
    - split; [apply incl_refl|]. split; [assumption|]. intros x Hx. now apply Hext. }
  destruct (truthy parsedSkills) eqn:Ht.
  - destruct parsedSkills as [v|]; [|discriminate].
    destruct (normalizeSkills JSON_parse v) as [|n ns] eqn:En.
    + destruct Hplain as (H1 & H2 & H3).
      split; [exact H1 | split; [exact H2 | intros x Hx; left; exact (H3 x Hx)]].
    + destruct (distinct ((n :: ns) ++ localSkills)) as [|d ds] eqn:Ed.
      { exfalso. assert (Hin : In n (distinct ((n :: ns) ++ localSkills)))
          by (apply distinct_In; now left).
        rewrite Ed in Hin. destruct Hin. }
      rewrite <- Ed. split; [|split].
      * intros x Hx. apply distinct_In, in_or_app. now right.
      * apply distinct_NoDup.
      * intros x Hx. apply distinct_In, in_app_or in Hx.
        destruct Hx as [Hx | Hx]; [right; exists v; split; [reflexivity | rewrite En; exact Hx] | left; apply Hext; exact Hx].
  - destruct Hplain as (H1 & H2 & H3).
    split; [exact H1 | split; [exact H2 | intros x Hx; left; exact (H3 x Hx)]].
Qed.

End Merge.
End FinalSkillsProps.

Module ReportProps.
Import Reports.

Section Rows.
Variables JD Candidate : Type.

Definition slNo (r : row JD Candidate) : nat := fst (fst r).

Lemma combine_shift {A : Type} (f : nat -> nat) (ns : list nat) (l : list A) :
  combine (map f ns) l = map (fun '(i, x) => (f i, x)) (combine ns l).
Proof.
  revert l. induction ns as [|n ns IH]; intros [|x l]; cbn [map combine];
    try reflexivity. now rewrite IH.
Qed.

(** The inner loop from serial number [k]. *)
Lemma inner_loop (jd : JD) (candidates : list Candidate) (k : nat)
    (reportData : list (row JD Candidate)) :
  fold_left
    (fun state candidate =>
       let '(slNo, reportData) := state in
       (S slNo, reportData ++ [(slNo, jd, candidate)]))
    candidates (k, reportData) =
  (k + List.length candidates,
   reportData ++
   map (fun '(candidateIndex, candidate) => (k + candidateIndex, jd, candidate))
     (combine (List.seq 0 (List.length candidates)) candidates)).
Proof.
  revert k reportData. induction candidates as [|c cs IH]; intros k rd.
  - cbn. now rewrite Nat.add_0_r, app_nil_r.
  - cbn [fold_left List.length List.seq combine map]. rewrite IH.
    f_equal; [lia|]. rewrite <- app_assoc. f_equal. cbn [app].
    rewrite Nat.add_0_r. f_equal.
    rewrite <- seq_shift, combine_shift, map_map.
    apply map_ext. intros [i c']. f_equal. f_equal. lia.
Qed.

Lemma outer_loop (jobDescriptions : list JD) (candidates : list Candidate)
    (j : nat) (reportData : list (row JD Candidate)) :
  fold_left
    (fun state jd =>
       fold_left
         (fun state candidate =>
            let '(slNo, reportData) := state in
            (S slNo, reportData ++ [(slNo, jd, candidate)]))
         candidates state)
    jobDescriptions (j * List.length candidates + 1, reportData) =
  ((j + List.length jobDescriptions) * List.length candidates + 1,
   reportData ++
   flat_map
     (fun '(jdIndex, jd) =>
        map (fun '(candidateIndex, candidate) =>
               (jdIndex * List.length candidates + candidateIndex + 1, jd, candidate))
          (combine (List.seq 0 (List.length candidates)) candidates))
     (combine (List.seq j (List.length jobDescriptions)) jobDescriptions)).
Proof.
  revert j reportData. induction jobDescriptions as [|jd jds IH]; intros j rd.
  - cbn. now rewrite Nat.add_0_r, app_nil_r.
  - cbn [fold_left List.length List.seq combine flat_map].
    rewrite inner_loop.
    replace (j * List.length candidates + 1 + List.length candidates)
      with (S j * List.length candidates + 1) by lia.
    rewrite IH. f_equal; [f_equal; lia|].
    rewrite <- app_assoc. f_equal. f_equal.
    apply map_ext. intros [i c]. f_equal. f_equal. lia.
Qed.

Lemma seq_from (k start len : nat) :
  map (fun i => k + i + 1) (List.seq start len) = List.seq (k + start + 1) len.
Proof.
  revert start. induction len as [|len IH]; intros start; [reflexivity|].
  cbn [List.seq map]. rewrite IH. f_equal. f_equal. lia.
Qed.

Lemma slNo_indexed (f : nat -> nat) (jd : JD) (ns : list nat)
    (candidates : list Candidate) :
  List.length ns = List.length candidates ->
  map slNo (map (fun '(i, candidate) => (f i, jd, candidate)) (combine ns candidates)) =
  map f ns.
Proof.
  revert candidates. induction ns as [|n ns IH]; intros [|c cs] Hlen;
    try discriminate; [reflexivity|].
  cbn [combine map]. rewrite IH by (cbn in Hlen; lia). reflexivity.
Qed.

Lemma serial_numbers (jobDescriptions : list JD) (candidates : list Candidate)
    (j : nat) :
  map slNo
    (flat_map
       (fun '(jdIndex, jd) =>
          map (fun '(candidateIndex, candidate) =>
                 (jdIndex * List.length candidates + candidateIndex + 1, jd, candidate))
            (combine (List.seq 0 (List.length candidates)) candidates))
       (combine (List.seq j (List.length jobDescriptions)) jobDescriptions)) =
  List.seq (j * List.length candidates + 1)
    (List.length jobDescriptions * List.length candidates).
Proof.
  revert j. induction jobDescriptions as [|jd jds IH]; intros j; [reflexivity|].
  cbn [List.length List.seq combine flat_map]. rewrite map_app, IH.
  rewrite (slNo_indexed (fun i => j * List.length candidates + i + 1))
    by apply length_seq.
  rewrite seq_from.
  change (S (List.length jds) * List.length candidates)
    with (List.length candidates + List.length jds * List.length candidates).
  rewrite seq_app. f_equal; f_equal; lia.
Qed.

Lemma pairs_indexed (f : nat -> nat) (jd : JD) (ns : list nat)
    (candidates : list Candidate) :
  List.length ns = List.length candidates ->
  map (fun r : row JD Candidate => (snd (fst r), snd r))
    (map (fun '(i, candidate) => (f i, jd, candidate)) (combine ns candidates)) =
  map (fun candidate => (jd, candidate)) candidates.
Proof.
  revert candidates. induction ns as [|n ns IH]; intros [|c cs] Hlen;
    try discriminate; [reflexivity|].
  cbn [combine map]. rewrite IH by (cbn in Hlen; lia). reflexivity.
Qed.

Lemma row_pairs (jobDescriptions : list JD) (candidates : list Candidate)
    (j : nat) :
  map (fun r : row JD Candidate => (snd (fst r), snd r))
    (flat_map
       (fun '(jdIndex, jd) =>
          map (fun '(candidateIndex, candidate) =>
                 (jdIndex * List.length candidates + candidateIndex + 1, jd, candidate))
            (combine (List.seq 0 (List.length candidates)) candidates))
       (combine (List.seq j (List.length jobDescriptions)) jobDescriptions)) =
  list_prod jobDescriptions candidates.
Proof.
  revert j. induction jobDescriptions as [|jd jds IH]; intros j; [reflexivity|].
  cbn [List.length List.seq combine flat_map list_prod].
  rewrite map_app, IH. f_equal.
  apply (pairs_indexed (fun i => j * List.length candidates + i + 1)).
  apply length_seq.
Qed.

(** X28.  The two ways of numbering the rows of a report give the same rows: the
    counter of the nested loops and the index formula of the Index page.
    There is one row for each pair of a job description and a candidate,
    grouped by job description, and the serial numbers are 1, 2, 3, ...
    without a gap. *)
Theorem report_rows_numbered (jobDescriptions : list JD) (candidates : list Candidate) :
  counterRows jobDescriptions candidates = indexRows jobDescriptions candidates /\
  map slNo (counterRows jobDescriptions candidates) =
    List.seq 1 (List.length jobDescriptions * List.length candidates) /\
  map (fun r : row JD Candidate => (snd (fst r), snd r))
    (counterRows jobDescriptions candidates) =
    list_prod jobDescriptions candidates.
Proof.
  assert (Hsame : counterRows jobDescriptions candidates =
                  indexRows jobDescriptions candidates).
  { unfold counterRows, indexRows.
    exact (f_equal snd (outer_loop jobDescriptions candidates 0 [])). }
  rewrite Hsame. split; [reflexivity|]. split.
  - unfold indexRows. apply (serial_numbers jobDescriptions candidates 0).
  - unfold indexRows. apply (row_pairs jobDescriptions candidates 0).
Qed.

End Rows.
End ReportProps.
